(** * AsioProcessSupervisor (core/system/PosixProcess.cpp)

    A shallow embedding of the process supervisor and of the operations it
    offers: launching children, reaping them when they exit, terminating
    all of them and waiting for quiescence.

    The supervisor is used from several threads at once (callers and the
    workers of the io_service), so every member function is embedded as a
    tree of primitive steps, and a scheduler interleaves the steps of the
    threads over the shared members [children_], [mutex_] and
    [noChildrenSignal_]. *)

From Stdlib Require Import ZArith.
From stdpp Require Import base decidable option list gmap strings.

Set Default Proof Using "Type".
Local Open Scope Z_scope.
Local Open Scope nat_scope.

(** ** Data *)

(** A [boost::shared_ptr<AsioAsyncChildProcess>] is compared by the identity
    of the object it points to; [std::set] of such pointers is a set of
    identities.  A [boost::weak_ptr] names the same identity without owning
    it.

    A [std::set] is gone through in the order of its keys, here the order
    of the pointers, which the allocator decides and the supervisor does
    not.  A set read as a whole is therefore given as the sequence of its
    elements in the order of iteration, each element once, and every
    arrangement of them is possible. *)
Abbreviation Handle := nat (only parsing).
Abbreviation weak_ptr := nat (only parsing).
Abbreviation Tid := nat (only parsing).

(** [core::Error]: [Success()] or an error code; [if (error)] tests
    [isError]. *)
Inductive Error : Type :=
| Success
| Failure (code : Z).

Definition isError (e : Error) : bool :=
  match e with
  | Success => false
  | Failure _ => true
  end.

(** [boost::posix_time::time_duration] with its special values. *)
Inductive time_duration : Type :=
| not_a_date_time
| neg_infin
| pos_infin
| ticks (n : Z).

Definition is_not_a_date_time (d : time_duration) : bool :=
  match d with
  | not_a_date_time => true
  | _ => false
  end.

(** Modelled from the spec: [ProcessOptions] is declared in
    core/system/Process.hpp, which is not part of the sources at hand.  It
    is a configuration bag that the supervisor hands on unchanged. *)
Record ProcessOptions : Type := {
  workingDir : option string;
  environment : list (string * string);
  captureOutput : bool;
  detachSession : bool
}.

(** A [boost::function<void(int)>]: empty, a function of the caller, or the
    closure that [boost::bind(&Impl::wrapExitCallback, pImpl_.get(), weak,
    _1, onExit)] builds. *)
Inductive ExitFn : Type :=
| EmptyExitFn
| UserExitFn (id : nat)
| BoundWrapExit (pChild : weak_ptr) (onExit : ExitFn).

Definition exitFnIsSet (f : ExitFn) : bool :=
  match f with
  | EmptyExitFn => false
  | _ => true
  end.

(** The output callbacks, empty or a function of the caller. *)
Inductive OutputFn : Type :=
| EmptyOutputFn
| UserOutputFn (id : nat).

(** Modelled from the spec: [ProcessCallbacks] is declared in
    core/system/Process.hpp, which is not part of the sources at hand.  The
    spec gives it three independent, optional slots. *)
Record ProcessCallbacks : Type := {
  onStdout : OutputFn;
  onStderr : OutputFn;
  onExit : ExitFn
}.

(** [ourCallbacks.onExit = f] on a copy of the callbacks. *)
Definition set_onExit (callbacks : ProcessCallbacks) (f : ExitFn) : ProcessCallbacks :=
  {| onStdout := onStdout callbacks;
     onStderr := onStderr callbacks;
     onExit := f |}.

(** The two constructors of [AsioAsyncChildProcess] that the supervisor
    uses. *)
Inductive ChildSpec : Type :=
| Program (executable : string) (args : list string) (options : ProcessOptions)
| Command (command : string) (options : ProcessOptions).

#[global] Instance Error_eq_dec : EqDecision Error.
Proof. solve_decision. Defined.
#[global] Instance time_duration_eq_dec : EqDecision time_duration.
Proof. solve_decision. Defined.
#[global] Instance ProcessOptions_eq_dec : EqDecision ProcessOptions.
Proof. solve_decision. Defined.
#[global] Instance ExitFn_eq_dec : EqDecision ExitFn.
Proof. solve_decision. Defined.
#[global] Instance OutputFn_eq_dec : EqDecision OutputFn.
Proof. solve_decision. Defined.
#[global] Instance ProcessCallbacks_eq_dec : EqDecision ProcessCallbacks.
Proof. solve_decision. Defined.
#[global] Instance ChildSpec_eq_dec : EqDecision ChildSpec.
Proof. solve_decision. Defined.

(** ** Programs

    The primitive steps of the member functions.  The index of an event is
    the type of what the step gives back. *)
Inductive Event : Type -> Type :=
| ENewChild (spec : ChildSpec) : Event Handle
    (* new AsioAsyncChildProcess(ioService_, ...) *)
| ERun (pChild : Handle) (callbacks : ProcessCallbacks) : Event Error
    (* pChild->run(callbacks) *)
| ETerminate (pChild : Handle) : Event Error
    (* pChild->terminate() *)
| ELogError (error : Error) : Event unit
    (* LOG_ERROR(error) *)
| ELock : Event unit
    (* mutex_ is locked *)
| EUnlock : Event unit
    (* mutex_ is unlocked *)
| EChildrenEmpty : Event bool
    (* children_.empty() *)
| EChildrenCopy : Event (list Handle)
    (* childCopies = children_, in the order of iteration *)
| EChildrenInsert (pChild : Handle) : Event unit
    (* children_.insert(pChild) *)
| EChildrenErase (child : Handle) : Event unit
    (* children_.erase(child) *)
| EWeakLock (pChild : weak_ptr) : Event (option Handle)
    (* pChild.lock() *)
| ECondWait : Event unit
    (* noChildrenSignal_.wait(lock) *)
| ECondTimedWait (maxWait : time_duration) : Event bool
    (* noChildrenSignal_.timed_wait(lock, maxWait) *)
| ENotifyAll : Event unit
    (* noChildrenSignal_.notify_all() *)
| ECallOnExit (onExit : ExitFn) (exitCode : Z) : Event unit.
    (* onExit(exitCode) *)

Inductive prog (A : Type) : Type :=
| Ret (a : A)
| Vis {X : Type} (e : Event X) (k : X -> prog A).

Arguments Ret {A} a.
Arguments Vis {A X} e k.

Fixpoint bind {A B : Type} (p : prog A) (f : A -> prog B) : prog B :=
  match p with
  | Ret a => f a
  | Vis e k => Vis e (fun x => bind (k x) f)
  end.

Definition trigger {X : Type} (e : Event X) : prog X := Vis e Ret.

Declare Scope prog_scope.
Delimit Scope prog_scope with prog.
Bind Scope prog_scope with prog.
Notation "x <- p ;; q" := (bind p (fun x => q))
  (at level 100, p at next level, right associativity) : prog_scope.
Notation "p ;; q" := (bind p (fun _ => q))
  (at level 100, right associativity) : prog_scope.

(** [BOOST_FOREACH(const T& x, xs) body] *)
Fixpoint foreach {T : Type} (xs : list T) (body : T -> prog unit) : prog unit :=
  match xs with
  | [] => Ret tt
  | x :: xs' => (body x ;; foreach xs' body)%prog
  end.

(** ** AsioProcessSupervisor::Impl *)
Module Impl.
Local Open Scope prog_scope.

(** Modelled from the spec: [LOCK_MUTEX(mutex_) { body } END_LOCK_MUTEX]
    are macros of core/Thread.hpp, which is not part of the sources at
    hand.  The spec has the block run under the lock: [mutex_] is held by
    a scoped lock, which is released when the block is left. *)
Definition LOCK_MUTEX {A : Type} (body : prog A) : prog A :=
  trigger ELock ;; r <- body ;; trigger EUnlock ;; Ret r.

Definition runChild (pChild : Handle) (callbacks : ProcessCallbacks) : prog Error :=
  (* run the child *)
  error <- trigger (ERun pChild callbacks) ;;
  if isError error then Ret error
  else
    LOCK_MUTEX (
      (* add to the list of children *)
      trigger (EChildrenInsert pChild)) ;;
    (* success *)
    Ret Success.

Definition hasRunningChildren : prog bool :=
  LOCK_MUTEX (
    empty <- trigger EChildrenEmpty ;;
    Ret (negb empty)).

Definition terminateAll : prog unit :=
  (* make a copy of our child map *)
  childCopies <- LOCK_MUTEX (trigger EChildrenCopy) ;;
  (* call terminate on all of our children *)
  foreach childCopies (fun pChild =>
    error <- trigger (ETerminate pChild) ;;
    if isError error then trigger (ELogError error) else Ret tt).

Definition wait (maxWait : time_duration) : prog bool :=
  (* boost::unique_lock<boost::mutex> lock(mutex_), released on return *)
  trigger ELock ;;
  empty <- trigger EChildrenEmpty ;;
  if empty then trigger EUnlock ;; Ret true
  else
    (* wait for all children to exit *)
    if is_not_a_date_time maxWait then
      trigger ECondWait ;;
      empty' <- trigger EChildrenEmpty ;;
      trigger EUnlock ;; Ret empty'
    else
      (* timed_wait(lock, maxWait) && children_.empty() *)
      signalled <- trigger (ECondTimedWait maxWait) ;;
      if signalled then
        empty' <- trigger EChildrenEmpty ;;
        trigger EUnlock ;; Ret empty'
      else trigger EUnlock ;; Ret false.

Definition wrapExitCallback (pChild : weak_ptr) (exitCode : Z) (onExit : ExitFn)
  : prog unit :=
  (* remove exited children *)
  LOCK_MUTEX (
    (* upgrade this weak pointer to a shared pointer *)
    child <- trigger (EWeakLock pChild) ;;
    match child with
    | Some child => trigger (EChildrenErase child)
    | None => Ret tt
    end) ;;
  (* invoke the user's requested callback *)
  (if exitFnIsSet onExit then trigger (ECallOnExit onExit exitCode) else Ret tt) ;;
  (* finally, check to see if we have no children, and notify if so *)
  LOCK_MUTEX (
    empty <- trigger EChildrenEmpty ;;
    if empty then trigger ENotifyAll else Ret tt).
End Impl.

(** ** AsioProcessSupervisor *)
Local Open Scope prog_scope.

Definition runProgram (executable : string) (args : list string)
    (options : ProcessOptions) (callbacks : ProcessCallbacks) : prog Error :=
  (* create the child *)
  pChild <- trigger (ENewChild (Program executable args options)) ;;
  (* wrap exit callback with our own so we reap dead child objects *)
  let ourCallbacks :=
    set_onExit callbacks (BoundWrapExit pChild (onExit callbacks)) in
  (* run the child *)
  Impl.runChild pChild ourCallbacks.

Definition runCommand (command : string)
    (options : ProcessOptions) (callbacks : ProcessCallbacks) : prog Error :=
  (* create the child *)
  pChild <- trigger (ENewChild (Command command options)) ;;
  let ourCallbacks :=
    set_onExit callbacks (BoundWrapExit pChild (onExit callbacks)) in
  (* run the child *)
  Impl.runChild pChild ourCallbacks.

Definition hasRunningChildren : prog bool := Impl.hasRunningChildren.

Definition terminateAll : prog unit := Impl.terminateAll.

Definition wait (maxWait : time_duration) : prog bool := Impl.wait maxWait.

(** ** Threads

    What a thread is doing: one of the member functions, entered by a caller
    or, for the wrapped exit callback, by a worker of the io_service. *)
Inductive Op : Type :=
| OpRunProgram (executable : string) (args : list string)
    (options : ProcessOptions) (callbacks : ProcessCallbacks)
| OpRunCommand (command : string)
    (options : ProcessOptions) (callbacks : ProcessCallbacks)
| OpHasRunningChildren
| OpTerminateAll
| OpWait (maxWait : time_duration)
| OpWrapExitCallback (pChild : weak_ptr) (exitCode : Z) (onExit : ExitFn).

(** What a member function returns. *)
Inductive Value : Type :=
| VVoid
| VBool (b : bool)
| VError (e : Error).

Definition returning {A : Type} (inj : A -> Value) (p : prog A) : prog Value :=
  (r <- p ;; Ret (inj r))%prog.

Definition op_prog (o : Op) : prog Value :=
  match o with
  | OpRunProgram executable args options callbacks =>
      returning VError (runProgram executable args options callbacks)
  | OpRunCommand command options callbacks =>
      returning VError (runCommand command options callbacks)
  | OpHasRunningChildren => returning VBool hasRunningChildren
  | OpTerminateAll => returning (fun _ => VVoid) terminateAll
  | OpWait maxWait => returning VBool (wait maxWait)
  | OpWrapExitCallback pChild exitCode onExit =>
      returning (fun _ => VVoid) (Impl.wrapExitCallback pChild exitCode onExit)
  end.

(** A step of a thread as an observer sees it: the primitive and what it
    gave back. *)
Inductive Label : Type :=
| LNewChild (spec : ChildSpec) (pChild : Handle)
| LRun (pChild : Handle) (callbacks : ProcessCallbacks) (error : Error)
| LTerminate (pChild : Handle) (error : Error)
| LLogError (error : Error)
| LLock
| LUnlock
| LChildrenEmpty (empty : bool)
| LChildrenCopy (copy : list Handle)
| LChildrenInsert (pChild : Handle)
| LChildrenErase (child : Handle)
| LWeakLock (pChild : weak_ptr) (child : option Handle)
| LCondWait
| LCondTimedWait (maxWait : time_duration) (signalled : bool)
| LNotifyAll
| LCallOnExit (onExit : ExitFn) (exitCode : Z).

#[global] Instance Label_eq_dec : EqDecision Label.
Proof. solve_decision. Defined.
#[global] Instance Value_eq_dec : EqDecision Value.
Proof. solve_decision. Defined.

(** [after p l]: the rest of [p] once its first primitive has been done
    with label [l]; [None] when [l] is not a label of that primitive. *)
Definition after {A : Type} (p : prog A) (l : Label) : option (prog A) :=
  match p with
  | Ret _ => None
  | Vis e k =>
      match e in Event X return (X -> prog A) -> option (prog A) with
      | ENewChild spec => fun k =>
          match l with
          | LNewChild spec' h => if decide (spec' = spec) then Some (k h) else None
          | _ => None
          end
      | ERun pChild callbacks => fun k =>
          match l with
          | LRun pChild' callbacks' error =>
              if decide (pChild' = pChild /\ callbacks' = callbacks)
              then Some (k error) else None
          | _ => None
          end
      | ETerminate pChild => fun k =>
          match l with
          | LTerminate pChild' error =>
              if decide (pChild' = pChild) then Some (k error) else None
          | _ => None
          end
      | ELogError error => fun k =>
          match l with
          | LLogError error' => if decide (error' = error) then Some (k tt) else None
          | _ => None
          end
      | ELock => fun k => match l with LLock => Some (k tt) | _ => None end
      | EUnlock => fun k => match l with LUnlock => Some (k tt) | _ => None end
      | EChildrenEmpty => fun k =>
          match l with LChildrenEmpty b => Some (k b) | _ => None end
      | EChildrenCopy => fun k =>
          match l with LChildrenCopy copy => Some (k copy) | _ => None end
      | EChildrenInsert pChild => fun k =>
          match l with
          | LChildrenInsert pChild' =>
              if decide (pChild' = pChild) then Some (k tt) else None
          | _ => None
          end
      | EChildrenErase child => fun k =>
          match l with
          | LChildrenErase child' =>
              if decide (child' = child) then Some (k tt) else None
          | _ => None
          end
      | EWeakLock pChild => fun k =>
          match l with
          | LWeakLock pChild' child =>
              if decide (pChild' = pChild) then Some (k child) else None
          | _ => None
          end
      | ECondWait => fun k => match l with LCondWait => Some (k tt) | _ => None end
      | ECondTimedWait maxWait => fun k =>
          match l with
          | LCondTimedWait maxWait' signalled =>
              if decide (maxWait' = maxWait) then Some (k signalled) else None
          | _ => None
          end
      | ENotifyAll => fun k => match l with LNotifyAll => Some (k tt) | _ => None end
      | ECallOnExit onExit exitCode => fun k =>
          match l with
          | LCallOnExit onExit' exitCode' =>
              if decide (onExit' = onExit /\ exitCode' = exitCode)
              then Some (k tt) else None
          | _ => None
          end
      end k
  end.

(** [follows p ls]: the rest of [p] after the steps [ls], in order. *)
Fixpoint follows {A : Type} (p : prog A) (ls : list Label) : option (prog A) :=
  match ls with
  | [] => Some p
  | l :: ls' =>
      match after p l with
      | Some p' => follows p' ls'
      | None => None
      end
  end.

(** A thread is ready to do its next step, blocked in a wait on
    [noChildrenSignal_], or woken from such a wait and about to take
    [mutex_] again; [signalled] is what [timed_wait] will return. *)
Inductive Status : Type :=
| Ready
| Blocked
| Woken (signalled : bool).

#[global] Instance Status_eq_dec : EqDecision Status.
Proof. solve_decision. Defined.

Record Thread : Type := {
  op : Op;
  code : prog Value;
  status : Status
}.

(** The members of [Impl] and the threads inside its member functions.
    The threads waiting on [noChildrenSignal_] are the [Blocked] ones;
    [mutex_] is the thread that holds the mutex, if any; [next_child] is
    the identity of the next object that [new] creates. *)
Record State : Type := {
  children_ : gset Handle;
  mutex_ : option Tid;
  threads : list Thread;
  next_child : Handle
}.

Definition set_children (s : State) (c : gset Handle) : State :=
  {| children_ := c; mutex_ := mutex_ s; threads := threads s;
     next_child := next_child s |}.

Definition set_mutex (s : State) (m : option Tid) : State :=
  {| children_ := children_ s; mutex_ := m; threads := threads s;
     next_child := next_child s |}.

Definition set_threads (s : State) (ths : list Thread) : State :=
  {| children_ := children_ s; mutex_ := mutex_ s; threads := ths;
     next_child := next_child s |}.

Definition set_next_child (s : State) (h : Handle) : State :=
  {| children_ := children_ s; mutex_ := mutex_ s; threads := threads s;
     next_child := h |}.

Definition set_status (th : Thread) (st : Status) : Thread :=
  {| op := op th; code := code th; status := st |}.

Definition set_code (th : Thread) (p : prog Value) : Thread :=
  {| op := op th; code := p; status := Ready |}.

(** [notify_all] wakes every thread blocked on the condition variable. *)
Definition notified (th : Thread) : Thread :=
  match status th with
  | Blocked => set_status th (Woken true)
  | _ => th
  end.

Definition is_wait (p : prog Value) : bool :=
  match p with
  | Vis ECondWait _ => true
  | Vis (ECondTimedWait _) _ => true
  | _ => false
  end.

Definition is_timed_wait (p : prog Value) : bool :=
  match p with
  | Vis (ECondTimedWait _) _ => true
  | _ => false
  end.

(** When thread [t], in status [st], can do a step with label [l] in state
    [s].  What the collaborators give back ([run], [terminate], a weak
    pointer whose object the set does not own) is not determined by the
    supervisor; what the members give back is. *)
Definition enabled (s : State) (t : Tid) (st : Status) (l : Label) : bool :=
  match l with
  | LCondWait =>
      bool_decide (mutex_ s = None) && bool_decide (st = Woken true)
  | LCondTimedWait _ signalled =>
      bool_decide (mutex_ s = None) && bool_decide (st = Woken signalled)
  | _ =>
      bool_decide (st = Ready) &&
      match l with
      | LNewChild _ pChild => bool_decide (pChild = next_child s)
      | LLock => bool_decide (mutex_ s = None)
      | LUnlock => bool_decide (mutex_ s = Some t)
      | LChildrenEmpty empty => bool_decide (empty = bool_decide (children_ s = ∅))
      | LChildrenCopy copy =>
          bool_decide (NoDup copy) && bool_decide (list_to_set copy = children_ s)
      | LWeakLock pChild child =>
          bool_decide (child = Some pChild)
          || (bool_decide (child = None) && bool_decide (pChild ∉ children_ s))
      | _ => true
      end
  end.

(** What a step with label [l] of thread [t] does to the members. *)
Definition effect (s : State) (t : Tid) (l : Label) : State :=
  match l with
  | LNewChild _ pChild => set_next_child s (S pChild)
  | LLock | LCondWait | LCondTimedWait _ _ => set_mutex s (Some t)
  | LUnlock => set_mutex s None
  | LChildrenInsert pChild => set_children s ({[pChild]} ∪ children_ s)
  | LChildrenErase child => set_children s (children_ s ∖ {[child]})
  | LNotifyAll => set_threads s (notified <$> threads s)
  | _ => s
  end.

(** What the scheduler can choose. *)
Inductive Choice : Type :=
| Spawn (o : Op)
    (* a thread enters a member function *)
| Exec (t : Tid) (l : Label)
    (* thread [t] does its next primitive *)
| Block (t : Tid)
    (* thread [t], at a wait, releases [mutex_] and blocks *)
| SpuriousWake (t : Tid)
    (* a blocked thread wakes without a notification *)
| Timeout (t : Tid).
    (* the duration of a blocked [timed_wait] elapses *)

Definition step (s : State) (c : Choice) : option State :=
  match c with
  | Spawn o =>
      Some (set_threads s
              (threads s ++ [{| op := o; code := op_prog o; status := Ready |}]))
  | Exec t l =>
      th ← threads s !! t;
      p' ← after (code th) l;
      if enabled s t (status th) l then
        let s' := effect s t l in
        Some (set_threads s' (<[t := set_code th p']> (threads s')))
      else None
  | Block t =>
      th ← threads s !! t;
      if bool_decide (status th = Ready) && is_wait (code th)
         && bool_decide (mutex_ s = Some t)
      then Some (set_threads (set_mutex s None)
                   (<[t := set_status th Blocked]> (threads s)))
      else None
  | SpuriousWake t =>
      th ← threads s !! t;
      if bool_decide (status th = Blocked)
      then Some (set_threads s (<[t := set_status th (Woken true)]> (threads s)))
      else None
  | Timeout t =>
      th ← threads s !! t;
      if bool_decide (status th = Blocked) && is_timed_wait (code th)
      then Some (set_threads s (<[t := set_status th (Woken false)]> (threads s)))
      else None
  end.

(** [run cs s]: the state after the choices [cs], in order, from [s]. *)
Fixpoint run (cs : list Choice) (s : State) : option State :=
  match cs with
  | [] => Some s
  | c :: cs' =>
      match step s c with
      | Some s' => run cs' s'
      | None => None
      end
  end.

(** The steps of thread [t] among the choices [cs]. *)
Fixpoint thread_trace (t : Tid) (cs : list Choice) : list Label :=
  match cs with
  | [] => []
  | Exec t' l :: cs' =>
      if decide (t' = t) then l :: thread_trace t cs' else thread_trace t cs'
  | _ :: cs' => thread_trace t cs'
  end.

(** A supervisor that has just been constructed. *)
Definition init : State :=
  {| children_ := ∅; mutex_ := None; threads := []; next_child := 0 |}.

(** What thread [t] has returned, once it has. *)
Definition returned (s : State) (t : Tid) : option Value :=
  match threads s !! t with
  | Some {| code := Ret v |} => Some v
  | _ => None
  end.

(** A thread that has just entered a member function. *)
Definition spawned (o : Op) : Thread :=
  {| op := o; code := op_prog o; status := Ready |}.

(** Whether a choice is an action of thread [t]. *)
Definition acts_on (c : Choice) (t : Tid) : bool :=
  match c with
  | Spawn _ => false
  | Exec t' _ | Block t' | SpuriousWake t' | Timeout t' => bool_decide (t' = t)
  end.

(** Every occurrence of [b] in [tr] comes strictly after an occurrence of
    [a]. *)
Definition happens_before (a b : Label) (tr : list Label) : Prop :=
  forall i, tr !! i = Some b -> exists j, j < i /\ tr !! j = Some a.

(** ** The locking discipline

    [disciplined held p]: from a point where the thread holds [mutex_] iff
    [held], the code [p] takes the mutex only when it does not hold it,
    reads and writes [children_] and waits only when it holds it, calls
    the collaborators and the callbacks only when it does not hold it, and
    returns without it. *)
Fixpoint disciplined {A : Type} (held : bool) (p : prog A) : Prop :=
  match p with
  | Ret _ => held = false
  | Vis e k =>
      match e in Event X return (X -> prog A) -> Prop with
      | ELock => fun k => held = false /\ disciplined true (k tt)
      | EUnlock => fun k => held = true /\ disciplined false (k tt)
      | EChildrenEmpty => fun k => held = true /\ forall x, disciplined true (k x)
      | EChildrenCopy => fun k => held = true /\ forall x, disciplined true (k x)
      | EChildrenInsert _ => fun k => held = true /\ disciplined true (k tt)
      | EChildrenErase _ => fun k => held = true /\ disciplined true (k tt)
      | ECondWait => fun k => held = true /\ disciplined true (k tt)
      | ECondTimedWait _ => fun k => held = true /\ forall x, disciplined true (k x)
      | EWeakLock _ => fun k => forall x, disciplined held (k x)
      | ENotifyAll => fun k => disciplined held (k tt)
      | ENewChild _ => fun k => held = false /\ forall x, disciplined false (k x)
      | ERun _ _ => fun k => held = false /\ forall x, disciplined false (k x)
      | ETerminate _ => fun k => held = false /\ forall x, disciplined false (k x)
      | ELogError _ => fun k => held = false /\ disciplined false (k tt)
      | ECallOnExit _ _ => fun k => held = false /\ disciplined false (k tt)
      end k
  end.

(** The labels of the reads and writes of [children_]. *)
Definition touches_children (l : Label) : bool :=
  match l with
  | LChildrenEmpty _ | LChildrenCopy _ | LChildrenInsert _ | LChildrenErase _ => true
  | _ => false
  end.

Definition writes_children (l : Label) : bool :=
  match l with
  | LChildrenInsert _ | LChildrenErase _ => true
  | _ => false
  end.

(** The labels of the calls that leave the supervisor. *)
Definition calls_out (l : Label) : bool :=
  match l with
  | LNewChild _ _ | LRun _ _ _ | LTerminate _ _ | LLogError _ | LCallOnExit _ _ => true
  | _ => false
  end.

Definition thread_ok (s : State) (t : Tid) (th : Thread) : Prop :=
  (exists tr, follows (op_prog (op th)) tr = Some (code th)) /\
  match status th with
  | Ready => disciplined (bool_decide (mutex_ s = Some t)) (code th)
  | _ => mutex_ s <> Some t /\ is_wait (code th) = true /\ disciplined true (code th)
  end.

(** What holds of every state that the supervisor can be in. *)
Definition inv (s : State) : Prop :=
  (forall t, mutex_ s = Some t -> t < length (threads s)) /\
  (forall t th, threads s !! t = Some th -> thread_ok s t th).

(** Whether the thread holds [mutex_] after a step, given whether it held
    it before. *)
Definition held_after (held : bool) (l : Label) : bool :=
  match l with
  | LLock => true
  | LUnlock => false
  | _ => held
  end.

Definition is_wait_label (l : Label) : bool :=
  match l with
  | LCondWait | LCondTimedWait _ _ => true
  | _ => false
  end.

(** [step_in s cs s1 c s2]: in the run of [cs] from [s], the choice [c] is
    made in state [s1] and gives [s2]. *)
Definition step_in (s : State) (cs : list Choice) (s1 : State) (c : Choice)
    (s2 : State) : Prop :=
  exists pre post, cs = pre ++ c :: post /\ run pre s = Some s1 /\ step s1 c = Some s2.

(** The callbacks that a launch is given. *)
Definition launch_callbacks (o : Op) : option ProcessCallbacks :=
  match o with
  | OpRunProgram _ _ _ callbacks | OpRunCommand _ _ callbacks => Some callbacks
  | _ => None
  end.

(** ** The scenarios of the unit tests (core/system/ProcessTests.cpp) *)
Definition test_options : ProcessOptions :=
  {| workingDir := None; environment := []; captureOutput := true;
     detachSession := false |}.

(** [callbacks.onExit = boost::bind(&checkExitCode, _1, &exitCode)] *)
Definition checkExitCode : ExitFn := UserExitFn 0.

(** [callbacks.onStdout = boost::bind(&appendOutput, _2, &output)] *)
Definition appendOutput : OutputFn := UserOutputFn 0.

Definition test_callbacks : ProcessCallbacks :=
  {| onStdout := appendOutput; onStderr := EmptyOutputFn; onExit := checkExitCode |}.

Definition echo_args : list string :=
  ["Hello, world! This is a string to echo!"%string].

Definition run_echo : Op :=
  OpRunProgram "/bin/echo" echo_args test_options test_callbacks.

Definition run_invalid_command : Op :=
  OpRunCommand "this is not a valid command" test_options test_callbacks.

(** The choices of a launch by thread [t] that creates child [pChild] and
    starts it with result [error]. *)
Definition echo_started (t : Tid) (pChild : Handle) (error : Error) : list Choice :=
  [ Spawn run_echo;
    Exec t (LNewChild (Program "/bin/echo" echo_args test_options) pChild);
    Exec t (LRun pChild
              (set_onExit test_callbacks (BoundWrapExit pChild checkExitCode))
              error) ].

Definition echo_launched (t : Tid) (pChild : Handle) : list Choice :=
  echo_started t pChild Success
  ++ [ Exec t LLock; Exec t (LChildrenInsert pChild); Exec t LUnlock ].

(** The choices of a worker thread [t] that delivers the exit of child
    [pChild] while it is the only child. *)
Definition echo_reaped (t : Tid) (pChild : Handle) (exitCode : Z) : list Choice :=
  [ Spawn (OpWrapExitCallback pChild exitCode checkExitCode);
    Exec t LLock; Exec t (LWeakLock pChild (Some pChild));
    Exec t (LChildrenErase pChild); Exec t LUnlock;
    Exec t (LCallOnExit checkExitCode exitCode);
    Exec t LLock; Exec t (LChildrenEmpty true); Exec t LNotifyAll;
    Exec t LUnlock ].

(** The steps of the loop of [terminateAll] over the handles [hes], each
    with what its [terminate] returned: the call, and the log of its
    error if it failed. *)
Fixpoint terminate_steps (hes : list (Handle * Error)) : list Label :=
  match hes with
  | [] => []
  | (pChild, error) :: hes' =>
      LTerminate pChild error
      :: (if isError error then [LLogError error] else [])
      ++ terminate_steps hes'
  end.

(** The steps of a whole call of [terminateAll] that copies [copy]. *)
Definition terminateAll_steps (copy : list Handle) (errors : list Error) : list Label :=
  [LLock; LChildrenCopy copy; LUnlock]
  ++ terminate_steps (zip copy errors).

(** The steps of a whole call of the reaping wrapper. *)
Definition wrapExitCallback_steps (pChild : weak_ptr) (exitCode : Z)
    (onExit : ExitFn) (child : option Handle) (empty : bool) : list Label :=
  [LLock; LWeakLock pChild child]
  ++ match child with Some child => [LChildrenErase child] | None => [] end
  ++ [LUnlock]
  ++ (if exitFnIsSet onExit then [LCallOnExit onExit exitCode] else [])
  ++ [LLock; LChildrenEmpty empty]
  ++ (if empty then [LNotifyAll] else [])
  ++ [LUnlock].

Definition is_wrapExitCallback (o : Op) : bool :=
  match o with
  | OpWrapExitCallback _ _ _ => true
  | _ => false
  end.

(** The state after the choices [cs] from [s]; [s] itself when they cannot
    be made. *)
Definition state_after (cs : list Choice) (s : State) : State :=
  default s (run cs s).

(** Choices among which thread [t] does nothing. *)
Definition quiet (t : Tid) (cs : list Choice) : Prop :=
  forall c, c ∈ cs -> acts_on c t = false.

(** The steps of a whole call of [wait]: [entry] is what the first check
    of [children_] gives, [signalled] what [timed_wait] returns and
    [empty'] what the check after the wait gives. *)
Definition wait_steps (maxWait : time_duration) (entry signalled empty' : bool)
    : list Label :=
  [LLock; LChildrenEmpty entry]
  ++ (if entry then [LUnlock]
      else if is_not_a_date_time maxWait
           then [LCondWait; LChildrenEmpty empty'; LUnlock]
           else LCondTimedWait maxWait signalled
                :: (if signalled then [LChildrenEmpty empty'; LUnlock]
                    else [LUnlock])).

(** What such a call returns. *)
Definition wait_result (maxWait : time_duration) (entry signalled empty' : bool)
    : bool :=
  if entry then true
  else if is_not_a_date_time maxWait then empty'
       else signalled && empty'.

#[global] Instance Op_eq_dec : EqDecision Op.
Proof. solve_decision. Defined.
#[global] Instance Choice_eq_dec : EqDecision Choice.
Proof. solve_decision. Defined.

(** One child launched, and a worker about to deliver its exit. *)
Definition reap_ready : State :=
  state_after
    (echo_launched 0 0 ++ [Spawn (OpWrapExitCallback 0 0 checkExitCode)]) init.










(** What is said of [wait] without a maximum duration: called while
    [children_] is not empty, it returns only once the collection is empty,
    and it returns true. *)
Definition wait_untimed_claim : Prop :=
  forall (cs0 cs : list Choice) (s s' : State) (t : Tid) (s1 s2 : State) (v : Value),
    run cs0 init = Some s ->
    threads s !! t = Some (spawned (OpWait not_a_date_time)) ->
    run cs s = Some s' ->
    step_in s cs s1 (Exec t LLock) s2 ->
    children_ s1 <> ∅ ->
    returned s' t = Some v ->
    v = VBool true
    /\ forall s3 s4, step_in s cs s3 (Exec t LUnlock) s4 -> children_ s3 = ∅.

(** A run in which a call of [wait] without a maximum duration is woken by
    the notification of the last exit, and a new child is registered
    before the call has taken the lock again: thread 0 launches child 0,
    thread 1 waits, thread 2 reaps child 0 and notifies, thread 3 launches
    child 1, and thread 1 resumes. *)
Definition wait_race_before : list Choice :=
  echo_launched 0 0 ++ [Spawn (OpWait not_a_date_time)].

Definition wait_race : list Choice :=
  [Exec 1 LLock; Exec 1 (LChildrenEmpty false); Block 1]
  ++ echo_reaped 2 0 0
  ++ echo_launched 3 1
  ++ [Exec 1 LCondWait; Exec 1 (LChildrenEmpty false); Exec 1 LUnlock].

(** The first test: [runProgram("/bin/echo", ...)], then [wait(seconds(5))]
    blocks, the exit of the child is delivered, and [wait] resumes. *)
Definition five_seconds : time_duration := ticks 5000000.

Definition echo_then_wait : State :=
  state_after (echo_launched 0 0 ++ [Spawn (OpWait five_seconds)]) init.

Definition wait_for_echo : list Choice :=
  [Exec 1 LLock; Exec 1 (LChildrenEmpty false); Block 1]
  ++ echo_reaped 2 0 0
  ++ [Exec 1 (LCondTimedWait five_seconds true);
      Exec 1 (LChildrenEmpty true); Exec 1 LUnlock].

(** [wait] on a supervisor that has launched nothing. *)
Definition wait_on_idle : list Choice :=
  [Exec 0 LLock; Exec 0 (LChildrenEmpty true); Exec 0 LUnlock].

(** Two children launched; [terminateAll], whose first [terminate] fails. *)
Definition two_children : State :=
  state_after (echo_launched 0 0 ++ echo_launched 1 1 ++ [Spawn OpTerminateAll]) init.

Definition terminate_two : list Choice :=
  [Exec 2 LLock; Exec 2 (LChildrenCopy [0; 1]); Exec 2 LUnlock;
   Exec 2 (LTerminate 0 (Failure 3)); Exec 2 (LLogError (Failure 3));
   Exec 2 (LTerminate 1 Success)].

(** The exit of a child that is not registered, with a weak pointer that
    resolves to null. *)
Definition reap_unknown : list Choice :=
  [Exec 0 LLock; Exec 0 (LWeakLock 0 None); Exec 0 LUnlock;
   Exec 0 (LCallOnExit checkExitCode 0);
   Exec 0 LLock; Exec 0 (LChildrenEmpty true); Exec 0 LNotifyAll;
   Exec 0 LUnlock].

(** One child launched, and a worker that has erased it and is about to
    call the caller's [onExit]. *)
Definition before_callback : list Choice :=
  echo_launched 0 0
  ++ [ Spawn (OpWrapExitCallback 0 0 checkExitCode);
       Exec 1 LLock; Exec 1 (LWeakLock 0 (Some 0));
       Exec 1 (LChildrenErase 0); Exec 1 LUnlock ].

(** One child launched, and a worker that holds the lock and is about to
    erase it. *)
Definition before_erase : list Choice :=
  echo_launched 0 0
  ++ [ Spawn (OpWrapExitCallback 0 0 checkExitCode);
       Exec 1 LLock; Exec 1 (LWeakLock 0 (Some 0)) ].

(** [hasRunningChildren] on a supervisor with one child launched. *)
Definition ask_running_before : list Choice :=
  echo_launched 0 0 ++ [Spawn OpHasRunningChildren].

Definition ask_running : list Choice :=
  [Exec 1 LLock; Exec 1 (LChildrenEmpty false); Exec 1 LUnlock].

(** The member functions that only ask. *)
Definition is_query (o : Op) : bool :=
  match o with
  | OpHasRunningChildren | OpWait _ => true
  | _ => false
  end.

(** The labels of the calls of a caller's [onExit]. *)
Definition is_onExit_call (l : Label) : bool :=
  match l with
  | LCallOnExit _ _ => true
  | _ => false
  end.

(** The handle on which a step calls [terminate]. *)
Definition terminated (l : Label) : option Handle :=
  match l with
  | LTerminate pChild _ => Some pChild
  | _ => None
  end.

(** The child that a step starts and the callbacks that it hands to it. *)
Definition passed_callbacks (l : Label) : option (Handle * ProcessCallbacks) :=
  match l with
  | LRun pChild callbacks _ => Some (pChild, callbacks)
  | _ => None
  end.

(** What a launch creates. *)
Definition launch_spec (o : Op) : option ChildSpec :=
  match o with
  | OpRunProgram executable args options _ => Some (Program executable args options)
  | OpRunCommand command options _ => Some (Command command options)
  | _ => None
  end.

(** The steps of a whole launch that creates [pChild] and whose [run]
    returns [error]. *)
Definition launch_steps (spec : ChildSpec) (callbacks : ProcessCallbacks)
    (pChild : Handle) (error : Error) : list Label :=
  [LNewChild spec pChild;
   LRun pChild (set_onExit callbacks (BoundWrapExit pChild (onExit callbacks))) error]
  ++ (if isError error then []
      else [LLock; LChildrenInsert pChild; LUnlock]).

(** A launch whose child exits at once: the worker delivers the exit
    after [run] has returned and before [runChild] has registered the
    child. *)
Definition early_exit_before_insert : list Choice :=
  echo_started 0 0 Success ++ echo_reaped 1 0 0 ++ [Exec 0 LLock].

Definition early_exit : list Choice :=
  early_exit_before_insert ++ [Exec 0 (LChildrenInsert 0); Exec 0 LUnlock].

(** Choices among which no thread registers a child. *)
Definition no_insert (cs : list Choice) : Prop :=
  forall t pChild, Exec t (LChildrenInsert pChild) ∉ cs.

(** Two calls of [wait] and one of [hasRunningChildren] on a supervisor
    that has launched nothing. *)
Definition idle_queries : list Choice :=
  [ Spawn (OpWait not_a_date_time); Spawn (OpWait five_seconds);
    Spawn OpHasRunningChildren;
    Exec 0 LLock; Exec 0 (LChildrenEmpty true); Exec 0 LUnlock;
    Exec 2 LLock; Exec 2 (LChildrenEmpty true); Exec 2 LUnlock;
    Exec 1 LLock; Exec 1 (LChildrenEmpty true); Exec 1 LUnlock ].

(** ** The steps of one thread among those of all *)
Lemma follows_app {A : Type} (p : prog A) (l1 l2 : list Label) :
  follows p (l1 ++ l2) = follows p l1 ≫= fun p' => follows p' l2.
Proof.
  revert p. induction l1 as [|l l1 IH]; intros p; simpl; [done|].
  destruct (after p l); simpl; [apply IH | done].
Qed.

Lemma thread_trace_app (t : Tid) (cs1 cs2 : list Choice) :
  thread_trace t (cs1 ++ cs2) = thread_trace t cs1 ++ thread_trace t cs2.
Proof.
  induction cs1 as [|c cs1 IH]; simpl; [done|].
  destruct c; try done. case_decide; simpl; by rewrite IH.
Qed.

Lemma run_app (cs1 cs2 : list Choice) (s : State) :
  run (cs1 ++ cs2) s = run cs1 s ≫= run cs2.
Proof.
  revert s. induction cs1 as [|c cs1 IH]; intros s; simpl; [done|].
  destruct (step s c); simpl; [apply IH | done].
Qed.

Lemma threads_effect_other (s : State) (t : Tid) (l : Label) (t' : Tid) (th : Thread) :
  threads s !! t' = Some th ->
  threads (effect s t l) !! t' = Some th
  \/ (l = LNotifyAll /\ threads (effect s t l) !! t' = Some (notified th)).
Proof.
  intros Hth. destruct l; simpl; auto.
  right. split; [done|]. by rewrite list_lookup_fmap, Hth.
Qed.

Lemma length_threads_effect (s : State) (t : Tid) (l : Label) :
  length (threads (effect s t l)) = length (threads s).
Proof. destruct l; simpl; try done. by rewrite length_fmap. Qed.

(** A step keeps every thread, and moves the code of a thread only by a
    step of that thread. *)
Lemma step_thread (s s' : State) (c : Choice) (t : Tid) (th : Thread) :
  step s c = Some s' ->
  threads s !! t = Some th ->
  exists th', threads s' !! t = Some th' /\ op th' = op th
    /\ follows (code th) (thread_trace t [c]) = Some (code th').
Proof.
  intros Hstep Hth. destruct c as [o|t0 l|t0|t0|t0]; simpl in *.
  - simplify_eq. exists th. simpl.
    rewrite lookup_app_l by (by eapply lookup_lt_Some). done.
  - destruct (threads s !! t0) as [th0|] eqn:Hth0; simpl in Hstep; [|done].
    destruct (after (code th0) l) as [p'|] eqn:Hafter; simpl in Hstep; [|done].
    destruct (enabled s t0 (status th0) l); [|done]. simplify_eq. simpl.
    case_decide as Ht; subst.
    + simplify_eq. exists (set_code th0 p'). split; [|simpl; by rewrite Hafter].
      apply list_lookup_insert_eq. rewrite length_threads_effect.
      by eapply lookup_lt_Some.
    + rewrite list_lookup_insert_ne by done.
      destruct (threads_effect_other s t0 l t th Hth) as [->|[_ ->]]; eauto.
      exists (notified th). unfold notified. destruct (status th); done.
  - destruct (threads s !! t0) as [th0|] eqn:Hth0; simpl in Hstep; [|done].
    case_match; [|done]. simplify_eq. simpl.
    destruct (decide (t0 = t)) as [->|].
    + simplify_eq. rewrite list_lookup_insert_eq by (by eapply lookup_lt_Some). eauto.
    + rewrite list_lookup_insert_ne by done. eauto.
  - destruct (threads s !! t0) as [th0|] eqn:Hth0; simpl in Hstep; [|done].
    case_match; [|done]. simplify_eq. simpl.
    destruct (decide (t0 = t)) as [->|].
    + simplify_eq. rewrite list_lookup_insert_eq by (by eapply lookup_lt_Some). eauto.
    + rewrite list_lookup_insert_ne by done. eauto.
  - destruct (threads s !! t0) as [th0|] eqn:Hth0; simpl in Hstep; [|done].
    case_match; [|done]. simplify_eq. simpl.
    destruct (decide (t0 = t)) as [->|].
    + simplify_eq. rewrite list_lookup_insert_eq by (by eapply lookup_lt_Some). eauto.
    + rewrite list_lookup_insert_ne by done. eauto.
Qed.

(** The steps of thread [t] in a run are a path through its code. *)
Lemma run_thread (cs : list Choice) (s s' : State) (t : Tid) (th : Thread) :
  run cs s = Some s' ->
  threads s !! t = Some th ->
  exists th', threads s' !! t = Some th' /\ op th' = op th
    /\ follows (code th) (thread_trace t cs) = Some (code th').
Proof.
  revert s th. induction cs as [|c cs IH]; intros s th Hrun Hth; simpl in Hrun.
  - simplify_eq. eauto.
  - destruct (step s c) as [s1|] eqn:Hstep; [|done].
    destruct (step_thread _ _ _ _ _ Hstep Hth) as (th1 & Hth1 & Hop1 & Hf1).
    destruct (IH _ _ Hrun Hth1) as (th' & Hth' & Hop' & Hf').
    exists th'. split; [done|]. split; [congruence|].
    change (c :: cs) with ([c] ++ cs).
    rewrite thread_trace_app, follows_app, Hf1. done.
Qed.

Lemma foreach_terminate_disciplined (xs : list Handle) :
  disciplined false
    (foreach xs (fun pChild =>
       error <- trigger (ETerminate pChild) ;;
       if isError error then trigger (ELogError error) else Ret tt) ;;
     Ret VVoid)%prog.
Proof.
  induction xs as [|x xs IH]; cbn; [done|].
  split; [done|]. intros e. destruct (isError e); cbn; auto.
Qed.

Lemma op_prog_disciplined (o : Op) : disciplined false (op_prog o).
Proof.
  destruct o as [exe args opts cbs|cmd opts cbs| | |maxWait|pChild exitCode f]; cbn.
  - split; [done|]. intros h. split; [done|]. intros e.
    destruct (isError e); cbn; auto.
  - split; [done|]. intros h. split; [done|]. intros e.
    destruct (isError e); cbn; auto.
  - split; [done|]. split; [done|]. intros b. cbn. auto.
  - split; [done|]. split; [done|]. intros c. split; [done|].
    apply foreach_terminate_disciplined.
  - split; [done|]. split; [done|]. intros b. destruct b; cbn; [auto|].
    destruct (is_not_a_date_time maxWait); cbn.
    + split; [done|]. split; [done|]. intros b. cbn. auto.
    + split; [done|]. intros b. destruct b; cbn; [|auto].
      split; [done|]. intros b. cbn. auto.
  - split; [done|]. intros c.
    destruct (exitFnIsSet f), c; cbn; repeat (split; [done|]);
      intros b; destruct b; cbn; auto.
Qed.

Lemma after_disciplined (held : bool) (p p' : prog Value) (l : Label) :
  disciplined held p ->
  after p l = Some p' ->
  disciplined (held_after held l) p'
  /\ (l = LLock -> held = false)
  /\ (l = LUnlock -> held = true)
  /\ (touches_children l = true -> held = true)
  /\ (is_wait_label l = true -> held = true)
  /\ (calls_out l = true -> held = false)
  /\ is_wait p = is_wait_label l.
Proof.
  intros Hd Ha. destruct p as [v|X e k]; [done|].
  destruct e; destruct l; cbn in Ha; try discriminate Ha;
    repeat case_decide; simplify_eq; cbn in *;
    repeat split; try done; try intros _; try tauto;
    try (destruct Hd as [? Hd]; done); try apply Hd;
    destruct Hd as [-> Hd]; apply Hd.
Qed.

Lemma residual_after (o : Op) (p p' : prog Value) (l : Label) :
  (exists tr, follows (op_prog o) tr = Some p) ->
  after p l = Some p' ->
  exists tr, follows (op_prog o) tr = Some p'.
Proof.
  intros [tr Htr] Ha. exists (tr ++ [l]).
  rewrite follows_app, Htr. simpl. by rewrite Ha.
Qed.

Lemma mutex_effect (s : State) (t : Tid) (st : Status) (l : Label) :
  enabled s t st l = true ->
  mutex_ (effect s t l) = (if held_after false l || is_wait_label l then Some t
                           else if held_after true l then mutex_ s else None)
  /\ (forall t', t' <> t -> mutex_ (effect s t l) = Some t' <-> mutex_ s = Some t').
Proof.
  intros He. destruct l; simpl in *; split; try done; intros t' Hne;
    repeat (apply andb_prop in He as [He ?]); repeat case_bool_decide;
    try done; split; intros; simplify_eq; congruence.
Qed.

Lemma thread_ok_other (s s' : State) (t : Tid) (th th' : Thread) :
  thread_ok s t th ->
  op th' = op th -> code th' = code th ->
  status th' = status th \/ (status th = Blocked /\ status th' = Woken true) ->
  (mutex_ s' = Some t <-> mutex_ s = Some t) ->
  thread_ok s' t th'.
Proof.
  intros [Hres Hst] Hop Hcode Hstatus Hm. split; [by rewrite Hop, Hcode|].
  rewrite Hcode.
  assert (bool_decide (mutex_ s' = Some t) = bool_decide (mutex_ s = Some t)) as Hb.
  { by apply bool_decide_ext. }
  destruct Hstatus as [->|[Hs ->]].
  - rewrite Hb. destruct (status th); [done|..]; split; tauto.
  - rewrite Hs in Hst. split; tauto.
Qed.

Lemma notified_other (th : Thread) :
  op (notified th) = op th /\ code (notified th) = code th
  /\ (status (notified th) = status th
      \/ (status th = Blocked /\ status (notified th) = Woken true)).
Proof. unfold notified. destruct (status th) eqn:Hs; simpl; auto. Qed.

(** Every step keeps the invariant. *)
Lemma inv_step (s s' : State) (c : Choice) :
  inv s -> step s c = Some s' -> inv s'.
Proof.
  intros [Hm Hth] Hstep. destruct c as [o|t l|t|t|t]; simpl in Hstep.
  - simplify_eq. split; simpl.
    + intros t Ht. rewrite length_app. simpl. specialize (Hm t Ht). lia.
    + intros t th Hl. apply lookup_app_Some in Hl as [Hl|[Hlen Hl]].
      * eapply thread_ok_other; [by apply Hth|done..|by left|done].
      * apply list_lookup_singleton_Some in Hl as [Hz <-].
        split; simpl; [by exists []|].
        rewrite bool_decide_eq_false_2; [apply op_prog_disciplined|].
        intros Hmt. specialize (Hm _ Hmt). lia.
  - destruct (threads s !! t) as [th0|] eqn:Hth0; simpl in Hstep; [|done].
    destruct (after (code th0) l) as [p'|] eqn:Hafter; simpl in Hstep; [|done].
    destruct (enabled s t (status th0) l) eqn:Hen; [|done]. simplify_eq.
    destruct (mutex_effect _ _ _ _ Hen) as [Hmt Hmo].
    pose proof (lookup_lt_Some _ _ _ Hth0) as Hlt.
    split; simpl.
    + intros t' Ht'. rewrite length_insert, length_threads_effect.
      destruct (decide (t' = t)) as [->|Hne]; [done|].
      apply Hm. by apply Hmo.
    + intros t' th' Hl. destruct (decide (t' = t)) as [->|Hne].
      * rewrite list_lookup_insert_eq in Hl by (by rewrite length_threads_effect).
        simplify_eq. destruct (Hth _ _ Hth0) as [Hres Hst].
        split; simpl; [by eapply residual_after|]. rewrite Hmt.
        destruct (status th0) eqn:Hs.
        -- destruct (after_disciplined _ _ _ _ Hst Hafter)
             as (Hd & Hlock & Hunlock & _ & Hw & _).
           destruct l; simpl in *; try done;
             repeat (apply andb_prop in Hen as [Hen ?]); repeat case_bool_decide;
             simplify_eq; try done.
        -- destruct l; simpl in Hen; repeat case_bool_decide; simplify_eq;
             try done; by rewrite ?andb_false_r in Hen.
        -- destruct Hst as (Hnm & Hiw & Hst).
           destruct (after_disciplined _ _ _ _ Hst Hafter) as (Hd & _).
           destruct l; simpl in *; try done;
             repeat (apply andb_prop in Hen as [Hen ?]); repeat case_bool_decide;
             simplify_eq; try done.
      * rewrite list_lookup_insert_ne in Hl by done.
        assert (exists th, threads s !! t' = Some th /\ (th' = th \/ th' = notified th))
          as (th & Hlth & Hcase).
        { destruct l; simpl in Hl; eauto.
          rewrite list_lookup_fmap in Hl.
          destruct (threads s !! t') as [th|]; simplify_eq/=; eauto. }
        destruct (notified_other th) as (Hop & Hcode & Hstat).
        destruct Hcase as [->| ->].
        -- eapply thread_ok_other; [by apply Hth|done..|by left|by apply Hmo].
        -- eapply thread_ok_other; [by apply Hth|done..|by apply Hmo].
  - destruct (threads s !! t) as [th0|] eqn:Hth0; simpl in Hstep; [|done].
    destruct (bool_decide (status th0 = Ready) && is_wait (code th0)
              && bool_decide (mutex_ s = Some t)) eqn:Hg; [|done].
    simplify_eq. apply andb_prop in Hg as [Hg Hmt]. apply andb_prop in Hg as [Hr Hw].
    apply bool_decide_eq_true in Hr, Hmt.
    pose proof (lookup_lt_Some _ _ _ Hth0) as Hlt.
    split; simpl; [done|]. intros t' th' Hl.
    destruct (decide (t' = t)) as [->|Hne].
    + rewrite list_lookup_insert_eq in Hl by done. simplify_eq.
      destruct (Hth _ _ Hth0) as [Hres Hst]. split; simpl; [done|].
      rewrite Hr in Hst. rewrite bool_decide_eq_true_2 in Hst by done. done.
    + rewrite list_lookup_insert_ne in Hl by done.
      eapply thread_ok_other; [by apply Hth|done..|by left|].
      simpl. rewrite Hmt. split; intros; simplify_eq.
  - destruct (threads s !! t) as [th0|] eqn:Hth0; simpl in Hstep; [|done].
    destruct (bool_decide (status th0 = Blocked)) eqn:Hb; [|done].
    apply bool_decide_eq_true in Hb. simplify_eq.
    pose proof (lookup_lt_Some _ _ _ Hth0) as Hlt.
    split; simpl; [intros ?; rewrite length_insert; apply Hm|].
    intros t' th' Hl.
    destruct (decide (t' = t)) as [->|Hne].
    + rewrite list_lookup_insert_eq in Hl by done. simplify_eq.
      eapply thread_ok_other; [by apply Hth|done..|by right|done].
    + rewrite list_lookup_insert_ne in Hl by done.
      eapply thread_ok_other; [by apply Hth|done..|by left|done].
  - destruct (threads s !! t) as [th0|] eqn:Hth0; simpl in Hstep; [|done].
    destruct (bool_decide (status th0 = Blocked) && is_timed_wait (code th0))
      eqn:Hg; [|done].
    simplify_eq. apply andb_prop in Hg as [Hb _]. apply bool_decide_eq_true in Hb.
    pose proof (lookup_lt_Some _ _ _ Hth0) as Hlt.
    split; simpl; [intros ?; rewrite length_insert; apply Hm|].
    intros t' th' Hl.
    destruct (decide (t' = t)) as [->|Hne].
    + rewrite list_lookup_insert_eq in Hl by done. simplify_eq.
      destruct (Hth _ _ Hth0) as [Hres Hst]. split; simpl; [done|].
      by rewrite Hb in Hst.
    + rewrite list_lookup_insert_ne in Hl by done.
      eapply thread_ok_other; [by apply Hth|done..|by left|done].
Qed.

Lemma inv_init : inv init.
Proof. split; [done|]. intros t th Hl. by destruct t. Qed.

Lemma inv_run (cs : list Choice) (s s' : State) :
  inv s -> run cs s = Some s' -> inv s'.
Proof.
  revert s. induction cs as [|c cs IH]; intros s Hinv Hrun; simpl in Hrun.
  - by simplify_eq.
  - destruct (step s c) as [s1|] eqn:Hstep; [|done].
    eapply IH; [|done]. by eapply inv_step.
Qed.

Lemma step_in_inv (s : State) (cs : list Choice) (s1 s2 : State) (c : Choice) :
  inv s -> step_in s cs s1 c s2 -> inv s1.
Proof. intros Hinv (pre & post & _ & Hpre & _). by eapply inv_run. Qed.

Lemma step_in_trace (s : State) (cs : list Choice) (s1 s2 : State) (t : Tid) (l : Label) :
  step_in s cs s1 (Exec t l) s2 ->
  exists tr1 tr2, thread_trace t cs = tr1 ++ l :: tr2.
Proof.
  intros (pre & post & -> & _ & _).
  exists (thread_trace t pre), (thread_trace t post).
  rewrite thread_trace_app. simpl. by rewrite decide_True.
Qed.

(** What a step of a thread needs and does. *)
Lemma exec_inv (s1 s2 : State) (t : Tid) (l : Label) :
  step s1 (Exec t l) = Some s2 ->
  exists th p', threads s1 !! t = Some th /\ after (code th) l = Some p'
    /\ enabled s1 t (status th) l = true
    /\ s2 = set_threads (effect s1 t l)
              (<[t := set_code th p']> (threads (effect s1 t l))).
Proof.
  simpl. intros Hstep.
  destruct (threads s1 !! t) as [th|]; simpl in Hstep; [|done].
  destruct (after (code th) l) as [p'|] eqn:Hafter; simpl in Hstep; [|done].
  destruct (enabled s1 t (status th) l) eqn:Hen; [|done].
  simplify_eq. by exists th, p'.
Qed.

Lemma exec_children (s1 s2 : State) (t : Tid) (l : Label) :
  step s1 (Exec t l) = Some s2 ->
  children_ s2 = match l with
                 | LChildrenInsert pChild => {[pChild]} ∪ children_ s1
                 | LChildrenErase child => children_ s1 ∖ {[child]}
                 | _ => children_ s1
                 end.
Proof.
  intros Hstep. apply exec_inv in Hstep as (th & p' & _ & _ & _ & ->).
  by destruct l.
Qed.

Lemma exec_empty (s1 s2 : State) (t : Tid) (empty : bool) :
  step s1 (Exec t (LChildrenEmpty empty)) = Some s2 ->
  empty = true <-> children_ s1 = ∅.
Proof.
  intros Hstep. apply exec_inv in Hstep as (th & p' & _ & _ & Hen & _).
  simpl in Hen. apply andb_prop in Hen as [_ Hen].
  apply bool_decide_eq_true in Hen. subst. apply bool_decide_eq_true.
Qed.

Lemma exec_copy (s1 s2 : State) (t : Tid) (copy : list Handle) :
  step s1 (Exec t (LChildrenCopy copy)) = Some s2 ->
  NoDup copy /\ list_to_set copy = children_ s1.
Proof.
  intros Hstep. apply exec_inv in Hstep as (th & p' & _ & _ & Hen & _).
  simpl in Hen. apply andb_prop in Hen as [_ Hen].
  apply andb_prop in Hen as [Hnd Hen].
  by apply bool_decide_eq_true in Hnd, Hen.
Qed.

Lemma exec_weak_lock (s1 s2 : State) (t : Tid) (pChild : weak_ptr)
    (child : option Handle) :
  step s1 (Exec t (LWeakLock pChild child)) = Some s2 ->
  child = Some pChild \/ (child = None /\ pChild ∉ children_ s1).
Proof.
  intros Hstep. apply exec_inv in Hstep as (th & p' & _ & _ & Hen & _).
  simpl in Hen. apply andb_prop in Hen as [_ Hen].
  apply orb_prop in Hen as [Hen|Hen].
  - left. by apply bool_decide_eq_true in Hen.
  - right. apply andb_prop in Hen as [H1 H2].
    apply bool_decide_eq_true in H1, H2. done.
Qed.

(** Under the discipline, a thread reads and writes [children_] only with
    [mutex_] held, and calls out only without it. *)
Lemma exec_lock_state (s1 s2 : State) (t : Tid) (l : Label) :
  inv s1 ->
  step s1 (Exec t l) = Some s2 ->
  (touches_children l = true -> mutex_ s1 = Some t)
  /\ (calls_out l = true -> mutex_ s1 <> Some t).
Proof.
  intros [_ Hth] Hstep.
  apply exec_inv in Hstep as (th & p' & Hl & Hafter & Hen & _).
  destruct (Hth _ _ Hl) as [_ Hst].
  assert (status th = Ready \/ is_wait_label l = true) as [Hr|Hw].
  { destruct l; simpl in *; auto; left;
      apply andb_prop in Hen as [Hen _]; by apply bool_decide_eq_true in Hen. }
  - rewrite Hr in Hst.
    destruct (after_disciplined _ _ _ _ Hst Hafter) as (_ & _ & _ & Ht & _ & Hc & _).
    split; intros Hx.
    + specialize (Ht Hx). by apply bool_decide_eq_true in Ht.
    + specialize (Hc Hx). by apply bool_decide_eq_false in Hc.
  - destruct l; done.
Qed.

(** Mutual exclusion: while thread [t] holds [mutex_], no choice other
    than an action of [t] changes [children_] or takes the mutex away. *)
Lemma step_other (s s' : State) (c : Choice) (t : Tid) :
  inv s ->
  mutex_ s = Some t ->
  acts_on c t = false ->
  step s c = Some s' ->
  children_ s' = children_ s /\ mutex_ s' = Some t.
Proof.
  intros Hinv Hm Hact Hstep. destruct c as [o|t0 l|t0|t0|t0]; simpl in Hact.
  - simpl in Hstep. by simplify_eq.
  - apply bool_decide_eq_false in Hact.
    pose proof Hstep as Hstep'.
    apply exec_inv in Hstep as (th & p' & Hl & Hafter & Hen & ->).
    destruct Hinv as [_ Hth]. destruct (Hth _ _ Hl) as [_ Hst].
    destruct (mutex_effect _ _ _ _ Hen) as [_ Hmo].
    split; [|by apply Hmo]. simpl.
    destruct (status th) eqn:Hs.
    + rewrite bool_decide_eq_false_2 in Hst by congruence.
      destruct (after_disciplined _ _ _ _ Hst Hafter) as (_ & _ & _ & Ht & _).
      destruct l; simpl in *; try done; by specialize (Ht eq_refl).
    + destruct l; simpl in Hen; repeat case_bool_decide; simplify_eq;
        try done; by rewrite ?andb_false_r in Hen.
    + destruct l; simpl in *; try done;
        apply andb_prop in Hen as [Hen _]; apply bool_decide_eq_true in Hen;
        congruence.
  - apply bool_decide_eq_false in Hact. simpl in Hstep.
    destruct (threads s !! t0) as [th|]; simpl in Hstep; [|done].
    destruct (bool_decide (status th = Ready) && is_wait (code th)
              && bool_decide (mutex_ s = Some t0)) eqn:Hg; [|done].
    apply andb_prop in Hg as [_ Hg]. apply bool_decide_eq_true in Hg. congruence.
  - simpl in Hstep. destruct (threads s !! t0) as [th|]; simpl in Hstep; [|done].
    destruct (bool_decide (status th = Blocked)); by simplify_eq.
  - simpl in Hstep. destruct (threads s !! t0) as [th|]; simpl in Hstep; [|done].
    destruct (bool_decide (status th = Blocked) && is_timed_wait (code th));
      by simplify_eq.
Qed.

(** ** Paths through the member functions *)

(** Case analysis on the steps [tr] that a fixed piece of code can do:
    [path_cases H], for [H : follows p tr = Some p'], leaves one goal for
    each path through [p] and each place to stop on it. *)
Ltac path_unstick H :=
  repeat first
    [ discriminate H
    | match type of H with
      | context [decide ?P] =>
          destruct (decide P) as [?|?]; [destruct_and?; simplify_eq|]; cbn in H
      | context [match ?x with _ => _ end] =>
          first [is_var x; destruct x | destruct x eqn:?]; cbn in H
      end ].

Ltac path_cases H :=
  path_unstick H;
  lazymatch type of H with
  | follows _ ?tr = Some _ =>
      let l := fresh "l" in
      destruct tr as [|l tr]; [cbn in H | destruct l; cbn in H; path_cases H]
  | _ => idtac
  end.

(** Goals about a position in a list that is known. *)
Ltac index_cases i H :=
  do 12 try first
    [ discriminate H
    | destruct i as [|i]; simpl in H; [try discriminate H|] ].

Ltac earlier_index :=
  first [ exists 0; split; [lia|reflexivity]
        | exists 1; split; [lia|reflexivity]
        | exists 2; split; [lia|reflexivity]
        | exists 3; split; [lia|reflexivity]
        | exists 4; split; [lia|reflexivity]
        | exists 5; split; [lia|reflexivity]
        | exists 6; split; [lia|reflexivity]
        | exists 7; split; [lia|reflexivity] ].

(** A thread whose steps do not write [children_] leaves it as it finds it
    at each of its steps. *)
Lemma thread_keeps_children (s : State) (cs : list Choice) (t : Tid) :
  (forall l, l ∈ thread_trace t cs -> writes_children l = false) ->
  forall l s1 s2, step_in s cs s1 (Exec t l) s2 -> children_ s2 = children_ s1.
Proof.
  intros Hw l s1 s2 Hin.
  destruct (step_in_trace _ _ _ _ _ _ Hin) as (tr1 & tr2 & Htr).
  assert (writes_children l = false) as Hl.
  { apply Hw. rewrite Htr. set_solver. }
  destruct Hin as (_ & _ & _ & _ & Hstep).
  rewrite (exec_children _ _ _ _ Hstep). by destruct l.
Qed.

(** ** The loop of [terminateAll] *)

Lemma terminate_steps_elem (hes : list (Handle * Error)) (l : Label) :
  l ∈ terminate_steps hes ->
  exists pChild error, (pChild, error) ∈ hes
    /\ (l = LTerminate pChild error \/ (l = LLogError error /\ isError error = true)).
Proof.
  induction hes as [|[h e] hes IH]; simpl; intros Hl.
  - by apply elem_of_nil in Hl.
  - apply elem_of_cons in Hl as [->|Hl].
    { exists h, e. split; [left|by left]. }
    apply elem_of_app in Hl as [Hl|Hl].
    + destruct (isError e) eqn:He; [|by apply elem_of_nil in Hl].
      apply list_elem_of_singleton in Hl as ->.
      exists h, e. split; [left|by right].
    + destruct (IH Hl) as (h' & e' & Hin & Hcase).
      exists h', e'. split; [by right|done].
Qed.

Lemma foreach_terminate_paths (xs : list Handle) (tr : list Label) (p' : prog Value) :
  follows
    (foreach xs (fun pChild =>
       error <- trigger (ETerminate pChild) ;;
       if isError error then trigger (ELogError error) else Ret tt) ;;
     Ret VVoid)%prog tr = Some p' ->
  exists errors, length errors = length xs
    /\ tr `prefix_of` terminate_steps (zip xs errors)
    /\ forall v, p' = Ret v -> tr = terminate_steps (zip xs errors) /\ v = VVoid.
Proof.
  revert tr. induction xs as [|x xs IH]; intros tr Hf.
  - exists []. destruct tr as [|l tr]; simpl in Hf; [|done].
    simplify_eq. split; [done|]. split; [done|]. by intros v [= <-].
  - destruct tr as [|l tr].
    { exists (replicate (S (length xs)) Success). cbn in Hf. simplify_eq.
      split; [by rewrite length_replicate|]. split; [apply prefix_nil|done]. }
    destruct l; cbn in Hf; try discriminate Hf.
    case_decide; [subst|done]. destruct (isError error) eqn:He; cbn in Hf.
    + destruct tr as [|l tr].
      { exists (error :: replicate (length xs) Success). cbn in Hf. simplify_eq.
        split; [simpl; by rewrite length_replicate|]. simpl.
        split; [apply prefix_cons, prefix_nil|done]. }
      destruct l; cbn in Hf; try discriminate Hf.
      case_decide; [subst|done].
      destruct (IH _ Hf) as (errors & Hlen & Hpre & Hret).
      exists (error :: errors). simpl. rewrite He. simpl.
      split; [by rewrite Hlen|].
      split; [by do 2 apply prefix_cons|].
      intros v Hv. destruct (Hret v Hv) as [-> ->]. done.
    + destruct (IH _ Hf) as (errors & Hlen & Hpre & Hret).
      exists (error :: errors). simpl. rewrite He. simpl.
      split; [by rewrite Hlen|].
      split; [by apply prefix_cons|].
      intros v Hv. destruct (Hret v Hv) as [-> ->]. done.
Qed.

(** The steps of a thread in [terminateAll] are the beginning of the steps
    of a whole call, and all of them once it has returned. *)
Lemma terminateAll_paths (tr : list Label) (p' : prog Value) :
  follows (op_prog OpTerminateAll) tr = Some p' ->
  exists copy errors, length errors = length copy
    /\ tr `prefix_of` terminateAll_steps copy errors
    /\ forall v, p' = Ret v -> tr = terminateAll_steps copy errors /\ v = VVoid.
Proof.
  intros Hf. unfold terminateAll_steps.
  destruct tr as [|l tr].
  { exists [], []. cbn in Hf. simplify_eq. split; [done|].
    split; [apply prefix_nil|done]. }
  destruct l; cbn in Hf; try discriminate Hf.
  destruct tr as [|l tr].
  { exists [], []. cbn in Hf. simplify_eq. split; [done|].
    split; [apply prefix_cons, prefix_nil|done]. }
  destruct l; cbn in Hf; try discriminate Hf.
  destruct tr as [|l tr].
  { exists copy, (replicate (length copy) Success).
    cbn in Hf. simplify_eq. split; [by rewrite length_replicate|].
    split; [do 2 apply prefix_cons; apply prefix_nil|done]. }
  destruct l; cbn in Hf; try discriminate Hf.
  destruct (foreach_terminate_paths _ _ _ Hf) as (errors & Hlen & Hpre & Hret).
  exists copy, errors. split; [done|].
  split; [by do 3 apply prefix_cons|].
  intros v Hv. destruct (Hret v Hv) as [-> ->]. done.
Qed.

Lemma terminateAll_steps_elem (copy : list Handle) (errors : list Error) (l : Label) :
  l ∈ terminateAll_steps copy errors ->
  l = LLock \/ l = LChildrenCopy copy \/ l = LUnlock
  \/ (exists pChild error, l = LTerminate pChild error)
  \/ (exists error, l = LLogError error).
Proof.
  unfold terminateAll_steps. intros Hl.
  repeat (apply elem_of_cons in Hl as [->|Hl]; [tauto|]). simpl in Hl.
  destruct (terminate_steps_elem _ _ Hl) as (h & e & _ & [->|[-> _]]); eauto 10.
Qed.

(** ** The paths of the reaping wrapper *)

Ltac solve_prefix :=
  repeat apply prefix_cons; first [apply prefix_nil | reflexivity].

Ltac wrap_shape child empty :=
  exists child, empty; unfold wrapExitCallback_steps;
  repeat match goal with
         | H : exitFnIsSet _ = _ |- _ => rewrite H
         end;
  simpl; split; [solve_prefix | first [done | by intros v [= <-]]].

(** The steps of a thread in the reaping wrapper are the beginning of the
    steps of a whole call, and all of them once it has returned. *)
Lemma wrapExitCallback_paths (pChild : weak_ptr) (exitCode : Z) (onExit : ExitFn)
    (tr : list Label) (p' : prog Value) :
  follows (op_prog (OpWrapExitCallback pChild exitCode onExit)) tr = Some p' ->
  exists child empty,
    tr `prefix_of` wrapExitCallback_steps pChild exitCode onExit child empty
    /\ forall v, p' = Ret v ->
         tr = wrapExitCallback_steps pChild exitCode onExit child empty /\ v = VVoid.
Proof.
  intros Hf. cbn in Hf. path_cases Hf; simplify_eq;
    first [ wrap_shape (@None nat) true
          | wrap_shape (@None nat) false
          | match goal with
            | |- context [LChildrenErase ?n] =>
                first [wrap_shape (Some n) true | wrap_shape (Some n) false]
            | |- context [LWeakLock _ (Some ?n)] =>
                first [wrap_shape (Some n) true | wrap_shape (Some n) false]
            end ].
Qed.

(** ** Order in the beginning of a run *)

Lemma happens_before_prefix (a b : Label) (tr full : list Label) :
  tr `prefix_of` full -> happens_before a b full -> happens_before a b tr.
Proof.
  intros [k ->] Hfull i Hi.
  destruct (Hfull i) as (j & Hj & Ha).
  { by apply lookup_app_l_Some. }
  exists j. split; [done|].
  rewrite lookup_app_l in Ha; [done|].
  apply lookup_lt_Some in Hi. lia.
Qed.

Lemma elem_of_prefix (l : Label) (tr full : list Label) :
  tr `prefix_of` full -> l ∈ tr -> l ∈ full.
Proof. intros [k ->] Hl. apply elem_of_app. by left. Qed.

Ltac elem_cases H :=
  repeat (apply elem_of_cons in H as [H|H]; [try discriminate H; simplify_eq|]);
  try (by apply elem_of_nil in H).

Ltac elem_solve := solve [repeat first [by left | right]].

(** ** What only the reaping wrapper does *)

(** No member function other than the reaping wrapper erases from
    [children_] or notifies [noChildrenSignal_]. *)
Lemma only_wrapper_erases_notifies (o : Op) (tr : list Label) (p' : prog Value) :
  follows (op_prog o) tr = Some p' ->
  is_wrapExitCallback o = false ->
  forall l, l ∈ tr -> l <> LNotifyAll /\ forall child, l <> LChildrenErase child.
Proof.
  intros Hf Ho l Hl.
  destruct o as [exe args opts cbs|cmd opts cbs| | |maxWait|pChild exitCode f];
    [| | | |
     |done].
  - cbn in Hf. path_cases Hf; simplify_eq; elem_cases Hl; done.
  - cbn in Hf. path_cases Hf; simplify_eq; elem_cases Hl; done.
  - cbn in Hf. path_cases Hf; simplify_eq; elem_cases Hl; done.
  - destruct (terminateAll_paths _ _ Hf) as (copy & errors & _ & Hpre & _).
    apply (elem_of_prefix _ _ _ Hpre) in Hl.
    apply terminateAll_steps_elem in Hl
      as [->|[->|[->|[(h & e & ->)|(e & ->)]]]]; done.
  - cbn in Hf. path_cases Hf; simplify_eq; elem_cases Hl; done.
Qed.

(** ** How [children_] changes in a run *)

Lemma step_in_cons (s s0 : State) (c0 : Choice) (cs : list Choice)
    (s1 s2 : State) (c : Choice) :
  step s c0 = Some s0 ->
  step_in s0 cs s1 c s2 -> step_in s (c0 :: cs) s1 c s2.
Proof.
  intros Hstep (pre & post & -> & Hpre & Hc).
  exists (c0 :: pre), post. simpl. by rewrite Hstep.
Qed.

Lemma step_in_head (s s0 : State) (c0 : Choice) (cs : list Choice) :
  step s c0 = Some s0 -> step_in s (c0 :: cs) s c0 s0.
Proof. intros Hstep. by exists [], cs. Qed.

Lemma step_children (s s' : State) (c : Choice) :
  step s c = Some s' ->
  children_ s' = children_ s
  \/ exists t l, c = Exec t l /\ writes_children l = true.
Proof.
  intros Hstep. destruct c as [o|t l|t|t|t].
  - simpl in Hstep. simplify_eq. by left.
  - rewrite (exec_children _ _ _ _ Hstep). destruct l; eauto.
  - simpl in Hstep. destruct (threads s !! t); simpl in Hstep; [|done].
    case_match; simplify_eq. by left.
  - simpl in Hstep. destruct (threads s !! t); simpl in Hstep; [|done].
    case_match; simplify_eq. by left.
  - simpl in Hstep. destruct (threads s !! t); simpl in Hstep; [|done].
    case_match; simplify_eq. by left.
Qed.

(** A handle leaves [children_] only by an erase. *)
Lemma run_children_erased (cs : list Choice) (s s' : State) (pChild : Handle) :
  run cs s = Some s' ->
  pChild ∈ children_ s ->
  pChild ∈ children_ s'
  \/ exists t s1 s2, step_in s cs s1 (Exec t (LChildrenErase pChild)) s2.
Proof.
  revert s. induction cs as [|c cs IH]; intros s Hrun Hin; simpl in Hrun.
  - simplify_eq. by left.
  - destruct (step s c) as [s0|] eqn:Hstep; [|done].
    destruct (decide (pChild ∈ children_ s0)) as [Hin0|Hout].
    + destruct (IH _ Hrun Hin0) as [?|(t & s1 & s2 & Hs)]; [by left|].
      right. exists t, s1, s2. by eapply step_in_cons.
    + right. destruct (step_children _ _ _ Hstep) as [Heq|(t & l & -> & Hw)].
      { by rewrite Heq in Hout. }
      rewrite (exec_children _ _ _ _ Hstep) in Hout.
      destruct l; try done.
      * destruct Hout. apply elem_of_union. by right.
      * destruct (decide (child = pChild)) as [->|Hne].
        { exists t, s, s0. by apply step_in_head. }
        destruct Hout. apply elem_of_difference. split; [done|].
        intros Heq%elem_of_singleton. by subst.
Qed.

(** [children_] does not change in a run in which no thread writes it. *)
Lemma run_children_frame (cs : list Choice) (s s' : State) :
  run cs s = Some s' ->
  (forall t l s1 s2, step_in s cs s1 (Exec t l) s2 -> children_ s2 = children_ s1) ->
  children_ s' = children_ s.
Proof.
  revert s. induction cs as [|c cs IH]; intros s Hrun Hframe; simpl in Hrun.
  - by simplify_eq.
  - destruct (step s c) as [s0|] eqn:Hstep; [|done].
    rewrite (IH _ Hrun).
    + destruct (step_children _ _ _ Hstep) as [?|(t & l & -> & _)]; [done|].
      eapply Hframe. by apply step_in_head.
    + intros t l s1 s2 Hin. eapply Hframe. by eapply step_in_cons.
Qed.

(** Only a thread in the reaping wrapper erases. *)
Lemma erase_by_wrapper (s1 s2 : State) (t : Tid) (child : Handle) :
  inv s1 ->
  step s1 (Exec t (LChildrenErase child)) = Some s2 ->
  exists th, threads s1 !! t = Some th /\ is_wrapExitCallback (op th) = true.
Proof.
  intros [_ Hth] Hstep.
  apply exec_inv in Hstep as (th & p' & Hl & Hafter & _ & _).
  exists th. split; [done|].
  destruct (Hth _ _ Hl) as [Hres _].
  destruct (residual_after _ _ _ _ Hres Hafter) as [tr' Htr'].
  destruct Hres as [tr Htr].
  destruct (is_wrapExitCallback (op th)) eqn:Ho; [done|].
  assert (follows (op_prog (op th)) (tr ++ [LChildrenErase child]) = Some p') as Hf.
  { rewrite follows_app, Htr. simpl. by rewrite Hafter. }
  destruct (only_wrapper_erases_notifies _ _ _ Hf Ho (LChildrenErase child))
    as [_ Hne]; [set_solver|].
  by destruct (Hne child).
Qed.

(** A step other than a notification leaves the other threads alone. *)
Lemma exec_other_threads (s1 s2 : State) (t t' : Tid) (l : Label) :
  step s1 (Exec t l) = Some s2 ->
  l <> LNotifyAll -> t' <> t ->
  threads s2 !! t' = threads s1 !! t'.
Proof.
  intros Hstep Hl Hne.
  apply exec_inv in Hstep as (th & p' & _ & _ & _ & ->).
  simpl. rewrite list_lookup_insert_ne by done. by destruct l.
Qed.

Lemma terminate_steps_all (xs : list Handle) (errors : list Error) (pChild : Handle) :
  length errors = length xs ->
  pChild ∈ xs ->
  exists error, LTerminate pChild error ∈ terminate_steps (zip xs errors).
Proof.
  revert errors. induction xs as [|x xs IH]; intros errors Hlen Hin.
  - by apply elem_of_nil in Hin.
  - destruct errors as [|e errors]; [done|]. simpl in *.
    apply elem_of_cons in Hin as [->|Hin].
    + exists e. by left.
    + destruct (IH errors) as [e' He']; [lia|done|].
      exists e'. right. apply elem_of_app. by right.
Qed.

Lemma terminate_steps_logged (hes : list (Handle * Error)) (pChild : Handle)
    (error : Error) :
  LTerminate pChild error ∈ terminate_steps hes ->
  (pChild, error) ∈ hes
  /\ (isError error = true -> LLogError error ∈ terminate_steps hes).
Proof.
  induction hes as [|[h e] hes IH]; simpl; intros Hin.
  - by apply elem_of_nil in Hin.
  - apply elem_of_cons in Hin as [Heq|Hin].
    + simplify_eq. split; [by left|]. intros He. rewrite He. right. by left.
    + apply elem_of_app in Hin as [Hin|Hin].
      { destruct (isError e); elem_cases Hin. }
      destruct (IH Hin) as [Hmem Hlog]. split; [by right|].
      intros He. right. apply elem_of_app. right. by apply Hlog.
Qed.

(** ** What a thread sees between its own steps *)

Lemma step_quiet_thread (s s' : State) (c : Choice) (t : Tid) (th : Thread) :
  step s c = Some s' ->
  acts_on c t = false ->
  threads s !! t = Some th -> status th = Ready ->
  threads s' !! t = Some th.
Proof.
  intros Hstep Hact Hth Hr. destruct c as [o|t0 l|t0|t0|t0]; simpl in Hact;
    try apply bool_decide_eq_false in Hact.
  - simpl in Hstep. simplify_eq. simpl.
    rewrite lookup_app_l by (by eapply lookup_lt_Some). done.
  - apply exec_inv in Hstep as (th0 & p' & _ & _ & _ & ->). simpl.
    rewrite list_lookup_insert_ne by done.
    destruct (threads_effect_other s t0 l t th Hth) as [->|[_ ->]]; [done|].
    unfold notified. by rewrite Hr.
  - simpl in Hstep. destruct (threads s !! t0); simpl in Hstep; [|done].
    case_match; simplify_eq. simpl. by rewrite list_lookup_insert_ne.
  - simpl in Hstep. destruct (threads s !! t0); simpl in Hstep; [|done].
    case_match; simplify_eq. simpl. by rewrite list_lookup_insert_ne.
  - simpl in Hstep. destruct (threads s !! t0); simpl in Hstep; [|done].
    case_match; simplify_eq. simpl. by rewrite list_lookup_insert_ne.
Qed.

(** While a ready thread does nothing it stays as it is, and if it holds
    [mutex_] it keeps it and [children_] stays as it is. *)
Lemma quiet_run (cs : list Choice) (s s' : State) (t : Tid) (th : Thread) :
  run cs s = Some s' ->
  quiet t cs ->
  threads s !! t = Some th -> status th = Ready ->
  threads s' !! t = Some th
  /\ (inv s -> mutex_ s = Some t ->
      children_ s' = children_ s /\ mutex_ s' = Some t).
Proof.
  revert s. induction cs as [|c cs IH]; intros s Hrun Hq Hth Hr; simpl in Hrun.
  - by simplify_eq.
  - destruct (step s c) as [s0|] eqn:Hstep; [|done].
    assert (acts_on c t = false) as Hc by (apply Hq; by left).
    assert (quiet t cs) as Hq' by (intros c' Hc'; apply Hq; by right).
    pose proof (step_quiet_thread _ _ _ _ _ Hstep Hc Hth Hr) as Hth0.
    destruct (IH _ Hrun Hq' Hth0 Hr) as [Hth' Hheld]. split; [done|].
    intros Hinv Hm.
    destruct (step_other _ _ _ _ Hinv Hm Hc Hstep) as [Hch0 Hm0].
    destruct Hheld as [Hch' Hm']; [by eapply inv_step|done|].
    split; [congruence|done].
Qed.

Lemma split_first_action (t : Tid) (cs : list Choice) :
  quiet t cs
  \/ exists pre c post, cs = pre ++ c :: post /\ quiet t pre /\ acts_on c t = true.
Proof.
  induction cs as [|c cs IH].
  - left. intros c Hc. by apply elem_of_nil in Hc.
  - destruct (acts_on c t) eqn:Hc.
    { right. exists [], c, cs. split; [done|]. split; [|done].
      intros c' Hc'. by apply elem_of_nil in Hc'. }
    destruct IH as [Hq|(pre & c' & post & -> & Hq & Hc')].
    + left. intros c' [->|Hin]%elem_of_cons; [done|by apply Hq].
    + right. exists (c :: pre), c', post. split; [done|]. split; [|done].
      intros c'' [->|Hin]%elem_of_cons; [done|by apply Hq].
Qed.

Lemma thread_trace_quiet (t : Tid) (cs : list Choice) :
  quiet t cs -> thread_trace t cs = [].
Proof.
  induction cs as [|c cs IH]; intros Hq; [done|].
  assert (acts_on c t = false) as Hc by (apply Hq; by left).
  assert (quiet t cs) as Hq' by (intros c' Hc'; apply Hq; by right).
  destruct c; simpl in *; try by apply IH.
  apply bool_decide_eq_false in Hc. rewrite decide_False by done. by apply IH.
Qed.

Lemma quiet_not_blocked (t : Tid) (cs : list Choice) :
  quiet t cs -> Block t ∉ cs.
Proof.
  intros Hq Hin. specialize (Hq _ Hin). simpl in Hq.
  by apply bool_decide_eq_false in Hq.
Qed.

(** The action of a ready thread that is not at a wait is a step of its
    code. *)
Lemma ready_action (s s' : State) (c : Choice) (t : Tid) (th : Thread) :
  step s c = Some s' ->
  acts_on c t = true ->
  threads s !! t = Some th -> status th = Ready ->
  is_wait (code th) = false ->
  exists l p', c = Exec t l /\ after (code th) l = Some p'
    /\ enabled s t Ready l = true
    /\ s' = set_threads (effect s t l)
              (<[t := set_code th p']> (threads (effect s t l))).
Proof.
  intros Hstep Hact Hth Hr Hw. destruct c as [o|t0 l|t0|t0|t0]; simpl in Hact;
    try done; apply bool_decide_eq_true in Hact; subst t0.
  - apply exec_inv in Hstep as (th0 & p' & Hth0 & Hafter & Hen & ->).
    simplify_eq. rewrite Hr in Hen. by exists l, p'.
  - simpl in Hstep. rewrite Hth in Hstep. simpl in Hstep.
    by rewrite Hw, andb_false_r in Hstep.
  - simpl in Hstep. rewrite Hth in Hstep. simpl in Hstep.
    rewrite Hr in Hstep. by rewrite bool_decide_eq_false_2 in Hstep.
  - simpl in Hstep. rewrite Hth in Hstep. simpl in Hstep.
    rewrite Hr in Hstep. by rewrite bool_decide_eq_false_2 in Hstep.
Qed.

(** ** The paths of [wait] *)

Ltac wait_shape entry signalled empty' :=
  exists entry, signalled, empty'; unfold wait_steps, wait_result;
  repeat match goal with
         | H : is_not_a_date_time _ = _ |- _ => rewrite H
         end;
  simpl; split; [solve_prefix | first [done | by intros v [= <-]]].

Ltac wait_shapes :=
  first [ wait_shape true true true
        | wait_shape false true true
        | wait_shape false true false
        | wait_shape false false true
        | wait_shape false false false ].

(** The steps of a thread in [wait] are the beginning of the steps of a
    whole call, and all of them once it has returned. *)
Lemma wait_paths (maxWait : time_duration) (tr : list Label) (p' : prog Value) :
  follows (op_prog (OpWait maxWait)) tr = Some p' ->
  exists entry signalled empty',
    tr `prefix_of` wait_steps maxWait entry signalled empty'
    /\ forall v, p' = Ret v ->
         tr = wait_steps maxWait entry signalled empty'
         /\ v = VBool (wait_result maxWait entry signalled empty').
Proof.
  intros Hf. cbn in Hf. path_cases Hf; simplify_eq;
    repeat match goal with b : bool |- _ => destruct b end; wait_shapes.
Qed.

(** ** Blocking *)

Lemma step_stays_ready (s s' : State) (c : Choice) (t : Tid) (th : Thread) :
  step s c = Some s' ->
  threads s !! t = Some th -> status th = Ready ->
  c <> Block t ->
  exists th', threads s' !! t = Some th' /\ status th' = Ready.
Proof.
  intros Hstep Hth Hr Hc.
  destruct (acts_on c t) eqn:Hact.
  - destruct c as [o|t0 l|t0|t0|t0]; simpl in Hact; try done;
      apply bool_decide_eq_true in Hact; subst t0; [|done|..].
    + apply exec_inv in Hstep as (th0 & p' & Hth0 & _ & _ & ->). simpl.
      exists (set_code th0 p'). split; [|done].
      apply list_lookup_insert_eq. rewrite length_threads_effect.
      by eapply lookup_lt_Some.
    + simpl in Hstep. rewrite Hth in Hstep. simpl in Hstep.
      rewrite Hr in Hstep. by rewrite bool_decide_eq_false_2 in Hstep.
    + simpl in Hstep. rewrite Hth in Hstep. simpl in Hstep.
      rewrite Hr in Hstep. by rewrite bool_decide_eq_false_2 in Hstep.
  - exists th. split; [|done]. by eapply step_quiet_thread.
Qed.

(** A thread that was ready stays ready as long as it does not block. *)
Lemma ready_until_block (cs : list Choice) (s s' : State) (t : Tid) (th : Thread) :
  run cs s = Some s' ->
  threads s !! t = Some th -> status th = Ready ->
  Block t ∉ cs ->
  exists th', threads s' !! t = Some th' /\ status th' = Ready.
Proof.
  revert s th. induction cs as [|c cs IH]; intros s th Hrun Hth Hr Hnb;
    simpl in Hrun.
  - simplify_eq. eauto.
  - destruct (step s c) as [s0|] eqn:Hstep; [|done].
    destruct (step_stays_ready _ _ _ _ _ Hstep Hth Hr) as (th0 & Hth0 & Hr0).
    { intros ->. apply Hnb. by left. }
    eapply IH; [done..|]. intros Hin. apply Hnb. by right.
Qed.

(** Each step in the steps of a thread is a step of the run. *)
Lemma trace_step_in (cs : list Choice) (s s' : State) (t : Tid) (l : Label) :
  run cs s = Some s' ->
  l ∈ thread_trace t cs ->
  exists s1 s2, step_in s cs s1 (Exec t l) s2.
Proof.
  revert s. induction cs as [|c cs IH]; intros s Hrun Hl; simpl in Hrun.
  - by apply elem_of_nil in Hl.
  - destruct (step s c) as [s0|] eqn:Hstep; [|done].
    assert (c = Exec t l \/ l ∈ thread_trace t cs) as [->|Hl'].
    { destruct c as [o|t0 l0|t0|t0|t0]; simpl in Hl; auto.
      case_decide; [subst|by auto].
      apply elem_of_cons in Hl as [->|Hl]; auto. }
    + exists s, s0. by apply step_in_head.
    + destruct (IH _ Hrun Hl') as (s1 & s2 & Hin).
      exists s1, s2. by eapply step_in_cons.
Qed.

(** A thread that resumes from a wait has blocked before. *)
Lemma resumed_has_blocked (cs : list Choice) (s s' : State) (t : Tid)
    (th : Thread) (l : Label) :
  run cs s = Some s' ->
  threads s !! t = Some th -> status th = Ready ->
  l ∈ thread_trace t cs -> is_wait_label l = true ->
  Block t ∈ cs.
Proof.
  intros Hrun Hth Hr Hl Hw.
  destruct (trace_step_in _ _ _ _ _ Hrun Hl) as (s1 & s2 & pre & post & -> & Hpre & Hstep).
  destruct (decide (Block t ∈ pre)) as [Hin|Hout].
  { apply elem_of_app. by left. }
  destruct (ready_until_block _ _ _ _ _ Hpre Hth Hr Hout) as (th1 & Hth1 & Hr1).
  apply exec_inv in Hstep as (th1' & p' & Hth1' & _ & Hen & _).
  simplify_eq. rewrite Hr1 in Hen.
  destruct l; try done; simpl in Hen;
    apply andb_prop in Hen as [_ Hen];
    first [discriminate Hen | by apply bool_decide_eq_true in Hen].
Qed.

(** A thread blocks only at a wait. *)
Lemma block_at_wait (cs : list Choice) (s : State) (t : Tid) (th : Thread)
    (s1 s2 : State) :
  threads s !! t = Some th ->
  step_in s cs s1 (Block t) s2 ->
  exists tr1 p, tr1 `prefix_of` thread_trace t cs
    /\ follows (code th) tr1 = Some p /\ is_wait p = true.
Proof.
  intros Hth (pre & post & -> & Hpre & Hstep).
  destruct (run_thread _ _ _ _ _ Hpre Hth) as (th1 & Hth1 & _ & Hf).
  exists (thread_trace t pre), (code th1). split.
  { rewrite thread_trace_app. by apply prefix_app_r. }
  split; [done|]. simpl in Hstep. rewrite Hth1 in Hstep. simpl in Hstep.
  destruct (is_wait (code th1)); [done|]. by rewrite andb_false_r in Hstep.
Qed.

Lemma elem_of_step_in (cs : list Choice) (s s' : State) (c : Choice) :
  run cs s = Some s' -> c ∈ cs -> exists s1 s2, step_in s cs s1 c s2.
Proof.
  intros Hrun Hin. apply list_elem_of_split in Hin as (pre & post & ->).
  rewrite run_app in Hrun.
  destruct (run pre s) as [s1|] eqn:Hpre; simpl in Hrun; [|done].
  destruct (step s1 c) as [s2|] eqn:Hstep; [|done].
  exists s1, s2, pre, post. done.
Qed.

Lemma exec_enabled (s : State) (t : Tid) (th : Thread) (l : Label) (p' : prog Value) :
  threads s !! t = Some th ->
  after (code th) l = Some p' ->
  enabled s t (status th) l = true ->
  exists s', step s (Exec t l) = Some s'.
Proof.
  intros Hth Ha He. simpl. rewrite Hth. simpl. rewrite Ha. simpl.
  rewrite He. eauto.
Qed.

Lemma run_split (pre post : list Choice) (c : Choice) (s s' : State) :
  run (pre ++ c :: post) s = Some s' ->
  exists s1 s2, run pre s = Some s1 /\ step s1 c = Some s2 /\ run post s2 = Some s'.
Proof.
  rewrite run_app. intros Hrun.
  destruct (run pre s) as [s1|]; simpl in Hrun; [|done].
  destruct (step s1 c) as [s2|] eqn:Hstep; [|done]. eauto.
Qed.

(** ** The first check of [wait] *)

(** The first check of [children_] in [wait] sees the collection as it was
    when the call took the lock. *)
Lemma wait_entry_check (cs : list Choice) (s s' : State) (t : Tid)
    (maxWait : time_duration) (s1 s2 : State) (entry : bool) :
  inv s ->
  threads s !! t = Some (spawned (OpWait maxWait)) ->
  run cs s = Some s' ->
  step_in s cs s1 (Exec t LLock) s2 ->
  thread_trace t cs !! 1 = Some (LChildrenEmpty entry) ->
  entry = bool_decide (children_ s1 = ∅).
Proof.
  intros Hinv Hth Hrun (pre & post & -> & Hpre & Hstep) Htr.
  apply run_split in Hrun as (s1' & s2' & Hpre' & Hstep' & Hrun).
  assert (s1' = s1) by congruence. subst s1'.
  assert (s2' = s2) by congruence. subst s2'. clear Hpre' Hstep'.
  assert (inv s1) as Hinv1 by (by eapply inv_run).
  assert (inv s2) as Hinv2 by (by eapply inv_step).
  destruct (run_thread _ _ _ _ _ Hpre Hth) as (th1 & Hth1 & _ & Hf1).
  pose proof (exec_children _ _ _ _ Hstep) as Hch2. simpl in Hch2.
  pose proof Hstep as Hstep0.
  apply exec_inv in Hstep0 as (th1' & c2 & Hth1' & Hafter & Hen & Hs2).
  simplify_eq.
  assert (thread_trace t pre = [] /\ is_wait c2 = false
          /\ forall l p', after c2 l = Some p' -> exists b, l = LChildrenEmpty b)
    as (Hnil & Hnw & Hnext).
  { simpl in Hf1. revert Hf1 Hafter.
    generalize (thread_trace t pre) (code th1). intros tr1 c1 Hf1 Hafter.
    cbn in Hf1. path_cases Hf1; simplify_eq; cbn in Hafter;
      try discriminate Hafter; simplify_eq;
      (split; [done|]; split; [done|]; intros l p' Ha;
       destruct l; cbn in Ha; try discriminate Ha; eauto). }
  rewrite thread_trace_app, Hnil in Htr. simpl in Htr.
  rewrite decide_True in Htr by done. simpl in Htr.
  set (s2 := set_threads (effect s1 t LLock) _) in *.
  assert (threads s2 !! t = Some (set_code th1 c2)) as Hth2.
  { unfold s2. simpl. apply list_lookup_insert_eq. by eapply lookup_lt_Some. }
  destruct (split_first_action t post) as [Hq|(q & c & post1 & -> & Hq & Hc)].
  { by rewrite (thread_trace_quiet _ _ Hq) in Htr. }
  apply run_split in Hrun as (s3 & s4 & Hq3 & Hstep4 & Hrun).
  destruct (quiet_run _ _ _ _ _ Hq3 Hq Hth2 eq_refl) as [Hth3 Hheld].
  destruct (Hheld Hinv2 eq_refl) as [Hch3 Hm3].
  destruct (ready_action _ _ _ _ _ Hstep4 Hc Hth3 eq_refl Hnw)
    as (l & p' & -> & Hafter4 & Hen4 & _).
  rewrite thread_trace_app, (thread_trace_quiet _ _ Hq) in Htr. simpl in Htr.
  rewrite decide_True in Htr by done. simpl in Htr.
  destruct (Hnext _ _ Hafter4) as [b ->]. simplify_eq.
  simpl in Hen4. apply bool_decide_eq_true in Hen4.
  rewrite Hen4, Hch3. done.
Qed.

(** Case analysis on the beginning of a list that is known. *)
Ltac prefix_cases H :=
  repeat match type of H with
         | ?tr `prefix_of` [] => apply prefix_nil_inv in H; subst tr
         | ?tr `prefix_of` (_ :: _) =>
             is_var tr;
             let l := fresh "l" in
             destruct tr as [|l tr];
             [|let Heq := fresh "Heq" in
               pose proof (prefix_cons_inv_1 _ _ _ _ H) as Heq;
               apply prefix_cons_inv_2 in H; subst l]
         end.

Lemma returned_code (s : State) (t : Tid) (th : Thread) (v : Value) :
  threads s !! t = Some th ->
  returned s t = Some v <-> code th = Ret v.
Proof.
  intros Hth. unfold returned. rewrite Hth. destruct th as [o c st]. simpl.
  destruct c; split; intros; simplify_eq; done.
Qed.

(** ** From one step of a thread to its next *)

(** The next step of a ready thread that is not at a wait: nothing that
    happens before it changes the thread and, if the thread holds
    [mutex_], nothing changes [children_] or takes the mutex. *)
Lemma next_step_after (cs : list Choice) (s s' : State) (t : Tid) (th : Thread)
    (l : Label) (tr : list Label) :
  run cs s = Some s' ->
  threads s !! t = Some th -> status th = Ready -> is_wait (code th) = false ->
  thread_trace t cs = l :: tr ->
  exists q post s1 s2 p',
    cs = q ++ Exec t l :: post /\ quiet t q
    /\ run q s = Some s1 /\ step s1 (Exec t l) = Some s2 /\ run post s2 = Some s'
    /\ thread_trace t post = tr
    /\ threads s1 !! t = Some th
    /\ after (code th) l = Some p'
    /\ enabled s1 t Ready l = true
    /\ threads s2 !! t = Some (set_code th p')
    /\ (inv s -> mutex_ s = Some t ->
        children_ s1 = children_ s /\ mutex_ s1 = Some t).
Proof.
  intros Hrun Hth Hr Hw Htr.
  destruct (split_first_action t cs) as [Hq|(q & c & post & -> & Hq & Hc)].
  { by rewrite (thread_trace_quiet _ _ Hq) in Htr. }
  apply run_split in Hrun as (s1 & s2 & Hq1 & Hstep & Hpost).
  destruct (quiet_run _ _ _ _ _ Hq1 Hq Hth Hr) as [Hth1 Hheld].
  destruct (ready_action _ _ _ _ _ Hstep Hc Hth1 Hr Hw)
    as (l' & p' & -> & Hafter & Hen & Hs2).
  rewrite thread_trace_app, (thread_trace_quiet _ _ Hq) in Htr. simpl in Htr.
  rewrite decide_True in Htr by done. simplify_eq.
  eexists q, post, s1, _, p'. repeat (split; [done|]). split; [|done].
  simpl. apply list_lookup_insert_eq. rewrite length_threads_effect.
  by eapply lookup_lt_Some.
Qed.

(** ** How a waiting thread wakes *)

Lemma step_woken (s s' : State) (c : Choice) (t : Tid) (th : Thread) (b : bool) :
  step s c = Some s' ->
  threads s !! t = Some th -> status th = Woken b ->
  (threads s' !! t = Some th /\ thread_trace t [c] = [])
  \/ (exists l, c = Exec t l /\ enabled s t (Woken b) l = true).
Proof.
  intros Hstep Hth Hw. destruct c as [o|t0 l|t0|t0|t0].
  - left. simpl in Hstep. simplify_eq. simpl.
    rewrite lookup_app_l by (by eapply lookup_lt_Some). done.
  - destruct (decide (t0 = t)) as [->|Hne].
    + right. exists l. split; [done|].
      apply exec_inv in Hstep as (th0 & p' & Hth0 & _ & Hen & _).
      simplify_eq. by rewrite Hw in Hen.
    + left. simpl. rewrite decide_False by done. split; [|done].
      apply exec_inv in Hstep as (th0 & p' & _ & _ & _ & ->). simpl.
      rewrite list_lookup_insert_ne by done.
      destruct (threads_effect_other s t0 l t th Hth) as [->|[_ ->]]; [done|].
      unfold notified. by rewrite Hw.
  - left. split; [|done]. simpl in Hstep.
    destruct (threads s !! t0) as [th0|] eqn:Hth0; simpl in Hstep; [|done].
    case_match eqn:Hg; simplify_eq. simpl.
    destruct (decide (t0 = t)) as [->|Hne]; [|by rewrite list_lookup_insert_ne].
    simplify_eq. rewrite Hw in Hg. by rewrite bool_decide_eq_false_2 in Hg.
  - left. split; [|done]. simpl in Hstep.
    destruct (threads s !! t0) as [th0|] eqn:Hth0; simpl in Hstep; [|done].
    case_match eqn:Hg; simplify_eq. simpl.
    destruct (decide (t0 = t)) as [->|Hne]; [|by rewrite list_lookup_insert_ne].
    simplify_eq. rewrite Hw in Hg. by rewrite bool_decide_eq_false_2 in Hg.
  - left. split; [|done]. simpl in Hstep.
    destruct (threads s !! t0) as [th0|] eqn:Hth0; simpl in Hstep; [|done].
    case_match eqn:Hg; simplify_eq. simpl.
    destruct (decide (t0 = t)) as [->|Hne]; [|by rewrite list_lookup_insert_ne].
    simplify_eq. rewrite Hw in Hg. by rewrite bool_decide_eq_false_2 in Hg.
Qed.

(** A woken thread stays as it is until it resumes, and it resumes with
    what woke it. *)
Lemma woken_resumes (cs : list Choice) (s s' : State) (t : Tid) (th : Thread)
    (b : bool) :
  run cs s = Some s' ->
  threads s !! t = Some th -> status th = Woken b ->
  (threads s' !! t = Some th /\ thread_trace t cs = [])
  \/ (exists l tr, thread_trace t cs = l :: tr
        /\ (l = LCondWait /\ b = true \/ exists d, l = LCondTimedWait d b)).
Proof.
  revert s. induction cs as [|c cs IH]; intros s Hrun Hth Hw; simpl in Hrun.
  - left. by simplify_eq.
  - destruct (step s c) as [s0|] eqn:Hstep; [|done].
    destruct (step_woken _ _ _ _ _ _ Hstep Hth Hw) as [[Hth0 Hnil]|(l & -> & Hen)].
    + change (c :: cs) with ([c] ++ cs). rewrite thread_trace_app, Hnil. simpl.
      by apply (IH s0).
    + right. exists l, (thread_trace t cs). simpl. rewrite decide_True by done.
      split; [done|]. destruct l; simpl in Hen; try done;
        apply andb_prop in Hen as [_ Hen]; apply bool_decide_eq_true in Hen;
        simplify_eq; eauto.
Qed.

Lemma step_woken_by_timeout (s s' : State) (c : Choice) (t : Tid) (th th' : Thread) :
  step s c = Some s' ->
  threads s !! t = Some th -> threads s' !! t = Some th' ->
  status th' = Woken false ->
  status th = Woken false \/ c = Timeout t.
Proof.
  intros Hstep Hth Hth' Hw. destruct c as [o|t0 l|t0|t0|t0].
  - simpl in Hstep. simplify_eq. simpl in Hth'.
    rewrite lookup_app_l in Hth' by (by eapply lookup_lt_Some).
    left. congruence.
  - apply exec_inv in Hstep as (th0 & p' & Hth0 & _ & _ & ->). simpl in Hth'.
    destruct (decide (t0 = t)) as [->|Hne].
    + rewrite list_lookup_insert_eq in Hth'
        by (rewrite length_threads_effect; by eapply lookup_lt_Some).
      by simplify_eq.
    + rewrite list_lookup_insert_ne in Hth' by done.
      destruct (threads_effect_other s t0 l t th Hth) as [Heq|[_ Heq]];
        rewrite Heq in Hth'; simplify_eq; [by left|].
      unfold notified in Hw. destruct (status th) eqn:Hst; simpl in Hw;
        rewrite ?Hst in Hw; simplify_eq; by left.
  - simpl in Hstep.
    destruct (threads s !! t0) as [th0|] eqn:Hth0; simpl in Hstep; [|done].
    case_match; simplify_eq. simpl in Hth'.
    destruct (decide (t0 = t)) as [->|Hne].
    + rewrite list_lookup_insert_eq in Hth' by (by eapply lookup_lt_Some).
      by simplify_eq.
    + rewrite list_lookup_insert_ne in Hth' by done. left. congruence.
  - simpl in Hstep.
    destruct (threads s !! t0) as [th0|] eqn:Hth0; simpl in Hstep; [|done].
    case_match; simplify_eq. simpl in Hth'.
    destruct (decide (t0 = t)) as [->|Hne].
    + rewrite list_lookup_insert_eq in Hth' by (by eapply lookup_lt_Some).
      by simplify_eq.
    + rewrite list_lookup_insert_ne in Hth' by done. left. congruence.
  - destruct (decide (t0 = t)) as [->|Hne]; [by right|]. simpl in Hstep.
    destruct (threads s !! t0) as [th0|] eqn:Hth0; simpl in Hstep; [|done].
    case_match; simplify_eq. simpl in Hth'.
    rewrite list_lookup_insert_ne in Hth' by done. left. congruence.
Qed.

(** A thread resumes from a timed wait with [false] only after its
    duration has elapsed. *)
Lemma woken_false_timed_out (cs : list Choice) (s s' : State) (t : Tid)
    (th th' : Thread) :
  run cs s = Some s' ->
  threads s !! t = Some th -> threads s' !! t = Some th' ->
  status th <> Woken false -> status th' = Woken false ->
  Timeout t ∈ cs.
Proof.
  revert s th. induction cs as [|c cs IH]; intros s th Hrun Hth Hth' Hn Hw;
    simpl in Hrun.
  - by simplify_eq.
  - destruct (step s c) as [s0|] eqn:Hstep; [|done].
    destruct (step_thread _ _ _ _ _ Hstep Hth) as (th0 & Hth0 & _).
    destruct (decide (status th0 = Woken false)) as [Hw0|Hn0].
    + destruct (step_woken_by_timeout _ _ _ _ _ _ Hstep Hth Hth0 Hw0) as [?|Hc];
        [done|subst c; by left].
    + right. by eapply IH.
Qed.

Lemma timeout_inv (s1 s2 : State) (t : Tid) :
  step s1 (Timeout t) = Some s2 ->
  exists th1, threads s1 !! t = Some th1 /\ status th1 = Blocked
    /\ is_timed_wait (code th1) = true
    /\ threads s2 !! t = Some (set_status th1 (Woken false)).
Proof.
  simpl. intros Hstep.
  destruct (threads s1 !! t) as [th1|] eqn:Hth1; simpl in Hstep; [|done].
  destruct (bool_decide (status th1 = Blocked)) eqn:Hb; simpl in Hstep; [|done].
  destruct (is_timed_wait (code th1)) eqn:Hw; [|done]. simplify_eq.
  apply bool_decide_eq_true in Hb. exists th1. repeat (split; [done|]).
  simpl. apply list_lookup_insert_eq. by eapply lookup_lt_Some.
Qed.

(** The check of [children_] is made with [mutex_] held and tells whether
    the collection is empty. *)
Lemma check_under_lock (cs : list Choice) (s : State) (t : Tid) (empty : bool)
    (s1 s2 : State) :
  inv s ->
  step_in s cs s1 (Exec t (LChildrenEmpty empty)) s2 ->
  mutex_ s1 = Some t /\ (empty = true <-> children_ s1 = ∅).
Proof.
  intros Hinv Hin. pose proof (step_in_inv _ _ _ _ _ Hinv Hin) as Hinv1.
  destruct Hin as (_ & _ & _ & _ & Hstep).
  destruct (exec_lock_state _ _ _ _ Hinv1 Hstep) as [Hunder _].
  split; [by apply Hunder|by eapply exec_empty].
Qed.

Lemma run_join (pre q : list Choice) (c : Choice) (s s1 s2 s3 : State) :
  run pre s = Some s1 -> step s1 c = Some s2 -> run q s2 = Some s3 ->
  run (pre ++ c :: q) s = Some s3.
Proof.
  intros Hpre Hstep Hq. rewrite run_app, Hpre.
  change (run (c :: q) s1 = Some s3). simpl. by rewrite Hstep.
Qed.

Lemma exec_next_child (s1 s2 : State) (t : Tid) (l : Label) :
  step s1 (Exec t l) = Some s2 ->
  calls_out l = false ->
  next_child s2 = next_child s1.
Proof.
  intros Hstep Hl. apply exec_inv in Hstep as (th & p' & _ & _ & _ & ->).
  by destruct l.
Qed.

Lemma terminate_steps_handles (xs : list Handle) (errors : list Error) :
  length errors = length xs ->
  omap terminated (terminate_steps (zip xs errors)) = xs.
Proof.
  revert errors. induction xs as [|x xs IH]; intros errors Hlen; [done|].
  destruct errors as [|e errors]; [done|]. simpl.
  f_equal. destruct (isError e); simpl; apply IH; simpl in Hlen; lia.
Qed.

(** ** The paths of a launch *)

Ltac launch_shape h e :=
  exists h, e; unfold launch_steps;
  repeat match goal with
         | H : isError _ = _ |- _ => rewrite H
         end;
  simpl; split; [solve_prefix | first [done | by intros v [= <-]]].

Lemma launch_paths (o : Op) (spec : ChildSpec) (callbacks : ProcessCallbacks)
    (tr : list Label) (p' : prog Value) :
  launch_spec o = Some spec ->
  launch_callbacks o = Some callbacks ->
  follows (op_prog o) tr = Some p' ->
  exists pChild error,
    tr `prefix_of` launch_steps spec callbacks pChild error
    /\ forall v, p' = Ret v ->
         tr = launch_steps spec callbacks pChild error /\ v = VError error.
Proof.
  intros Hs Hc Hf.
  destruct o; simplify_eq/=; cbn in Hf; path_cases Hf; simplify_eq;
    first [ launch_shape 0 Success
          | match goal with
            | He : isError ?e = false |- context [LRun ?h _ ?e] =>
                destruct e; [|done]; launch_shape h Success
            | |- context [LRun ?h _ ?e] => launch_shape h e
            | |- context [LNewChild _ ?h] => launch_shape h Success
            end ].
Qed.

(** ** Inside a critical section *)

(** After a step that leaves a ready thread with [mutex_], the next step
    of that thread finds [children_] as the first one left it. *)
Lemma critical_section_next (pre post : list Choice) (s s1 s2 s' : State)
    (t : Tid) (th2 : Thread) (l l' : Label) (tr' : list Label) :
  inv s ->
  run pre s = Some s1 -> step s1 (Exec t l) = Some s2 -> run post s2 = Some s' ->
  threads s2 !! t = Some th2 -> status th2 = Ready -> is_wait (code th2) = false ->
  mutex_ s2 = Some t ->
  thread_trace t post = l' :: tr' ->
  exists s3 s4,
    step_in s (pre ++ Exec t l :: post) s3 (Exec t l') s4
    /\ children_ s3 = children_ s2 /\ mutex_ s3 = Some t
    /\ enabled s3 t Ready l' = true.
Proof.
  intros Hinv Hpre Hstep Hpost Hth2 Hr Hw Hm Htr.
  assert (inv s2) as Hinv2.
  { eapply inv_step; [|done]. by eapply inv_run. }
  destruct (next_step_after _ _ _ _ _ _ _ Hpost Hth2 Hr Hw Htr)
    as (q & post' & s3 & s4 & p4 & -> & Hq & Hq3 & Hstep3 & _ & _ & _ & _ & Hen
        & _ & Hheld).
  destruct (Hheld Hinv2 Hm) as [Hch3 Hm3].
  exists s3, s4. split; [|done].
  exists (pre ++ Exec t l :: q), post'.
  split; [by rewrite <- app_assoc|]. split; [|done].
  by eapply run_join.
Qed.

Lemma after_not_wait (p p' : prog Value) (l : Label) :
  after p l = Some p' -> is_wait_label l = false -> is_wait p = false.
Proof.
  intros Ha Hl. destruct p as [v|X e k]; [done|].
  destruct e; try done; destruct l; simpl in *; done.
Qed.

Lemma exec_mutex (s1 s2 : State) (t : Tid) (l : Label) :
  step s1 (Exec t l) = Some s2 ->
  mutex_ s2 = match l with
              | LLock | LCondWait | LCondTimedWait _ _ => Some t
              | LUnlock => None
              | _ => mutex_ s1
              end.
Proof.
  intros Hstep. apply exec_inv in Hstep as (th & p' & _ & _ & _ & ->).
  by destruct l.
Qed.

(** After a step that leaves a thread with [mutex_], the next step of
    that thread, if it is not the end of a wait, finds [children_] as the
    first one left it. *)
Lemma critical_section_step (pre post : list Choice) (s s1 s2 s' : State)
    (t : Tid) (l l' : Label) (tr' : list Label) :
  inv s ->
  run pre s = Some s1 -> step s1 (Exec t l) = Some s2 -> run post s2 = Some s' ->
  mutex_ s2 = Some t ->
  thread_trace t post = l' :: tr' -> is_wait_label l' = false ->
  exists s3 s4,
    step_in s (pre ++ Exec t l :: post) s3 (Exec t l') s4
    /\ children_ s3 = children_ s2 /\ mutex_ s3 = Some t
    /\ enabled s3 t Ready l' = true.
Proof.
  intros Hinv Hpre Hstep Hpost Hm Htr Hl'.
  pose proof Hstep as Hstep0.
  apply exec_inv in Hstep0 as (th1 & p' & Hth1 & _ & _ & Hs2).
  assert (threads s2 !! t = Some (set_code th1 p')) as Hth2.
  { subst s2. simpl. apply list_lookup_insert_eq.
    rewrite length_threads_effect. by eapply lookup_lt_Some. }
  destruct (run_thread _ _ _ _ _ Hpost Hth2) as (th' & _ & _ & Hf).
  rewrite Htr in Hf. simpl in Hf.
  destruct (after p' l') as [p''|] eqn:Hafter; [|done].
  eapply critical_section_next; try done.
  simpl. by eapply after_not_wait.
Qed.

(** ** Where a thread comes from *)

Lemma step_threads_length (s s' : State) (c : Choice) :
  step s c = Some s' ->
  length (threads s') = length (threads s)
  \/ exists o, c = Spawn o /\ threads s' = threads s ++ [spawned o].
Proof.
  intros Hstep. destruct c as [o|t l|t|t|t].
  - right. simpl in Hstep. simplify_eq. by exists o.
  - left. apply exec_inv in Hstep as (th & p' & _ & _ & _ & ->). simpl.
    by rewrite length_insert, length_threads_effect.
  - left. simpl in Hstep. destruct (threads s !! t); simpl in Hstep; [|done].
    case_match; simplify_eq. simpl. by rewrite length_insert.
  - left. simpl in Hstep. destruct (threads s !! t); simpl in Hstep; [|done].
    case_match; simplify_eq. simpl. by rewrite length_insert.
  - left. simpl in Hstep. destruct (threads s !! t); simpl in Hstep; [|done].
    case_match; simplify_eq. simpl. by rewrite length_insert.
Qed.

(** A thread of a state reached by a run was there before the run or has
    entered its member function during the run. *)
Lemma thread_spawned (cs : list Choice) (s s' : State) (t : Tid) (th : Thread) :
  run cs s = Some s' ->
  threads s' !! t = Some th ->
  t < length (threads s)
  \/ exists pre post s1 s2,
       cs = pre ++ Spawn (op th) :: post
       /\ run pre s = Some s1 /\ step s1 (Spawn (op th)) = Some s2
       /\ threads s2 !! t = Some (spawned (op th))
       /\ run post s2 = Some s'.
Proof.
  revert s. induction cs as [|c cs IH]; intros s Hrun Hth; simpl in Hrun.
  - left. simplify_eq. by eapply lookup_lt_Some.
  - destruct (step s c) as [s0|] eqn:Hstep; [|done].
    destruct (IH _ Hrun Hth) as [Hlt|(pre & post & s1 & s2 & -> & Hpre & Hsp & Hth2 & Hpost)].
    + destruct (step_threads_length _ _ _ Hstep) as [Hlen|(o & -> & Hths)].
      { left. by rewrite <- Hlen. }
      destruct (decide (t < length (threads s))) as [?|Hge]; [by left|].
      right. rewrite Hths, length_app in Hlt. simpl in Hlt.
      assert (t = length (threads s)) as -> by lia.
      assert (threads s0 !! length (threads s) = Some (spawned o)) as Hth0.
      { rewrite Hths. by apply list_lookup_middle. }
      destruct (run_thread _ _ _ _ _ Hrun Hth0) as (th'' & Hth'' & Hop & _).
      assert (th'' = th) by congruence. subst th''. simpl in Hop. subst o.
      exists [], cs, s, s0. done.
    + right. exists (c :: pre), post, s1, s2. simpl. rewrite Hstep. done.
Qed.

(** The reaping wrapper erases only the child it was bound to. *)
Lemma erase_own_child (cs : list Choice) (s s' : State) (t : Tid) (child : Handle) :
  run cs init = Some s ->
  step s (Exec t (LChildrenErase child)) = Some s' ->
  exists th exitCode onExit,
    threads s !! t = Some th /\ op th = OpWrapExitCallback child exitCode onExit.
Proof.
  intros Hrun Hstep.
  assert (inv s) as Hinv by (eapply inv_run; [apply inv_init|done]).
  destruct (erase_by_wrapper _ _ _ _ Hinv Hstep) as (th & Hth & Hop).
  exists th. destruct (op th) as [| | | | |w exitCode onExit] eqn:Ho; try done.
  exists exitCode, onExit. split; [done|]. f_equal.
  destruct (thread_spawned _ _ _ _ _ Hrun Hth)
    as [Hlt|(pre & post & s1 & s2 & -> & Hpre & Hsp & Hth2 & Hpost)].
  { simpl in Hlt. lia. }
  rewrite Ho in Hth2.
  destruct (run_thread _ _ _ _ _ Hpost Hth2) as (th1 & Hth1 & _ & Hf).
  assert (th1 = th) by congruence. subst th1. simpl in Hf.
  apply exec_inv in Hstep as (th1 & p' & Hth1' & Hafter & _ & _).
  assert (th1 = th) by congruence. subst th1.
  assert (follows (op_prog (OpWrapExitCallback w exitCode onExit))
            (thread_trace t post ++ [LChildrenErase child]) = Some p') as Hf'.
  { rewrite follows_app. simpl in *. rewrite Hf. simpl. by rewrite Hafter. }
  destruct (wrapExitCallback_paths _ _ _ _ _ Hf') as (r & empty & Hpfx & _).
  assert (LWeakLock w (Some child) ∈ thread_trace t post) as Hin.
  { destruct Hpfx as [k Hk]. rewrite <- app_assoc in Hk. simpl in Hk.
    assert (wrapExitCallback_steps w exitCode onExit r empty
              !! length (thread_trace t post) = Some (LChildrenErase child)) as Hn.
    { rewrite Hk. by apply list_lookup_middle. }
    assert (thread_trace t post
            = take (length (thread_trace t post))
                (wrapExitCallback_steps w exitCode onExit r empty)) as Htake.
    { rewrite Hk. by rewrite take_app_length. }
    revert Hn Htake. generalize (length (thread_trace t post)). intros n Hn Htake.
    unfold wrapExitCallback_steps in *.
    destruct r as [r|], empty, (exitFnIsSet onExit); simpl in *;
      index_cases n Hn; simplify_eq; rewrite Htake; simpl; elem_solve. }
  destruct (trace_step_in _ _ _ _ _ Hpost Hin) as (sa & sb & _ & _ & _ & _ & Hwl).
  destruct (exec_weak_lock _ _ _ _ _ Hwl) as [?|[? _]]; by simplify_eq.
Qed.

(** ** A supervisor that has launched nothing *)

Lemma no_insert_app (cs1 cs2 : list Choice) :
  no_insert (cs1 ++ cs2) <-> no_insert cs1 /\ no_insert cs2.
Proof.
  unfold no_insert. split.
  - intros H. split; intros t h Hin; apply (H t h); apply elem_of_app; auto.
  - intros [H1 H2] t h Hin. apply elem_of_app in Hin as [Hin|Hin];
      [by apply (H1 t h)|by apply (H2 t h)].
Qed.

Lemma no_insert_cons (c : Choice) (cs : list Choice) :
  no_insert (c :: cs) -> no_insert cs.
Proof. intros H t h Hin. apply (H t h). by right. Qed.

Lemma idle_children (cs : list Choice) (s s' : State) :
  run cs s = Some s' -> no_insert cs -> children_ s = ∅ -> children_ s' = ∅.
Proof.
  revert s. induction cs as [|c cs IH]; intros s Hrun Hni Hempty; simpl in Hrun.
  - by simplify_eq.
  - destruct (step s c) as [s0|] eqn:Hstep; [|done].
    apply (IH s0); [done|by eapply no_insert_cons|].
    destruct (step_children _ _ _ Hstep) as [->|(t & l & -> & Hw)]; [done|].
    rewrite (exec_children _ _ _ _ Hstep). destruct l; try done.
    + destruct (Hni t pChild). by left.
    + rewrite Hempty. apply empty_difference_L.
Qed.

(** On a supervisor that has registered nothing, no check of [children_]
    has found a child in the steps of a thread. *)
Lemma idle_trace (cs : list Choice) (s : State) (t : Tid) (th : Thread) :
  run cs init = Some s -> no_insert cs ->
  threads s !! t = Some th ->
  exists tr, follows (op_prog (op th)) tr = Some (code th)
    /\ LChildrenEmpty false ∉ tr.
Proof.
  intros Hrun Hni Hth.
  destruct (thread_spawned _ _ _ _ _ Hrun Hth)
    as [Hlt|(pre & post & s1 & s2 & -> & Hpre & Hsp & Hth2 & Hpost)].
  { simpl in Hlt. lia. }
  destruct (run_thread _ _ _ _ _ Hpost Hth2) as (th' & Hth' & _ & Hf).
  assert (th' = th) by congruence. subst th'.
  exists (thread_trace t post). split; [done|]. intros Hin.
  destruct (trace_step_in _ _ _ _ _ Hpost Hin)
    as (sa & sb & q & q' & -> & Hq & Hstep).
  assert (run (pre ++ Spawn (op th) :: q) init = Some sa) as Hreach
    by (by eapply run_join).
  apply no_insert_app in Hni as [Hni1 Hni2].
  apply no_insert_cons in Hni2. apply no_insert_app in Hni2 as [Hni2 _].
  assert (children_ sa = ∅) as Hempty.
  { eapply (idle_children _ _ _ Hreach); [|done].
    apply no_insert_app. split; [done|].
    intros t' h [Heq|Hin']%elem_of_cons; [done|by apply (Hni2 t' h)]. }
  apply exec_empty in Hstep. by apply Hstep in Hempty.
Qed.

Lemma wait_code_accepts (p : prog Value) :
  is_wait p = true ->
  exists l p', after p l = Some p' /\ is_wait_label l = true.
Proof.
  intros Hw. destruct p as [v|X e k]; [done|]. destruct e; try done.
  - by exists LCondWait, (k tt).
  - exists (LCondTimedWait maxWait true), (k true). simpl.
    by rewrite decide_True.
Qed.

(** Only [wait] waits. *)
Lemma only_wait_waits (o : Op) (tr : list Label) (p' : prog Value) :
  follows (op_prog o) tr = Some p' ->
  (forall maxWait, o <> OpWait maxWait) ->
  forall l, l ∈ tr -> is_wait_label l = false.
Proof.
  intros Hf Ho l Hl.
  destruct o as [exe args opts cbs|cmd opts cbs| | |maxWait|pChild exitCode f].
  - cbn in Hf. path_cases Hf; simplify_eq; elem_cases Hl; done.
  - cbn in Hf. path_cases Hf; simplify_eq; elem_cases Hl; done.
  - cbn in Hf. path_cases Hf; simplify_eq; elem_cases Hl; done.
  - destruct (terminateAll_paths _ _ Hf) as (copy & errors & _ & Hpre & _).
    apply (elem_of_prefix _ _ _ Hpre) in Hl.
    apply terminateAll_steps_elem in Hl
      as [->|[->|[->|[(h & e & ->)|(e & ->)]]]]; done.
  - by destruct (Ho maxWait).
  - destruct (wrapExitCallback_paths _ _ _ _ _ Hf) as (child & empty & Hpre & _).
    apply (elem_of_prefix _ _ _ Hpre) in Hl. unfold wrapExitCallback_steps in Hl.
    destruct child, empty, (exitFnIsSet f); simpl in Hl; elem_cases Hl; done.
Qed.

(** ** Threads that never wait *)

Lemma never_blocks (cs : list Choice) (s s' : State) (t : Tid) (o : Op) :
  threads s !! t = Some (spawned o) ->
  (forall maxWait, o <> OpWait maxWait) ->
  run cs s = Some s' ->
  Block t ∉ cs.
Proof.
  intros Hth Ho Hrun Hin.
  destruct (elem_of_step_in _ _ _ _ Hrun Hin) as (sa & sb & Hb).
  destruct (block_at_wait _ _ _ _ _ _ Hth Hb) as (tr1 & p & _ & Hfp & Hw).
  destruct (wait_code_accepts _ Hw) as (l & p' & Hafter & Hl).
  assert (follows (op_prog o) (tr1 ++ [l]) = Some p') as Hf.
  { rewrite follows_app. simpl in Hfp. rewrite Hfp. simpl. by rewrite Hafter. }
  rewrite (only_wait_waits _ _ _ Hf Ho l) in Hl; [done|].
  apply elem_of_app. right. by left.
Qed.

Lemma launch_has_spec (o : Op) (callbacks : ProcessCallbacks) :
  launch_callbacks o = Some callbacks -> exists spec, launch_spec o = Some spec.
Proof. destruct o; simpl; intros; simplify_eq; eauto. Qed.

Lemma launch_not_wait (o : Op) (callbacks : ProcessCallbacks) :
  launch_callbacks o = Some callbacks -> forall maxWait, o <> OpWait maxWait.
Proof. by destruct o. Qed.

(** ** The history of a supervisor

    What the choices made since the construction of the supervisor tell
    about the state that they lead to. *)

Lemma run_snoc (cs : list Choice) (c : Choice) (s s' : State) :
  run (cs ++ [c]) s = Some s' <-> exists s1, run cs s = Some s1 /\ step s1 c = Some s'.
Proof.
  rewrite run_app. destruct (run cs s) as [s1|]; simpl.
  - split.
    + intros Hstep. exists s1. split; [done|]. by destruct (step s1 c).
    + intros (s1' & Heq & Hstep). simplify_eq. by rewrite Hstep.
  - split; [done|]. by intros (s1 & Heq & _).
Qed.

Lemma elem_of_thread_trace (t : Tid) (l : Label) (cs : list Choice) :
  l ∈ thread_trace t cs <-> Exec t l ∈ cs.
Proof.
  induction cs as [|c cs IH]; simpl.
  - split; intros Hin; by apply elem_of_nil in Hin.
  - rewrite elem_of_cons.
    destruct c as [o|t' l'|t'|t'|t'];
      try (rewrite IH; split; [by right|by intros [?|?]]).
    case_decide as Ht.
    + subst t'. rewrite elem_of_cons, IH.
      split; (intros [Heq|Hin]; [left; congruence|by right]).
    + rewrite IH. split; [by right|]. intros [Heq|Hin]; [congruence|done].
Qed.

Lemma exec_thread_bound (s s' : State) (t : Tid) (l : Label) :
  step s (Exec t l) = Some s' -> t < length (threads s).
Proof.
  intros Hstep. apply exec_inv in Hstep as (th & p' & Hth & _).
  by eapply lookup_lt_Some.
Qed.

Lemma step_threads_grow (s s' : State) (c : Choice) :
  step s c = Some s' -> length (threads s) <= length (threads s').
Proof.
  intros Hstep. destruct (step_threads_length _ _ _ Hstep) as [->|(o & _ & ->)].
  - done.
  - rewrite length_app. lia.
Qed.

(** The code of a thread is what is left of its member function after the
    steps that the thread has made. *)
Lemma history (cs : list Choice) (s : State) :
  run cs init = Some s ->
  (forall t, length (threads s) <= t -> thread_trace t cs = [])
  /\ (forall t th, threads s !! t = Some th ->
        follows (op_prog (op th)) (thread_trace t cs) = Some (code th)).
Proof.
  revert s. induction cs as [|c cs IH] using rev_ind; intros s Hrun.
  { simpl in Hrun. simplify_eq. split; [done|]. intros t th Hth. done. }
  apply run_snoc in Hrun as (s1 & Hrun1 & Hstep).
  destruct (IH _ Hrun1) as [Hnone Hsome]. split.
  - intros t Hle. pose proof (step_threads_grow _ _ _ Hstep) as Hgrow.
    rewrite thread_trace_app, Hnone by lia. simpl.
    destruct c as [o|t' l'|t'|t'|t']; simpl; try done.
    case_decide as Ht; [subst t'|done].
    apply exec_thread_bound in Hstep. lia.
  - intros t th Hth. rewrite thread_trace_app, follows_app.
    destruct (threads s1 !! t) as [th1|] eqn:Hth1.
    + destruct (step_thread _ _ _ _ _ Hstep Hth1) as (th' & Hth' & Hop & Hf).
      assert (th' = th) by congruence. subst th'.
      rewrite Hop, (Hsome _ _ Hth1). simpl. exact Hf.
    + apply lookup_ge_None in Hth1. rewrite Hnone by done. simpl.
      destruct (step_threads_length _ _ _ Hstep) as [Hlen|(o & -> & Hths)].
      { apply lookup_lt_Some in Hth. lia. }
      rewrite Hths in Hth. rewrite lookup_app_r in Hth by done.
      destruct (t - length (threads s1)) as [|n]; simpl in Hth; [|done].
      simplify_eq. done.
Qed.

Lemma step_next_child (s s' : State) (c : Choice) :
  step s c = Some s' -> next_child s <= next_child s'.
Proof.
  intros Hstep. destruct c as [o|t l|t|t|t].
  - simpl in Hstep. by simplify_eq.
  - pose proof Hstep as Hex. apply exec_inv in Hex as (th & p' & _ & _ & Hen & ->).
    simpl. destruct l; simpl in *; try done.
    apply andb_prop in Hen as [_ Hen]. apply bool_decide_eq_true in Hen. lia.
  - simpl in Hstep. destruct (threads s !! t) as [th|]; simpl in Hstep; [|done].
    destruct (_ && _); by simplify_eq.
  - simpl in Hstep. destruct (threads s !! t) as [th|]; simpl in Hstep; [|done].
    destruct (bool_decide _); by simplify_eq.
  - simpl in Hstep. destruct (threads s !! t) as [th|]; simpl in Hstep; [|done].
    destruct (_ && _); by simplify_eq.
Qed.

Lemma exec_new_child (s s' : State) (t : Tid) (spec : ChildSpec) (pChild : Handle) :
  step s (Exec t (LNewChild spec pChild)) = Some s' ->
  pChild = next_child s /\ next_child s' = S pChild.
Proof.
  intros Hstep. apply exec_inv in Hstep as (th & p' & _ & _ & Hen & ->).
  simpl in Hen. apply andb_prop in Hen as [_ Hen].
  apply bool_decide_eq_true in Hen. done.
Qed.

(** The identity of a child that has been created is below
    [next_child]. *)
Lemma new_child_below (cs : list Choice) (s : State) (t : Tid) (spec : ChildSpec)
    (pChild : Handle) :
  run cs init = Some s ->
  Exec t (LNewChild spec pChild) ∈ cs ->
  pChild < next_child s.
Proof.
  revert s. induction cs as [|c cs IH] using rev_ind; intros s Hrun Hin.
  { by apply elem_of_nil in Hin. }
  apply run_snoc in Hrun as (s1 & Hrun1 & Hstep).
  pose proof (step_next_child _ _ _ Hstep) as Hmono.
  apply elem_of_app in Hin as [Hin|Hin].
  - specialize (IH _ Hrun1 Hin). lia.
  - apply list_elem_of_singleton in Hin. subst c.
    destruct (exec_new_child _ _ _ _ _ Hstep) as [_ Hnext]. lia.
Qed.

(** No two threads create the same child. *)
Lemma new_child_unique (cs : list Choice) (s : State) (t1 t2 : Tid)
    (spec1 spec2 : ChildSpec) (pChild : Handle) :
  run cs init = Some s ->
  Exec t1 (LNewChild spec1 pChild) ∈ cs ->
  Exec t2 (LNewChild spec2 pChild) ∈ cs ->
  t1 = t2.
Proof.
  revert s. induction cs as [|c cs IH] using rev_ind; intros s Hrun Hin1 Hin2.
  { by apply elem_of_nil in Hin1. }
  apply run_snoc in Hrun as (s1 & Hrun1 & Hstep).
  apply elem_of_app in Hin1 as [Hin1|Hin1];
    apply elem_of_app in Hin2 as [Hin2|Hin2].
  - by eapply IH.
  - apply list_elem_of_singleton in Hin2. subst c.
    pose proof (new_child_below _ _ _ _ _ Hrun1 Hin1) as Hlt.
    destruct (exec_new_child _ _ _ _ _ Hstep) as [Heq _]. lia.
  - apply list_elem_of_singleton in Hin1. subst c.
    pose proof (new_child_below _ _ _ _ _ Hrun1 Hin2) as Hlt.
    destruct (exec_new_child _ _ _ _ _ Hstep) as [Heq _]. lia.
  - apply list_elem_of_singleton in Hin1, Hin2. congruence.
Qed.

(** A member function registers only the child that it has created, and
    registers it once. *)
Lemma insert_after_new (o : Op) (tr : list Label) (p' : prog Value)
    (pChild : Handle) :
  follows (op_prog o) tr = Some p' ->
  LChildrenInsert pChild ∈ tr ->
  exists spec, LNewChild spec pChild ∈ tr.
Proof.
  intros Hf Hl.
  destruct o as [exe args opts cbs|cmd opts cbs| | |maxWait|w exitCode f].
  - cbn in Hf. path_cases Hf; simplify_eq; elem_cases Hl; eexists; elem_solve.
  - cbn in Hf. path_cases Hf; simplify_eq; elem_cases Hl; eexists; elem_solve.
  - cbn in Hf. path_cases Hf; simplify_eq; elem_cases Hl; done.
  - destruct (terminateAll_paths _ _ Hf) as (copy & errors & _ & Hpre & _).
    apply (elem_of_prefix _ _ _ Hpre) in Hl.
    apply terminateAll_steps_elem in Hl
      as [?|[?|[?|[(h & e & ?)|(e & ?)]]]]; done.
  - cbn in Hf. path_cases Hf; simplify_eq; elem_cases Hl; done.
  - destruct (wrapExitCallback_paths _ _ _ _ _ Hf) as (child & empty & Hpre & _).
    apply (elem_of_prefix _ _ _ Hpre) in Hl. unfold wrapExitCallback_steps in Hl.
    destruct child, empty, (exitFnIsSet f); simpl in Hl; elem_cases Hl; done.
Qed.

Lemma insert_once (o : Op) (tr : list Label) (p' : prog Value)
    (pChild : Handle) (i j : nat) :
  follows (op_prog o) tr = Some p' ->
  tr !! i = Some (LChildrenInsert pChild) ->
  tr !! j = Some (LChildrenInsert pChild) ->
  i = j.
Proof.
  intros Hf Hi Hj.
  destruct (insert_after_new o tr p' pChild Hf) as [spec Hnew];
    [by eapply list_elem_of_lookup_2|].
  destruct o as [exe args opts cbs|cmd opts cbs| | |maxWait|w exitCode f].
  - cbn in Hf. path_cases Hf; simplify_eq;
      index_cases i Hi; simplify_eq; index_cases j Hj; simplify_eq; done.
  - cbn in Hf. path_cases Hf; simplify_eq;
      index_cases i Hi; simplify_eq; index_cases j Hj; simplify_eq; done.
  - cbn in Hf. path_cases Hf; simplify_eq; elem_cases Hnew; done.
  - destruct (terminateAll_paths _ _ Hf) as (copy & errors & _ & Hpre & _).
    apply (elem_of_prefix _ _ _ Hpre) in Hnew.
    apply terminateAll_steps_elem in Hnew
      as [?|[?|[?|[(h & e & ?)|(e & ?)]]]]; done.
  - cbn in Hf. path_cases Hf; simplify_eq; elem_cases Hnew; done.
  - destruct (wrapExitCallback_paths _ _ _ _ _ Hf) as (child & empty & Hpre & _).
    apply (elem_of_prefix _ _ _ Hpre) in Hnew. unfold wrapExitCallback_steps in Hnew.
    destruct child, empty, (exitFnIsSet f); simpl in Hnew; elem_cases Hnew; done.
Qed.


(** A child is registered once: when it has been registered and is not in
    [children_], no step puts it there again. *)
Lemma registered_once_step (cs : list Choice) (s s' : State) (c : Choice)
    (pChild : Handle) :
  run cs init = Some s ->
  step s c = Some s' ->
  (exists t, Exec t (LChildrenInsert pChild) ∈ cs) ->
  pChild ∉ children_ s ->
  pChild ∉ children_ s'.
Proof.
  intros Hrun Hstep [t Hin] Hout.
  destruct (step_children _ _ _ Hstep) as [->|(ti & l & -> & Hw)]; [done|].
  rewrite (exec_children _ _ _ _ Hstep). destruct l; try done.
  - rename pChild0 into h. intros Hin'.
    apply elem_of_union in Hin' as [Hin'|Hin']; [|done].
    apply elem_of_singleton in Hin'. subst h.
    assert (run (cs ++ [Exec ti (LChildrenInsert pChild)]) init = Some s') as Hrun'.
    { apply run_snoc. by exists s. }
    destruct (history _ _ Hrun') as [Hnone Hsome].
    assert (forall t' tr, thread_trace t' (cs ++ [Exec ti (LChildrenInsert pChild)])
                          = tr ->
              LChildrenInsert pChild ∈ tr ->
              exists o p, follows (op_prog o) tr = Some p) as Hcode.
    { intros t' tr <- Hl.
      destruct (threads s' !! t') as [th|] eqn:Hth.
      - exists (op th), (code th). by apply Hsome.
      - apply lookup_ge_None in Hth. rewrite (Hnone _ Hth) in Hl.
        by apply elem_of_nil in Hl. }
    assert (LChildrenInsert pChild
            ∈ thread_trace t (cs ++ [Exec ti (LChildrenInsert pChild)])) as Ht.
    { apply elem_of_thread_trace, elem_of_app. by left. }
    assert (LChildrenInsert pChild
            ∈ thread_trace ti (cs ++ [Exec ti (LChildrenInsert pChild)])) as Hti.
    { apply elem_of_thread_trace, elem_of_app. right. by left. }
    destruct (Hcode _ _ eq_refl Ht) as (o & p & Hf).
    destruct (Hcode _ _ eq_refl Hti) as (oi & pi & Hfi).
    destruct (insert_after_new _ _ _ _ Hf Ht) as [spec Hnew].
    destruct (insert_after_new _ _ _ _ Hfi Hti) as [speci Hnewi].
    apply elem_of_thread_trace in Hnew, Hnewi.
    assert (t = ti) as -> by (by eapply new_child_unique).
    apply elem_of_thread_trace, list_elem_of_lookup in Hin as [i Hi].
    pose proof (lookup_lt_Some _ _ _ Hi) as Hlt.
    rewrite thread_trace_app in Hfi. simpl in Hfi. rewrite decide_True in Hfi by done.
    assert (i = length (thread_trace ti cs)); [|lia].
    eapply (insert_once _ _ _ pChild _ _ Hfi).
    + by apply lookup_app_l_Some.
    + by apply list_lookup_middle.
  - intros Hin'. apply elem_of_difference in Hin' as [Hin' _]. done.
Qed.

Lemma registered_once (cs cs' : list Choice) (s s' : State) (pChild : Handle) :
  run cs init = Some s ->
  run cs' s = Some s' ->
  (exists t, Exec t (LChildrenInsert pChild) ∈ cs) ->
  pChild ∉ children_ s ->
  pChild ∉ children_ s'.
Proof.
  revert cs s. induction cs' as [|c cs' IH]; intros cs s Hrun Hrun' Hin Hout;
    simpl in Hrun'.
  { by simplify_eq. }
  destruct (step s c) as [s1|] eqn:Hstep; [|done].
  eapply (IH (cs ++ [c]) s1).
  - apply run_snoc. by exists s.
  - done.
  - destruct Hin as [t Ht]. exists t. apply elem_of_app. by left.
  - by eapply registered_once_step.
Qed.

(** ** A reaped child stays out *)




(** ** The launch surface *)

(** C8: a launch by [runProgram] or [runCommand] starts the child that it
    has created, once, and hands it the callbacks of the caller with only
    the [onExit] slot replaced, by the reaping wrapper bound to that child
    and to the caller's [onExit]; [onStdout] and [onStderr] are passed
    through unchanged.  Every start that the launch makes has these
    callbacks; a launch that has returned has made exactly one; and the
    launch is never held up before it: it can always create its child,
    and then start it with these callbacks, whatever the start returns. *)
Theorem launch_wraps_only_onExit (s s' : State) (cs : list Choice) (t : Tid)
    (o : Op) (callbacks : ProcessCallbacks) :
  threads s !! t = Some (spawned o) ->
  launch_callbacks o = Some callbacks ->
  run cs s = Some s' ->
  (forall pChild ourCallbacks error,
     LRun pChild ourCallbacks error ∈ thread_trace t cs ->
     onStdout ourCallbacks = onStdout callbacks
     /\ onStderr ourCallbacks = onStderr callbacks
     /\ onExit ourCallbacks = BoundWrapExit pChild (onExit callbacks))
  /\ (forall v, returned s' t = Some v ->
        exists spec pChild,
          thread_trace t cs !! 0 = Some (LNewChild spec pChild)
          /\ omap passed_callbacks (thread_trace t cs)
             = [(pChild,
                 {| onStdout := onStdout callbacks;
                    onStderr := onStderr callbacks;
                    onExit := BoundWrapExit pChild (onExit callbacks) |})])
  /\ (thread_trace t cs = [] ->
      exists spec s'', step s' (Exec t (LNewChild spec (next_child s'))) = Some s'')
  /\ (forall l, thread_trace t cs = [l] ->
        exists spec pChild,
          l = LNewChild spec pChild
          /\ forall error, exists s'',
               step s'
                 (Exec t (LRun pChild
                            {| onStdout := onStdout callbacks;
                               onStderr := onStderr callbacks;
                               onExit := BoundWrapExit pChild (onExit callbacks) |}
                            error))
               = Some s'').
Proof.
  intros Hth Ho Hrun.
  destruct (run_thread _ _ _ _ _ Hrun Hth) as (th' & Hth' & _ & Hf).
  simpl in Hf.
  destruct (launch_has_spec _ _ Ho) as [spec Hspec].
  destruct (ready_until_block _ _ _ _ _ Hrun Hth eq_refl
              (never_blocks _ _ _ _ _ Hth (launch_not_wait _ _ Ho) Hrun))
    as (th'' & Hth'' & Hready).
  assert (th'' = th') by congruence. subst th''.
  split; [|split; [|split]].
  - intros pChild ourCallbacks error Hin.
    revert Hin Hf. generalize (thread_trace t cs) (code th').
    intros tr p' Hin Hf.
    destruct o; simplify_eq/=; cbn in Hf; path_cases Hf;
      repeat (apply elem_of_cons in Hin as [Hin|Hin]; simplify_eq/=; try done);
      by apply elem_of_nil in Hin.
  - intros v Hv. apply (returned_code _ _ _ _ Hth') in Hv.
    destruct (launch_paths _ _ _ _ _ Hspec Ho Hf) as (h & e & _ & Hret).
    destruct (Hret v Hv) as [Htr _]. exists spec, h. rewrite Htr.
    unfold launch_steps. split; [done|]. by destruct (isError e).
  - intros Htr. rewrite Htr in Hf. simpl in Hf. simplify_eq.
    assert (is_Some (after (op_prog o) (LNewChild spec (next_child s'))))
      as [p' Hp'].
    { destruct o; simplify_eq/=; unfold after; simpl;
        (case_decide; [by eexists|done]). }
    exists spec. eapply (exec_enabled _ _ _ _ _ Hth').
    + rewrite <- Hf. exact Hp'.
    + rewrite Hready. simpl. by rewrite !bool_decide_eq_true_2.
  - intros l Htr. rewrite Htr in Hf.
    assert (exists pChild,
              l = LNewChild spec pChild
              /\ forall error,
                   is_Some (after (code th')
                              (LRun pChild
                                 {| onStdout := onStdout callbacks;
                                    onStderr := onStderr callbacks;
                                    onExit := BoundWrapExit pChild (onExit callbacks) |}
                                 error))) as (pChild & -> & Hafter).
    { destruct o; simplify_eq/=; destruct l; cbn in Hf; try discriminate Hf;
        (destruct (decide _) as [->|]; [|discriminate Hf]);
        simpl in Hf; injection Hf as Hf; eexists; (split; [done|]);
        intros error; rewrite <- Hf; unfold after; simpl;
        (case_decide as Hd; [by eexists|by destruct Hd]). }
    exists spec, pChild. split; [done|]. intros error.
    destruct (Hafter error) as [p' Hp']. eapply (exec_enabled _ _ _ _ _ Hth' Hp').
    by rewrite Hready.
Qed.

Lemma launch_wraps_only_onExit_witness :
  threads (set_threads init [spawned run_echo]) !! 0 = Some (spawned run_echo)
  /\ launch_callbacks run_echo = Some test_callbacks
  /\ run (tail (echo_launched 0 0)) (set_threads init [spawned run_echo])
     = Some (state_after (tail (echo_launched 0 0))
               (set_threads init [spawned run_echo]))
  /\ returned (state_after (tail (echo_launched 0 0))
                 (set_threads init [spawned run_echo])) 0
     = Some (VError Success)
  /\ exists spec pChild,
       thread_trace 0 (tail (echo_launched 0 0)) !! 0 = Some (LNewChild spec pChild)
       /\ omap passed_callbacks (thread_trace 0 (tail (echo_launched 0 0)))
          = [(pChild,
              {| onStdout := appendOutput;
                 onStderr := EmptyOutputFn;
                 onExit := BoundWrapExit pChild checkExitCode |})].
Proof.
  split; [reflexivity|]. split; [reflexivity|].
  split; [vm_compute; reflexivity|]. split; [vm_compute; reflexivity|].
  destruct (launch_wraps_only_onExit (set_threads init [spawned run_echo])
              (state_after (tail (echo_launched 0 0))
                 (set_threads init [spawned run_echo]))
              (tail (echo_launched 0 0)) 0 run_echo test_callbacks
              eq_refl eq_refl)
    as (_ & Hret & _); [vm_compute; reflexivity|].
  apply (Hret (VError Success)). vm_compute. reflexivity.
Defined.

(** C4: in a launch by [runProgram] or [runCommand], when the start of the
    child fails the call returns that failure at once and none of its steps
    writes [children_], so the handle is never inserted; and a handle is
    inserted only after the start of that child has returned success. *)
Theorem launch_registers_only_started (s s' : State) (cs : list Choice) (t : Tid)
    (o : Op) (callbacks : ProcessCallbacks) :
  threads s !! t = Some (spawned o) ->
  launch_callbacks o = Some callbacks ->
  run cs s = Some s' ->
  (forall pChild ourCallbacks error,
     LRun pChild ourCallbacks error ∈ thread_trace t cs ->
     isError error = true ->
     returned s' t = Some (VError error)
     /\ (forall l, l ∈ thread_trace t cs -> writes_children l = false)
     /\ (forall l s1 s2, step_in s cs s1 (Exec t l) s2 -> children_ s2 = children_ s1))
  /\ (forall i pChild,
        thread_trace t cs !! i = Some (LChildrenInsert pChild) ->
        exists j ourCallbacks,
          j < i /\ thread_trace t cs !! j = Some (LRun pChild ourCallbacks Success)).
Proof.
  intros Hth Ho Hrun.
  destruct (run_thread _ _ _ _ _ Hrun Hth) as (th' & Hth' & _ & Hf).
  assert (forall pChild ourCallbacks error,
            LRun pChild ourCallbacks error ∈ thread_trace t cs ->
            isError error = true ->
            code th' = Ret (VError error)
            /\ forall l, l ∈ thread_trace t cs -> writes_children l = false) as Hfail.
  { simpl in Hf. revert Hf. generalize (thread_trace t cs) (code th').
    intros tr p' Hf pChild ourCallbacks error Hin Herr.
    destruct o; simplify_eq/=; cbn in Hf; path_cases Hf; simplify_eq/=;
      repeat (apply elem_of_cons in Hin as [Hin|Hin]; simplify_eq/=; try done);
      try (by apply elem_of_nil in Hin); try congruence;
      (split; [done|]; intros l Hl;
       repeat (apply elem_of_cons in Hl as [Hl|Hl]; simplify_eq/=; try done);
       by apply elem_of_nil in Hl). }
  split.
  - intros pChild ourCallbacks error Hin Herr.
    destruct (Hfail _ _ _ Hin Herr) as [Hret Hw].
    split; [|split; [done|]].
    + unfold returned. rewrite Hth'. destruct th' as [? c ?]. simpl in Hret.
      by subst c.
    + by apply thread_keeps_children.
  - simpl in Hf. revert Hf. generalize (thread_trace t cs) (code th').
    intros tr p' Hf i pChild Hi.
    destruct o; simplify_eq/=; cbn in Hf; path_cases Hf; simplify_eq/=;
      index_cases i Hi; simplify_eq;
      match goal with H : isError ?e = false |- _ => destruct e; [|done] end;
      (exists 1; eexists; split; [lia|reflexivity]).
Qed.

Lemma launch_registers_only_started_witness :
  exists s',
    run (tail (echo_started 0 0 (Failure 2))) (set_threads init [spawned run_echo])
      = Some s'
    /\ returned s' 0 = Some (VError (Failure 2))
    /\ children_ s' = ∅.
Proof.
  eexists. split; [vm_compute; reflexivity|].
  split; [|vm_compute; reflexivity].
  eapply (launch_registers_only_started (set_threads init [spawned run_echo]) _
            (tail (echo_started 0 0 (Failure 2))) 0 run_echo test_callbacks
            eq_refl eq_refl).
  - vm_compute. reflexivity.
  - vm_compute. apply list_elem_of_In. right. left. reflexivity.
  - reflexivity.
Defined.

(** ** The reaping wrapper *)




(** C7: [noChildrenSignal_] is notified exactly by a reaping wrapper whose
    check of [children_], made after the caller's callback, finds it empty:
    the check tells whether the collection is empty, the wrapper notifies
    only after a check that found it empty and not after one that did not,
    a wrapper that has returned has notified iff its check found it empty,
    and no other member function ever notifies. *)
Theorem notify_exactly_on_empty_reap (s s' : State) (cs : list Choice) (t : Tid)
    (o : Op) :
  threads s !! t = Some (spawned o) ->
  run cs s = Some s' ->
  (forall empty s1 s2,
     step_in s cs s1 (Exec t (LChildrenEmpty empty)) s2 ->
     empty = true <-> children_ s1 = ∅)
  /\ (is_wrapExitCallback o = false -> LNotifyAll ∉ thread_trace t cs)
  /\ (forall pChild exitCode onExit,
        o = OpWrapExitCallback pChild exitCode onExit ->
        happens_before (LChildrenEmpty true) LNotifyAll (thread_trace t cs)
        /\ (LChildrenEmpty false ∈ thread_trace t cs ->
            LNotifyAll ∉ thread_trace t cs)
        /\ (exitFnIsSet onExit = true ->
            forall empty,
              happens_before (LCallOnExit onExit exitCode) (LChildrenEmpty empty)
                (thread_trace t cs))
        /\ (forall v, returned s' t = Some v ->
              LNotifyAll ∈ thread_trace t cs
              <-> LChildrenEmpty true ∈ thread_trace t cs)).
Proof.
  intros Hth Hrun.
  destruct (run_thread _ _ _ _ _ Hrun Hth) as (th' & Hth' & _ & Hf).
  simpl in Hf. split; [|split].
  - intros empty s1 s2 (_ & _ & _ & _ & Hstep). by eapply exec_empty.
  - intros Ho Hin.
    destruct (only_wrapper_erases_notifies _ _ _ Hf Ho _ Hin) as [Hn _]. done.
  - intros pChild exitCode onExit ->.
    destruct (wrapExitCallback_paths _ _ _ _ _ Hf) as (child & empty & Hpre & Hret).
    assert (forall v, returned s' t = Some v ->
              thread_trace t cs
              = wrapExitCallback_steps pChild exitCode onExit child empty) as Hfull.
    { intros v Hv. unfold returned in Hv. rewrite Hth' in Hv.
      destruct th' as [? [v'|] ?]; [|done]. by destruct (Hret v' eq_refl). }
    revert Hpre Hfull. generalize (thread_trace t cs). intros tr Hpre Hfull.
    split; [|split; [|split]].
    + eapply happens_before_prefix; [done|].
      intros i Hi. unfold wrapExitCallback_steps in *.
      destruct child, empty, (exitFnIsSet onExit); simpl in *;
        index_cases i Hi; simplify_eq; earlier_index.
    + intros Hfalse Hnotify.
      apply (elem_of_prefix _ _ _ Hpre) in Hfalse, Hnotify.
      unfold wrapExitCallback_steps in *.
      destruct child, empty, (exitFnIsSet onExit); simpl in *;
        elem_cases Hfalse; elem_cases Hnotify.
    + intros Hset empty'. eapply happens_before_prefix; [done|].
      intros i Hi. unfold wrapExitCallback_steps in *. rewrite Hset in *.
      destruct child, empty; simpl in *;
        index_cases i Hi; simplify_eq; earlier_index.
    + intros v Hv. rewrite (Hfull v Hv). unfold wrapExitCallback_steps.
      destruct child, empty, (exitFnIsSet onExit); simpl;
        split; intros Hin; elem_cases Hin;
        repeat first [by left | right]; set_solver.
Qed.

(** C9: when the weak pointer of the reaping wrapper resolves to null, the
    wrapper erases nothing, so that each of its steps leaves [children_] as
    it found it; it goes on as it would after an erase; and once it has
    returned it has called the caller's [onExit], if there is one, has
    checked [children_] for emptiness and has notified iff that check found
    it empty. *)
Theorem wrapExitCallback_null_child (s s' : State) (cs : list Choice) (t : Tid)
    (pChild : weak_ptr) (exitCode : Z) (onExit : ExitFn) :
  threads s !! t = Some (spawned (OpWrapExitCallback pChild exitCode onExit)) ->
  run cs s = Some s' ->
  LWeakLock pChild None ∈ thread_trace t cs ->
  (forall l, l ∈ thread_trace t cs -> writes_children l = false)
  /\ (forall l s1 s2, step_in s cs s1 (Exec t l) s2 -> children_ s2 = children_ s1)
  /\ (forall child,
        follows (op_prog (OpWrapExitCallback pChild exitCode onExit))
          [LLock; LWeakLock pChild None]
        = follows (op_prog (OpWrapExitCallback pChild exitCode onExit))
            [LLock; LWeakLock pChild (Some child); LChildrenErase child])
  /\ (forall v, returned s' t = Some v ->
        exists empty,
          thread_trace t cs
          = [LLock; LWeakLock pChild None; LUnlock]
            ++ (if exitFnIsSet onExit then [LCallOnExit onExit exitCode] else [])
            ++ [LLock; LChildrenEmpty empty]
            ++ (if empty then [LNotifyAll] else [])
            ++ [LUnlock]).
Proof.
  intros Hth Hrun Hnull.
  destruct (run_thread _ _ _ _ _ Hrun Hth) as (th' & Hth' & _ & Hf).
  simpl in Hf.
  destruct (wrapExitCallback_paths _ _ _ _ _ Hf) as (child & empty & Hpre & Hret).
  assert (child = None) as ->.
  { apply (elem_of_prefix _ _ _ Hpre) in Hnull.
    unfold wrapExitCallback_steps in Hnull.
    destruct child, empty, (exitFnIsSet onExit); simpl in Hnull;
      elem_cases Hnull; done. }
  assert (forall l, l ∈ thread_trace t cs -> writes_children l = false) as Hw.
  { intros l Hl. apply (elem_of_prefix _ _ _ Hpre) in Hl.
    unfold wrapExitCallback_steps in Hl.
    destruct empty, (exitFnIsSet onExit); simpl in Hl; elem_cases Hl; done. }
  split; [done|]. split; [by apply thread_keeps_children|]. split.
  - intros child.
    repeat first [progress cbn | rewrite decide_True by done | progress unfold after].
    done.
  - intros v Hv. exists empty. unfold returned in Hv. rewrite Hth' in Hv.
    destruct th' as [? [v'|] ?]; [|done]. by destruct (Hret v' eq_refl).
Qed.

(** ** Broadcast termination *)

(** C6: [terminateAll] copies [children_] with [mutex_] held, the copy
    holding each registered handle once, and calls [terminate] only after
    the lock is released, without the mutex; once it has returned it has
    returned void and has called [terminate] on every handle of the copy,
    in the order in which the copy is gone through and whatever the calls
    returned, and has logged every failure. *)
Theorem terminateAll_best_effort (cs0 cs : list Choice) (s s' : State) (t : Tid) :
  run cs0 init = Some s ->
  threads s !! t = Some (spawned OpTerminateAll) ->
  run cs s = Some s' ->
  (forall copy s1 s2,
     step_in s cs s1 (Exec t (LChildrenCopy copy)) s2 ->
     mutex_ s1 = Some t
     /\ NoDup copy
     /\ forall pChild, pChild ∈ copy <-> pChild ∈ children_ s1)
  /\ (forall pChild error s1 s2,
        step_in s cs s1 (Exec t (LTerminate pChild error)) s2 ->
        mutex_ s1 <> Some t)
  /\ (forall pChild error,
        happens_before LUnlock (LTerminate pChild error) (thread_trace t cs))
  /\ (forall v, returned s' t = Some v ->
        v = VVoid
        /\ exists copy errors,
             length errors = length copy
             /\ thread_trace t cs = terminateAll_steps copy errors
             /\ (forall pChild, pChild ∈ copy ->
                   exists error, LTerminate pChild error ∈ thread_trace t cs)
             /\ (forall pChild error,
                   LTerminate pChild error ∈ thread_trace t cs ->
                   isError error = true ->
                   LLogError error ∈ thread_trace t cs)).
Proof.
  intros Hreach Hth Hrun.
  assert (inv s) as Hinv by (eapply inv_run; [apply inv_init|done]).
  destruct (run_thread _ _ _ _ _ Hrun Hth) as (th' & Hth' & _ & Hf).
  simpl in Hf.
  destruct (terminateAll_paths _ _ Hf) as (copy & errors & Hlen & Hpre & Hret).
  split; [|split; [|split]].
  - intros copy' s1 s2 Hin. pose proof (step_in_inv _ _ _ _ _ Hinv Hin) as Hinv1.
    destruct Hin as (_ & _ & _ & _ & Hstep).
    destruct (exec_lock_state _ _ _ _ Hinv1 Hstep) as [Hunder _].
    split; [by apply Hunder|].
    destruct (exec_copy _ _ _ _ Hstep) as [Hnd Hset].
    split; [done|]. intros pChild. by rewrite <- Hset, elem_of_list_to_set.
  - intros pChild error s1 s2 Hin.
    pose proof (step_in_inv _ _ _ _ _ Hinv Hin) as Hinv1.
    destruct Hin as (_ & _ & _ & _ & Hstep).
    destruct (exec_lock_state _ _ _ _ Hinv1 Hstep) as [_ Hout]. by apply Hout.
  - intros pChild error. eapply happens_before_prefix; [done|].
    intros i Hi. unfold terminateAll_steps in *.
    destruct i as [|[|[|i]]]; simpl in Hi; try discriminate Hi.
    exists 2. split; [lia|done].
  - intros v Hv. unfold returned in Hv. rewrite Hth' in Hv.
    destruct th' as [? [v'|] ?]; [|done]. simplify_eq.
    destruct (Hret v eq_refl) as [Htr ->]. split; [done|].
    exists copy, errors. split; [done|]. split; [done|].
    rewrite Htr. unfold terminateAll_steps. split.
    + intros pChild Hin.
      destruct (terminate_steps_all copy errors pChild) as [e He];
        [done|done|].
      exists e. apply elem_of_app. by right.
    + intros pChild error Hin Herr.
      apply elem_of_app in Hin as [Hin|Hin]; [elem_cases Hin|].
      apply elem_of_app. right.
      by apply (terminate_steps_logged _ pChild).
Qed.

(** C10: no step of [terminateAll] writes [children_] or notifies, and each
    of its steps leaves [children_] and the other threads as it found them;
    a handle registered before the call and not after it has been erased
    meanwhile by another thread, which is in the reaping wrapper; and when
    no other thread writes [children_] during the call the collection is
    after the call what it was before. *)
Theorem terminateAll_keeps_children (cs0 cs : list Choice) (s s' : State) (t : Tid) :
  run cs0 init = Some s ->
  threads s !! t = Some (spawned OpTerminateAll) ->
  run cs s = Some s' ->
  (forall l, l ∈ thread_trace t cs -> writes_children l = false /\ l <> LNotifyAll)
  /\ (forall l s1 s2,
        step_in s cs s1 (Exec t l) s2 ->
        children_ s2 = children_ s1
        /\ forall t', t' <> t -> threads s2 !! t' = threads s1 !! t')
  /\ (forall pChild,
        pChild ∈ children_ s ->
        pChild ∈ children_ s'
        \/ exists t' th' s1 s2,
             t' <> t
             /\ step_in s cs s1 (Exec t' (LChildrenErase pChild)) s2
             /\ threads s1 !! t' = Some th'
             /\ is_wrapExitCallback (op th') = true)
  /\ ((forall t' l s1 s2,
         t' <> t -> step_in s cs s1 (Exec t' l) s2 -> writes_children l = false) ->
      children_ s' = children_ s).
Proof.
  intros Hreach Hth Hrun.
  assert (inv s) as Hinv by (eapply inv_run; [apply inv_init|done]).
  destruct (run_thread _ _ _ _ _ Hrun Hth) as (th' & Hth' & _ & Hf).
  simpl in Hf.
  destruct (terminateAll_paths _ _ Hf) as (copy & errors & Hlen & Hpre & Hret).
  assert (forall l, l ∈ thread_trace t cs ->
            writes_children l = false /\ l <> LNotifyAll) as Hown.
  { intros l Hl. apply (elem_of_prefix _ _ _ Hpre) in Hl.
    apply terminateAll_steps_elem in Hl
      as [->|[->|[->|[(h & e & ->)|(e & ->)]]]]; done. }
  assert (forall l s1 s2, step_in s cs s1 (Exec t l) s2 ->
            children_ s2 = children_ s1) as Hkeep.
  { apply thread_keeps_children. intros l Hl. by apply Hown. }
  split; [done|]. split; [|split].
  - intros l s1 s2 Hin. split; [by eapply Hkeep|].
    intros t' Hne.
    destruct (step_in_trace _ _ _ _ _ _ Hin) as (tr1 & tr2 & Htr).
    destruct Hin as (_ & _ & _ & _ & Hstep).
    eapply exec_other_threads; [done| |done].
    apply Hown. rewrite Htr. apply elem_of_app. right. by left.
  - intros pChild Hin.
    destruct (run_children_erased _ _ _ _ Hrun Hin) as [?|(t' & s1 & s2 & Hs)];
      [by left|right].
    pose proof (step_in_inv _ _ _ _ _ Hinv Hs) as Hinv1.
    pose proof Hs as (_ & _ & _ & _ & Hstep).
    destruct (erase_by_wrapper _ _ _ _ Hinv1 Hstep) as (th1 & Hth1 & Hop).
    exists t', th1, s1, s2. split; [|done].
    intros ->. destruct (step_in_trace _ _ _ _ _ _ Hs) as (tr1 & tr2 & Htr).
    destruct (Hown (LChildrenErase pChild)) as [Hw _]; [|done].
    rewrite Htr. apply elem_of_app. right. by left.
  - intros Hothers. apply (run_children_frame _ _ _ Hrun).
    intros t' l s1 s2 Hin. destruct (decide (t' = t)) as [->|Hne].
    + by eapply Hkeep.
    + pose proof (Hothers _ _ _ _ Hne Hin) as Hw.
      destruct Hin as (_ & _ & _ & _ & Hstep).
      rewrite (exec_children _ _ _ _ Hstep). by destruct l.
Qed.

(** ** Waiting for quiescence *)

(** C5: when [children_] is empty at the moment a call of [wait] takes the
    lock, the call checks, unlocks and returns true, whatever [maxWait] is:
    it never blocks on [noChildrenSignal_], and until it has returned its
    next step can always be done. *)
Theorem wait_empty_returns_at_once (cs0 cs : list Choice) (s s' : State) (t : Tid)
    (maxWait : time_duration) (s1 s2 : State) :
  run cs0 init = Some s ->
  threads s !! t = Some (spawned (OpWait maxWait)) ->
  run cs s = Some s' ->
  step_in s cs s1 (Exec t LLock) s2 ->
  children_ s1 = ∅ ->
  thread_trace t cs `prefix_of` [LLock; LChildrenEmpty true; LUnlock]
  /\ (Block t ∉ cs)
  /\ (forall v, returned s' t = Some v -> v = VBool true)
  /\ (returned s' t = None -> exists l s'', step s' (Exec t l) = Some s'').
Proof.
  intros Hreach Hth Hrun Hlock Hempty.
  assert (inv s) as Hinv by (eapply inv_run; [apply inv_init|done]).
  assert (inv s') as Hinv' by (by eapply inv_run).
  destruct (run_thread _ _ _ _ _ Hrun Hth) as (th' & Hth' & _ & Hf).
  simpl in Hf.
  destruct (wait_paths _ _ _ Hf) as (entry & signalled & empty' & Hpre & Hret).
  assert (forall l1, thread_trace t cs !! 1 = Some l1 -> entry = true) as Hentry.
  { intros l1 Hl1. destruct Hpre as [k Hk].
    assert (l1 = LChildrenEmpty entry) as ->.
    { apply (f_equal (fun tr => tr !! 1)) in Hk.
      rewrite (lookup_app_l_Some _ _ _ _ Hl1) in Hk. by simplify_eq/=. }
    rewrite (wait_entry_check _ _ _ _ _ _ _ _ Hinv Hth Hrun Hlock Hl1).
    by apply bool_decide_eq_true. }
  assert (thread_trace t cs `prefix_of` [LLock; LChildrenEmpty true; LUnlock])
    as Hshort.
  { destruct (thread_trace t cs) as [|l0 [|l1 tr]] eqn:Htr.
    - apply prefix_nil.
    - unfold wait_steps in Hpre. simpl in Hpre.
      rewrite (prefix_cons_inv_1 _ _ _ _ Hpre). apply prefix_cons, prefix_nil.
    - rewrite (Hentry l1 eq_refl) in Hpre. done. }
  assert (Block t ∉ cs) as Hnb.
  { intros Hin. destruct (elem_of_step_in _ _ _ _ Hrun Hin) as (sa & sb & Hb).
    destruct (block_at_wait _ _ _ _ _ _ Hth Hb) as (tr1 & p & Hp1 & Hfp & Hw).
    assert (tr1 `prefix_of` [LLock; LChildrenEmpty true; LUnlock]) as Hp
      by (by etrans).
    simpl in Hfp. prefix_cases Hp; cbn in Hfp; simplify_eq; done. }
  split; [done|]. split; [done|]. split.
  - intros v Hv. apply (returned_code _ _ _ _ Hth') in Hv.
    destruct (Hret v Hv) as [Htr ->].
    rewrite (Hentry (LChildrenEmpty entry)); [done|]. by rewrite Htr.
  - intros Hnone.
    destruct (ready_until_block _ _ _ _ _ Hrun Hth eq_refl Hnb)
      as (th'' & Hth'' & Hr).
    simplify_eq.
    destruct (step_in_trace _ _ _ _ _ _ Hlock) as (tr1 & tr2 & Htr).
    destruct Hinv' as [_ Hok]. destruct (Hok _ _ Hth') as [_ Hdisc].
    rewrite Hr in Hdisc.
    revert Hshort Hf Htr. generalize (thread_trace t cs). intros tr Hshort Hf Htr.
    prefix_cases Hshort; cbn in Hf; simplify_eq.
    + by destruct tr1.
    + exists (LChildrenEmpty (bool_decide (children_ s' = ∅))).
      eapply exec_enabled; [done|by rewrite <- Hf|].
      rewrite Hr. simpl. by rewrite bool_decide_eq_true_2.
    + exists LUnlock. eapply exec_enabled; [done|by rewrite <- Hf|].
      rewrite Hr. simpl. rewrite <- Hf in Hdisc. simpl in Hdisc.
      destruct Hdisc as [Hheld _]. by rewrite Hheld.
    + symmetry in Hf. apply (returned_code _ _ _ (VBool true) Hth') in Hf.
      congruence.
Qed.

(** C3: a call of [wait] with a maximum duration that has returned has
    returned true iff a check of [children_], made with the lock held at
    the entry or after a wake-up that came before the duration elapsed,
    found the collection empty; when the duration elapses while the call
    is blocked, [timed_wait] gives false, no further check is made and the
    call returns false. *)
Theorem wait_timed_result (cs0 cs : list Choice) (s s' : State) (t : Tid)
    (maxWait : time_duration) (v : Value) :
  run cs0 init = Some s ->
  threads s !! t = Some (spawned (OpWait maxWait)) ->
  is_not_a_date_time maxWait = false ->
  run cs s = Some s' ->
  returned s' t = Some v ->
  (v = VBool true \/ v = VBool false)
  /\ (v = VBool true <-> LChildrenEmpty true ∈ thread_trace t cs)
  /\ (forall empty s1 s2,
        step_in s cs s1 (Exec t (LChildrenEmpty empty)) s2 ->
        mutex_ s1 = Some t /\ (empty = true <-> children_ s1 = ∅))
  /\ (Timeout t ∈ cs <-> LCondTimedWait maxWait false ∈ thread_trace t cs)
  /\ (Timeout t ∈ cs -> v = VBool false).
Proof.
  intros Hreach Hth Htimed Hrun Hv.
  assert (inv s) as Hinv by (eapply inv_run; [apply inv_init|done]).
  destruct (run_thread _ _ _ _ _ Hrun Hth) as (th' & Hth' & _ & Hf).
  simpl in Hf.
  destruct (wait_paths _ _ _ Hf) as (entry & signalled & empty' & _ & Hret).
  apply (returned_code _ _ _ _ Hth') in Hv.
  destruct (Hret v Hv) as [Htr ->].
  unfold wait_steps, wait_result in *. rewrite Htimed in *.
  assert (Timeout t ∈ cs <-> LCondTimedWait maxWait false ∈ thread_trace t cs)
    as Htimeout.
  { split.
    - intros Hin. destruct (elem_of_step_in _ _ _ _ Hrun Hin)
        as (s1 & s2 & pre & post & -> & Hpre & Hstep).
      destruct (timeout_inv _ _ _ Hstep) as (th1 & Hth1 & _ & Hw & Hth2).
      apply run_split in Hrun as (s1' & s2' & Hpre' & Hstep' & Hpost).
      assert (s1' = s1) by congruence. subst s1'.
      assert (s2' = s2) by congruence. subst s2'.
      destruct (woken_resumes _ _ _ _ _ false Hpost Hth2 eq_refl)
        as [[Hsame _]|(l & tr' & Hpt & Hl)].
      { rewrite Hth' in Hsame. simplify_eq. simpl in Hv.
        by rewrite Hv in Hw. }
      destruct Hl as [[_ ?]|[d ->]]; [done|].
      assert (LCondTimedWait d false ∈ thread_trace t (pre ++ Timeout t :: post))
        as Hin'.
      { rewrite thread_trace_app. simpl. rewrite Hpt.
        apply elem_of_app. right. by left. }
      pose proof Hin' as Hin''. rewrite Htr in Hin''.
      destruct entry, signalled, empty'; simpl in Hin''; elem_cases Hin'';
        exact Hin'.
    - intros Hin.
      destruct (trace_step_in _ _ _ _ _ Hrun Hin)
        as (s1 & s2 & pre & post & -> & Hpre & Hstep).
      apply exec_inv in Hstep as (th1 & p' & Hth1 & _ & Hen & _).
      simpl in Hen. apply andb_prop in Hen as [_ Hen].
      apply bool_decide_eq_true in Hen.
      apply elem_of_app. left.
      by eapply (woken_false_timed_out _ _ _ _ _ _ Hpre Hth Hth1). }
  split; [destruct entry, signalled, empty'; simpl; auto|].
  split; [|split; [|split; [done|]]].
  - rewrite Htr.
    destruct entry, signalled, empty'; simpl;
      (split; [intros Hx; first [discriminate Hx | elem_solve]
              |intros Hx; first [done | elem_cases Hx]]).
  - intros empty s1 s2 Hin. by eapply check_under_lock.
  - intros Hin. apply Htimeout in Hin. rewrite Htr in Hin.
    destruct entry, signalled, empty'; simpl in *; elem_cases Hin; done.
Qed.

(** C2, as stated, fails: in the run [wait_race] the call of [wait] without
    a maximum duration, made while child 0 is registered, returns false
    while child 1 is registered. *)
Lemma wait_untimed_claim_counterexample : ~ wait_untimed_claim.
Proof.
  intros Hclaim.
  destruct (Hclaim wait_race_before wait_race
              (state_after wait_race_before init)
              (state_after wait_race (state_after wait_race_before init))
              1 (state_after wait_race_before init)
              (state_after [Exec 1 LLock] (state_after wait_race_before init))
              (VBool false)) as [Hv _].
  - vm_compute. reflexivity.
  - vm_compute. reflexivity.
  - vm_compute. reflexivity.
  - exists [], (tail wait_race). split; [reflexivity|].
    split; vm_compute; reflexivity.
  - vm_compute. intros Hempty. discriminate Hempty.
  - vm_compute. reflexivity.
  - discriminate Hv.
Qed.

(** C2, amended: a call of [wait] without a maximum duration made while
    [children_] is not empty blocks on [noChildrenSignal_] once; when it
    has been woken and has returned, it has returned what its check of
    [children_], made with the lock held after the wake-up, found: true
    only if the collection was empty then, and in that case the collection
    is still empty when the call releases the lock. *)
Theorem wait_untimed_result (cs0 cs : list Choice) (s s' : State) (t : Tid)
    (maxWait : time_duration) (s1 s2 : State) (v : Value) :
  run cs0 init = Some s ->
  threads s !! t = Some (spawned (OpWait maxWait)) ->
  is_not_a_date_time maxWait = true ->
  run cs s = Some s' ->
  step_in s cs s1 (Exec t LLock) s2 ->
  children_ s1 <> ∅ ->
  returned s' t = Some v ->
  Block t ∈ cs
  /\ (exists empty',
        thread_trace t cs
        = [LLock; LChildrenEmpty false; LCondWait; LChildrenEmpty empty'; LUnlock]
        /\ v = VBool empty')
  /\ (forall empty s3 s4,
        step_in s cs s3 (Exec t (LChildrenEmpty empty)) s4 ->
        mutex_ s3 = Some t /\ (empty = true <-> children_ s3 = ∅))
  /\ (v = VBool true ->
      exists s3 s4, step_in s cs s3 (Exec t LUnlock) s4 /\ children_ s3 = ∅).
Proof.
  intros Hreach Hth Huntimed Hrun Hlock Hnonempty Hv.
  assert (inv s) as Hinv by (eapply inv_run; [apply inv_init|done]).
  destruct (run_thread _ _ _ _ _ Hrun Hth) as (th' & Hth' & _ & Hf).
  simpl in Hf.
  destruct (wait_paths _ _ _ Hf) as (entry & signalled & empty' & _ & Hret).
  apply (returned_code _ _ _ _ Hth') in Hv.
  destruct (Hret v Hv) as [Htr ->].
  unfold wait_steps, wait_result in *. rewrite Huntimed in *.
  assert (entry = false) as ->.
  { rewrite (wait_entry_check _ _ _ _ _ _ _ entry Hinv Hth Hrun Hlock)
      by (by rewrite Htr).
    by apply bool_decide_eq_false. }
  simpl in Htr.
  assert (forall empty s3 s4,
            step_in s cs s3 (Exec t (LChildrenEmpty empty)) s4 ->
            mutex_ s3 = Some t /\ (empty = true <-> children_ s3 = ∅)) as Hcheck.
  { intros empty s3 s4 Hin. by eapply check_under_lock. }
  split.
  { eapply (resumed_has_blocked _ _ _ _ _ LCondWait Hrun Hth); [done| |done].
    rewrite Htr. elem_solve. }
  split; [by exists empty'|]. split; [done|].
  intros [= ->].
  destruct (trace_step_in _ _ _ t (LChildrenEmpty true) Hrun)
    as (s3 & s4 & Hin); [rewrite Htr; elem_solve|].
  destruct (Hcheck _ _ _ Hin) as [Hm3 [Hempty3 _]].
  specialize (Hempty3 eq_refl).
  pose proof (step_in_inv _ _ _ _ _ Hinv Hin) as Hinv3.
  destruct Hin as (pre & post & -> & Hpre & Hstep).
  assert (inv s4) as Hinv4 by (by eapply inv_step).
  apply run_split in Hrun as (s3' & s4' & Hpre' & Hstep' & Hpost).
  assert (s3' = s3) by congruence. subst s3'.
  assert (s4' = s4) by congruence. subst s4'. clear Hpre' Hstep'.
  rewrite thread_trace_app in Htr. simpl in Htr.
  rewrite decide_True in Htr by done.
  destruct (run_thread _ _ _ _ _ Hpre Hth) as (th3 & Hth3 & _ & Hf3).
  assert (thread_trace t pre = [LLock; LChildrenEmpty false; LCondWait]
          /\ thread_trace t post = [LUnlock]) as [Hpre3 Hpost4].
  { destruct (thread_trace t pre) as [|a [|b [|c [|d [|e rest]]]]];
      simpl in Htr; simplify_eq; [done|].
    match goal with H : _ ++ _ :: _ = [] |- _ => by destruct rest end. }
  rewrite Hpre3 in Hf3. simpl in Hf3. cbn in Hf3. rewrite Huntimed in Hf3.
  cbn in Hf3. simplify_eq.
  pose proof (exec_children _ _ _ _ Hstep) as Hch4. simpl in Hch4.
  pose proof Hstep as Hstep0.
  apply exec_inv in Hstep0 as (th3' & p' & Hth3' & Hafter & Hen & Hs4).
  assert (th3' = th3) by congruence. subst th3'.
  rewrite <- Hf3 in Hafter. cbn in Hafter. simplify_eq.
  assert (threads
            (set_threads (effect s3 t (LChildrenEmpty true))
               (<[t:=set_code th3 (Vis EUnlock (fun _ => Ret (VBool true)))]>
                  (threads (effect s3 t (LChildrenEmpty true))))) !! t
          = Some (set_code th3 (Vis EUnlock (fun _ => Ret (VBool true)))))
    as Hth4.
  { simpl. apply list_lookup_insert_eq. by eapply lookup_lt_Some. }
  destruct (next_step_after _ _ _ _ _ _ _ Hpost Hth4 eq_refl eq_refl Hpost4)
    as (q & post' & s5 & s6 & p6 & -> & Hq & Hq5 & Hstep5 & _ & _ & _ & _ & _ & _
        & Hheld).
  destruct (Hheld Hinv4 Hm3) as [Hch5 _].
  exists s5, s6. split; [|by rewrite Hch5, Hch4].
  exists (pre ++ Exec t (LChildrenEmpty true) :: q), post'.
  split; [by rewrite <- app_assoc|]. split; [|done].
  by eapply run_join.
Qed.

(** ** The claims on the scenarios of the tests *)

Lemma notify_exactly_on_empty_reap_witness :
  threads reap_ready !! 1 = Some (spawned (OpWrapExitCallback 0 0 checkExitCode))
  /\ run (tail (echo_reaped 1 0 0)) reap_ready
     = Some (state_after (tail (echo_reaped 1 0 0)) reap_ready)
  /\ happens_before (LChildrenEmpty true) LNotifyAll
       (thread_trace 1 (tail (echo_reaped 1 0 0))).
Proof.
  split; [vm_compute; reflexivity|]. split; [vm_compute; reflexivity|].
  destruct (notify_exactly_on_empty_reap reap_ready
              (state_after (tail (echo_reaped 1 0 0)) reap_ready)
              (tail (echo_reaped 1 0 0)) 1
              (OpWrapExitCallback 0 0 checkExitCode))
    as (_ & _ & Hwrap); [vm_compute; reflexivity|vm_compute; reflexivity|].
  destruct (Hwrap 0 0%Z checkExitCode eq_refl) as [Hbefore _].
  exact Hbefore.
Defined.

Lemma wrapExitCallback_null_child_witness :
  threads (state_after [Spawn (OpWrapExitCallback 0 0 checkExitCode)] init) !! 0
  = Some (spawned (OpWrapExitCallback 0 0 checkExitCode))
  /\ run reap_unknown
       (state_after [Spawn (OpWrapExitCallback 0 0 checkExitCode)] init)
     = Some (state_after reap_unknown
               (state_after [Spawn (OpWrapExitCallback 0 0 checkExitCode)] init))
  /\ LWeakLock 0 None ∈ thread_trace 0 reap_unknown
  /\ forall l, l ∈ thread_trace 0 reap_unknown -> writes_children l = false.
Proof.
  assert (LWeakLock 0 None ∈ thread_trace 0 reap_unknown) as Hnull.
  { vm_compute. apply list_elem_of_In. right. left. reflexivity. }
  split; [vm_compute; reflexivity|]. split; [vm_compute; reflexivity|].
  split; [exact Hnull|].
  destruct (wrapExitCallback_null_child
              (state_after [Spawn (OpWrapExitCallback 0 0 checkExitCode)] init)
              (state_after reap_unknown
                 (state_after [Spawn (OpWrapExitCallback 0 0 checkExitCode)] init))
              reap_unknown 0 0 0%Z checkExitCode)
    as (Hw & _); [vm_compute; reflexivity|vm_compute; reflexivity|exact Hnull|].
  exact Hw.
Defined.

Lemma terminateAll_best_effort_witness :
  run (echo_launched 0 0 ++ echo_launched 1 1 ++ [Spawn OpTerminateAll]) init
  = Some two_children
  /\ threads two_children !! 2 = Some (spawned OpTerminateAll)
  /\ run terminate_two two_children = Some (state_after terminate_two two_children)
  /\ returned (state_after terminate_two two_children) 2 = Some VVoid
  /\ exists copy errors,
       length errors = length copy
       /\ thread_trace 2 terminate_two = terminateAll_steps copy errors
       /\ (forall pChild, pChild ∈ copy ->
             exists error, LTerminate pChild error ∈ thread_trace 2 terminate_two)
       /\ (forall pChild error,
             LTerminate pChild error ∈ thread_trace 2 terminate_two ->
             isError error = true ->
             LLogError error ∈ thread_trace 2 terminate_two).
Proof.
  split; [vm_compute; reflexivity|]. split; [vm_compute; reflexivity|].
  split; [vm_compute; reflexivity|]. split; [vm_compute; reflexivity|].
  destruct (terminateAll_best_effort
              (echo_launched 0 0 ++ echo_launched 1 1 ++ [Spawn OpTerminateAll])
              terminate_two two_children
              (state_after terminate_two two_children) 2)
    as (_ & _ & _ & Hret);
    [vm_compute; reflexivity|vm_compute; reflexivity|vm_compute; reflexivity|].
  destruct (Hret VVoid) as [_ Hall]; [vm_compute; reflexivity|].
  exact Hall.
Defined.

Lemma terminateAll_keeps_children_witness :
  run (echo_launched 0 0 ++ echo_launched 1 1 ++ [Spawn OpTerminateAll]) init
  = Some two_children
  /\ threads two_children !! 2 = Some (spawned OpTerminateAll)
  /\ run terminate_two two_children = Some (state_after terminate_two two_children)
  /\ children_ (state_after terminate_two two_children) = children_ two_children.
Proof.
  split; [vm_compute; reflexivity|]. split; [vm_compute; reflexivity|].
  split; [vm_compute; reflexivity|].
  destruct (terminateAll_keeps_children
              (echo_launched 0 0 ++ echo_launched 1 1 ++ [Spawn OpTerminateAll])
              terminate_two two_children
              (state_after terminate_two two_children) 2)
    as (_ & _ & _ & Hseq);
    [vm_compute; reflexivity|vm_compute; reflexivity|vm_compute; reflexivity|].
  apply Hseq. intros t' l s1 s2 Hne (pre & post & Hcs & _ & _).
  assert (Exec t' l ∈ terminate_two) as Hin.
  { rewrite Hcs. apply elem_of_app. right. by left. }
  unfold terminate_two in Hin.
  repeat (apply elem_of_cons in Hin as [Hin|Hin]; [by simplify_eq|]).
  by apply elem_of_nil in Hin.
Defined.

Lemma wait_empty_returns_at_once_witness :
  run [Spawn (OpWait five_seconds)] init
  = Some (state_after [Spawn (OpWait five_seconds)] init)
  /\ threads (state_after [Spawn (OpWait five_seconds)] init) !! 0
     = Some (spawned (OpWait five_seconds))
  /\ run wait_on_idle (state_after [Spawn (OpWait five_seconds)] init)
     = Some (state_after wait_on_idle
               (state_after [Spawn (OpWait five_seconds)] init))
  /\ children_ (state_after [Spawn (OpWait five_seconds)] init) = ∅
  /\ (Block 0 ∉ wait_on_idle)
  /\ forall v,
       returned (state_after wait_on_idle
                   (state_after [Spawn (OpWait five_seconds)] init)) 0 = Some v ->
       v = VBool true.
Proof.
  split; [vm_compute; reflexivity|]. split; [vm_compute; reflexivity|].
  split; [vm_compute; reflexivity|]. split; [vm_compute; reflexivity|].
  destruct (wait_empty_returns_at_once
              [Spawn (OpWait five_seconds)] wait_on_idle
              (state_after [Spawn (OpWait five_seconds)] init)
              (state_after wait_on_idle
                 (state_after [Spawn (OpWait five_seconds)] init))
              0 five_seconds
              (state_after [Spawn (OpWait five_seconds)] init)
              (state_after [Exec 0 LLock]
                 (state_after [Spawn (OpWait five_seconds)] init)))
    as (_ & Hnb & Hret & _);
    [vm_compute; reflexivity|vm_compute; reflexivity|vm_compute; reflexivity
    | |vm_compute; reflexivity|].
  - exists [], (tail wait_on_idle). split; [reflexivity|].
    split; vm_compute; reflexivity.
  - split; [exact Hnb|exact Hret].
Defined.

Lemma wait_timed_result_witness :
  run (echo_launched 0 0 ++ [Spawn (OpWait five_seconds)]) init
  = Some echo_then_wait
  /\ threads echo_then_wait !! 1 = Some (spawned (OpWait five_seconds))
  /\ is_not_a_date_time five_seconds = false
  /\ run wait_for_echo echo_then_wait
     = Some (state_after wait_for_echo echo_then_wait)
  /\ returned (state_after wait_for_echo echo_then_wait) 1 = Some (VBool true)
  /\ LChildrenEmpty true ∈ thread_trace 1 wait_for_echo.
Proof.
  split; [vm_compute; reflexivity|]. split; [vm_compute; reflexivity|].
  split; [reflexivity|]. split; [vm_compute; reflexivity|].
  split; [vm_compute; reflexivity|].
  destruct (wait_timed_result
              (echo_launched 0 0 ++ [Spawn (OpWait five_seconds)]) wait_for_echo
              echo_then_wait (state_after wait_for_echo echo_then_wait)
              1 five_seconds (VBool true))
    as (_ & Hiff & _);
    [vm_compute; reflexivity|vm_compute; reflexivity|reflexivity
    |vm_compute; reflexivity|vm_compute; reflexivity|].
  apply Hiff. reflexivity.
Defined.

Lemma wait_untimed_result_witness :
  run wait_race_before init = Some (state_after wait_race_before init)
  /\ threads (state_after wait_race_before init) !! 1
     = Some (spawned (OpWait not_a_date_time))
  /\ is_not_a_date_time not_a_date_time = true
  /\ run wait_race (state_after wait_race_before init)
     = Some (state_after wait_race (state_after wait_race_before init))
  /\ children_ (state_after wait_race_before init) <> ∅
  /\ returned (state_after wait_race (state_after wait_race_before init)) 1
     = Some (VBool false)
  /\ Block 1 ∈ wait_race.
Proof.
  split; [vm_compute; reflexivity|]. split; [vm_compute; reflexivity|].
  split; [reflexivity|]. split; [vm_compute; reflexivity|].
  assert (children_ (state_after wait_race_before init) <> ∅) as Hne.
  { vm_compute. intros Hempty. discriminate Hempty. }
  split; [exact Hne|]. split; [vm_compute; reflexivity|].
  destruct (wait_untimed_result
              wait_race_before wait_race
              (state_after wait_race_before init)
              (state_after wait_race (state_after wait_race_before init))
              1 not_a_date_time
              (state_after wait_race_before init)
              (state_after [Exec 1 LLock] (state_after wait_race_before init))
              (VBool false))
    as (Hblock & _);
    [vm_compute; reflexivity|vm_compute; reflexivity|reflexivity
    |vm_compute; reflexivity| |exact Hne|vm_compute; reflexivity|].
  - exists [], (tail wait_race). split; [reflexivity|].
    split; vm_compute; reflexivity.
  - exact Hblock.
Defined.

(** ** The locking discipline in every run *)

(** In every state that the supervisor can reach, a thread that calls out
    of the supervisor ([new], [run], [terminate], the log, the caller's
    [onExit]) does not hold [mutex_], and a thread that has returned from
    a member function does not hold it either. *)
Theorem calls_made_without_lock (cs : list Choice) (s : State) :
  run cs init = Some s ->
  (forall t l s', step s (Exec t l) = Some s' -> calls_out l = true ->
     mutex_ s <> Some t)
  /\ (forall t v, returned s t = Some v -> mutex_ s <> Some t).
Proof.
  intros Hrun.
  assert (inv s) as Hinv by (eapply inv_run; [apply inv_init|done]).
  split.
  - intros t l s' Hstep Hout.
    destruct (exec_lock_state _ _ _ _ Hinv Hstep) as [_ Hno]. by apply Hno.
  - intros t v Hret Hm. unfold returned in Hret.
    destruct (threads s !! t) as [th|] eqn:Hth; [|done].
    destruct Hinv as [_ Hok]. destruct (Hok _ _ Hth) as [_ Hst].
    destruct th as [o c st]. simpl in *. destruct c as [v'|]; [|done].
    destruct st; simpl in Hst.
    + by rewrite bool_decide_eq_true_2 in Hst.
    + by destruct Hst.
    + by destruct Hst.
Qed.

Lemma calls_made_without_lock_witness :
  run before_callback init = Some (state_after before_callback init)
  /\ step (state_after before_callback init) (Exec 1 (LCallOnExit checkExitCode 0))
     = Some (state_after [Exec 1 (LCallOnExit checkExitCode 0)]
               (state_after before_callback init))
  /\ mutex_ (state_after before_callback init) <> Some 1.
Proof.
  split; [vm_compute; reflexivity|]. split; [vm_compute; reflexivity|].
  destruct (calls_made_without_lock before_callback
              (state_after before_callback init)) as [Hcall _];
    [vm_compute; reflexivity|].
  apply (Hcall 1 (LCallOnExit checkExitCode 0)
           (state_after [Exec 1 (LCallOnExit checkExitCode 0)]
              (state_after before_callback init)));
    [vm_compute; reflexivity|reflexivity].
Defined.

(** In every state that the supervisor can reach, a thread reads or
    writes [children_] only while it holds [mutex_]; and while a thread
    holds [mutex_], nothing that another thread or the scheduler does
    changes [children_] or takes the mutex from it. *)
Theorem children_accessed_under_lock (cs : list Choice) (s : State) :
  run cs init = Some s ->
  (forall t l s', step s (Exec t l) = Some s' -> touches_children l = true ->
     mutex_ s = Some t)
  /\ (forall t c s', mutex_ s = Some t -> acts_on c t = false ->
        step s c = Some s' ->
        children_ s' = children_ s /\ mutex_ s' = Some t).
Proof.
  intros Hrun.
  assert (inv s) as Hinv by (eapply inv_run; [apply inv_init|done]).
  split.
  - intros t l s' Hstep Htouch.
    destruct (exec_lock_state _ _ _ _ Hinv Hstep) as [Hunder _]. by apply Hunder.
  - intros t c s' Hm Hact Hstep. by eapply step_other.
Qed.

Lemma children_accessed_under_lock_witness :
  run before_erase init = Some (state_after before_erase init)
  /\ step (state_after before_erase init) (Exec 1 (LChildrenErase 0))
     = Some (state_after [Exec 1 (LChildrenErase 0)]
               (state_after before_erase init))
  /\ mutex_ (state_after before_erase init) = Some 1.
Proof.
  split; [vm_compute; reflexivity|]. split; [vm_compute; reflexivity|].
  destruct (children_accessed_under_lock before_erase
              (state_after before_erase init)) as [Hacc _];
    [vm_compute; reflexivity|].
  apply (Hacc 1 (LChildrenErase 0)
           (state_after [Exec 1 (LChildrenErase 0)]
              (state_after before_erase init)));
    [vm_compute; reflexivity|reflexivity].
Defined.

(** In every state that the supervisor can reach, the thread that holds
    [mutex_] can go on: its next primitive can be done at once, or it is
    at a wait and can release the mutex and block.  No thread holds the
    mutex while it is stuck. *)
Theorem lock_holder_can_proceed (cs : list Choice) (s : State) (t : Tid) :
  run cs init = Some s ->
  mutex_ s = Some t ->
  exists c s', acts_on c t = true /\ step s c = Some s'.
Proof.
  intros Hrun Hm.
  assert (inv s) as [Hlen Hok] by (eapply inv_run; [apply inv_init|done]).
  destruct (lookup_lt_is_Some_2 (threads s) t (Hlen _ Hm)) as [th Hth].
  destruct (Hok _ _ Hth) as [_ Hst].
  destruct (status th) eqn:Hs; [|by destruct Hst..].
  rewrite bool_decide_eq_true_2 in Hst by done.
  assert (forall l p', after (code th) l = Some p' ->
            enabled s t Ready l = true ->
            exists c s', acts_on c t = true /\ step s c = Some s') as Hexec.
  { intros l p' Ha He. rewrite <- Hs in He.
    destruct (exec_enabled _ _ _ _ _ Hth Ha He) as [s' Hs'].
    exists (Exec t l), s'. split; [|done]. simpl. by apply bool_decide_eq_true. }
  assert (is_wait (code th) = true ->
          exists c s', acts_on c t = true /\ step s c = Some s') as Hblock.
  { intros Hw. exists (Block t). eexists. split.
    - simpl. by apply bool_decide_eq_true.
    - simpl. rewrite Hth. simpl. rewrite Hs, Hw.
      rewrite !bool_decide_eq_true_2 by done. simpl. reflexivity. }
  destruct (code th) as [v|X e k] eqn:Hc; [done|].
  destruct e; simpl in Hst; try (by destruct Hst); try (by apply Hblock).
  - eapply (Hexec LUnlock); [reflexivity|]. simpl.
    by rewrite !bool_decide_eq_true_2.
  - eapply (Hexec (LChildrenEmpty (bool_decide (children_ s = ∅))));
      [reflexivity|]. simpl. by rewrite !bool_decide_eq_true_2.
  - eapply (Hexec (LChildrenCopy (elements (children_ s)))); [reflexivity|].
    simpl.
    rewrite !bool_decide_eq_true_2;
      first [done | apply NoDup_elements | apply list_to_set_elements_L].
  - eapply (Hexec (LChildrenInsert pChild)); [|done]. simpl.
    by rewrite decide_True.
  - eapply (Hexec (LChildrenErase child)); [|done]. simpl.
    by rewrite decide_True.
  - eapply (Hexec (LWeakLock pChild (Some pChild))).
    + simpl. by rewrite decide_True.
    + simpl. by rewrite !bool_decide_eq_true_2.
  - eapply (Hexec LNotifyAll); [reflexivity|done].
Qed.

Lemma lock_holder_can_proceed_witness :
  run before_erase init = Some (state_after before_erase init)
  /\ mutex_ (state_after before_erase init) = Some 1
  /\ exists c s', acts_on c 1 = true
       /\ step (state_after before_erase init) c = Some s'.
Proof.
  split; [vm_compute; reflexivity|]. split; [vm_compute; reflexivity|].
  apply (lock_holder_can_proceed before_erase (state_after before_erase init) 1);
    vm_compute; reflexivity.
Defined.

(** ** The queries *)

(** [hasRunningChildren] tells whether [children_] was non-empty at the
    moment the call took the lock: a call that has returned has made one
    check under that lock, has returned its negation, and has not
    blocked. *)
Theorem hasRunningChildren_snapshot (cs0 cs : list Choice) (s s' : State)
    (t : Tid) (s1 s2 : State) (v : Value) :
  run cs0 init = Some s ->
  threads s !! t = Some (spawned OpHasRunningChildren) ->
  run cs s = Some s' ->
  step_in s cs s1 (Exec t LLock) s2 ->
  returned s' t = Some v ->
  v = VBool (negb (bool_decide (children_ s1 = ∅)))
  /\ thread_trace t cs
     = [LLock; LChildrenEmpty (bool_decide (children_ s1 = ∅)); LUnlock]
  /\ (Block t ∉ cs).
Proof.
  intros Hreach Hth Hrun Hlock Hv.
  assert (inv s) as Hinv by (eapply inv_run; [apply inv_init|done]).
  destruct (run_thread _ _ _ _ _ Hrun Hth) as (th' & Hth' & _ & Hf).
  apply (returned_code _ _ _ _ Hth') in Hv. rewrite Hv in Hf. simpl in Hf.
  assert (exists empty, thread_trace t cs = [LLock; LChildrenEmpty empty; LUnlock]
                        /\ v = VBool (negb empty)) as (empty & Htr & ->).
  { revert Hf. generalize (thread_trace t cs). intros tr Hf.
    cbn in Hf. path_cases Hf; simplify_eq; eauto. }
  assert (Block t ∉ cs) as Hnb.
  { intros Hin. destruct (elem_of_step_in _ _ _ _ Hrun Hin) as (sa & sb & Hb).
    destruct (block_at_wait _ _ _ _ _ _ Hth Hb) as (tr1 & p & Hp1 & Hfp & Hw).
    rewrite Htr in Hp1. simpl in Hfp.
    prefix_cases Hp1; cbn in Hfp; simplify_eq; done. }
  pose proof Htr as Hfull.
  destruct Hlock as (pre & post & -> & Hpre & Hstep).
  assert (inv s1) as Hinv1 by (by eapply inv_run).
  assert (inv s2) as Hinv2 by (by eapply inv_step).
  apply run_split in Hrun as (s1' & s2' & Hpre' & Hstep' & Hpost).
  assert (s1' = s1) by congruence. subst s1'.
  assert (s2' = s2) by congruence. subst s2'. clear Hpre' Hstep'.
  rewrite thread_trace_app in Htr. simpl in Htr.
  rewrite decide_True in Htr by done.
  assert (thread_trace t pre = []
          /\ thread_trace t post = [LChildrenEmpty empty; LUnlock])
    as [Hpre0 Hpost0].
  { destruct (thread_trace t pre) as [|a [|b [|c [|d rest]]]];
      simpl in Htr; by simplify_eq. }
  destruct (run_thread _ _ _ _ _ Hpre Hth) as (th1 & Hth1 & _ & Hf1).
  rewrite Hpre0 in Hf1. simpl in Hf1. simplify_eq.
  pose proof (exec_children _ _ _ _ Hstep) as Hch2. simpl in Hch2.
  pose proof Hstep as Hstep0.
  apply exec_inv in Hstep0 as (th1' & p' & Hth1' & Hafter & Hen & Hs2).
  assert (th1' = th1) by congruence. subst th1'.
  rewrite <- Hf1 in Hafter. cbn in Hafter. simplify_eq.
  match type of Hpost with
  | run post (set_threads ?e (<[t:=?th2]> ?ths)) = _ =>
      assert (threads (set_threads e (<[t:=th2]> ths)) !! t = Some th2) as Hth2
  end.
  { simpl. apply list_lookup_insert_eq. by eapply lookup_lt_Some. }
  destruct (next_step_after _ _ _ _ _ _ _ Hpost Hth2 eq_refl eq_refl Hpost0)
    as (q & post' & s3 & s4 & p4 & -> & Hq & Hq3 & Hstep3 & _ & _ & _ & _ & Hen3
        & _ & Hheld).
  destruct (Hheld Hinv2 eq_refl) as [Hch3 _].
  simpl in Hen3. apply bool_decide_eq_true in Hen3.
  rewrite Hch3, Hch2 in Hen3. rewrite <- Hen3. done.
Qed.

Lemma hasRunningChildren_snapshot_witness :
  run ask_running_before init = Some (state_after ask_running_before init)
  /\ threads (state_after ask_running_before init) !! 1
     = Some (spawned OpHasRunningChildren)
  /\ run ask_running (state_after ask_running_before init)
     = Some (state_after ask_running (state_after ask_running_before init))
  /\ returned (state_after ask_running (state_after ask_running_before init)) 1
     = Some (VBool true)
  /\ VBool true
     = VBool (negb (bool_decide
                      (children_ (state_after ask_running_before init) = ∅))).
Proof.
  split; [vm_compute; reflexivity|]. split; [vm_compute; reflexivity|].
  split; [vm_compute; reflexivity|]. split; [vm_compute; reflexivity|].
  destruct (hasRunningChildren_snapshot
              ask_running_before ask_running
              (state_after ask_running_before init)
              (state_after ask_running (state_after ask_running_before init))
              1 (state_after ask_running_before init)
              (state_after [Exec 1 LLock] (state_after ask_running_before init))
              (VBool true))
    as (Hv & _);
    [vm_compute; reflexivity|vm_compute; reflexivity|vm_compute; reflexivity
    | |vm_compute; reflexivity|exact Hv].
  exists [], (tail ask_running). split; [reflexivity|].
  split; vm_compute; reflexivity.
Defined.

(** [wait] and [hasRunningChildren] only ask: none of their steps writes
    [children_], notifies [noChildrenSignal_] or calls out of the
    supervisor, and each of their steps leaves [children_] and the other
    threads as it found them. *)
Theorem queries_read_only (s s' : State) (cs : list Choice) (t : Tid) (o : Op) :
  threads s !! t = Some (spawned o) ->
  is_query o = true ->
  run cs s = Some s' ->
  (forall l, l ∈ thread_trace t cs ->
     writes_children l = false /\ l <> LNotifyAll /\ calls_out l = false)
  /\ (forall l s1 s2,
        step_in s cs s1 (Exec t l) s2 ->
        children_ s2 = children_ s1
        /\ next_child s2 = next_child s1
        /\ forall t', t' <> t -> threads s2 !! t' = threads s1 !! t').
Proof.
  intros Hth Hq Hrun.
  destruct (run_thread _ _ _ _ _ Hrun Hth) as (th' & _ & _ & Hf).
  simpl in Hf.
  assert (forall l, l ∈ thread_trace t cs ->
            writes_children l = false /\ l <> LNotifyAll /\ calls_out l = false)
    as Hown.
  { revert Hf. generalize (thread_trace t cs) (code th'). intros tr p' Hf l Hl.
    destruct o; try done.
    - cbn in Hf. path_cases Hf; simplify_eq; elem_cases Hl; done.
    - destruct (wait_paths _ _ _ Hf) as (entry & signalled & empty' & Hpre & _).
      apply (elem_of_prefix _ _ _ Hpre) in Hl. unfold wait_steps in Hl.
      destruct entry, (is_not_a_date_time maxWait), signalled; simpl in Hl;
        elem_cases Hl; done. }
  split; [done|].
  intros l s1 s2 Hin.
  destruct (step_in_trace _ _ _ _ _ _ Hin) as (tr1 & tr2 & Htr).
  destruct (Hown l) as (Hw & Hn & Hc).
  { rewrite Htr. apply elem_of_app. right. by left. }
  destruct Hin as (_ & _ & _ & _ & Hstep).
  split; [|split].
  - rewrite (exec_children _ _ _ _ Hstep). by destruct l.
  - by eapply exec_next_child.
  - intros t' Hne. by eapply exec_other_threads.
Qed.

Lemma queries_read_only_witness :
  threads (state_after ask_running_before init) !! 1
  = Some (spawned OpHasRunningChildren)
  /\ is_query OpHasRunningChildren = true
  /\ run ask_running (state_after ask_running_before init)
     = Some (state_after ask_running (state_after ask_running_before init))
  /\ forall l, l ∈ thread_trace 1 ask_running ->
       writes_children l = false /\ l <> LNotifyAll /\ calls_out l = false.
Proof.
  split; [vm_compute; reflexivity|]. split; [reflexivity|].
  split; [vm_compute; reflexivity|].
  destruct (queries_read_only
              (state_after ask_running_before init)
              (state_after ask_running (state_after ask_running_before init))
              ask_running 1 OpHasRunningChildren)
    as [Hown _]; [vm_compute; reflexivity|reflexivity|vm_compute; reflexivity|].
  exact Hown.
Defined.

(** ** The caller's exit callback *)

(** The reaping wrapper calls nothing but the [onExit] it was bound to,
    with the exit code it was given, and only if that [onExit] is set; a
    wrapper that has returned has called it exactly once if it is set, and
    not at all if it is empty. *)
Theorem onExit_called_once (s s' : State) (cs : list Choice) (t : Tid)
    (pChild : weak_ptr) (exitCode : Z) (onExit : ExitFn) :
  threads s !! t = Some (spawned (OpWrapExitCallback pChild exitCode onExit)) ->
  run cs s = Some s' ->
  (forall f c, LCallOnExit f c ∈ thread_trace t cs ->
     f = onExit /\ c = exitCode /\ exitFnIsSet onExit = true)
  /\ (forall v, returned s' t = Some v ->
        v = VVoid
        /\ length (List.filter is_onExit_call (thread_trace t cs))
           = if exitFnIsSet onExit then 1 else 0).
Proof.
  intros Hth Hrun.
  destruct (run_thread _ _ _ _ _ Hrun Hth) as (th' & Hth' & _ & Hf).
  simpl in Hf.
  destruct (wrapExitCallback_paths _ _ _ _ _ Hf) as (child & empty & Hpre & Hret).
  split.
  - intros f c Hin. apply (elem_of_prefix _ _ _ Hpre) in Hin.
    unfold wrapExitCallback_steps in Hin.
    destruct child, empty, (exitFnIsSet onExit); simpl in Hin;
      elem_cases Hin; done.
  - intros v Hv. apply (returned_code _ _ _ _ Hth') in Hv.
    destruct (Hret v Hv) as [-> ->]. split; [done|].
    unfold wrapExitCallback_steps.
    by destruct child, empty, (exitFnIsSet onExit).
Qed.

Lemma onExit_called_once_witness :
  threads reap_ready !! 1 = Some (spawned (OpWrapExitCallback 0 0 checkExitCode))
  /\ run (tail (echo_reaped 1 0 0)) reap_ready
     = Some (state_after (tail (echo_reaped 1 0 0)) reap_ready)
  /\ returned (state_after (tail (echo_reaped 1 0 0)) reap_ready) 1 = Some VVoid
  /\ length (List.filter is_onExit_call (thread_trace 1 (tail (echo_reaped 1 0 0))))
     = 1.
Proof.
  split; [vm_compute; reflexivity|]. split; [vm_compute; reflexivity|].
  split; [vm_compute; reflexivity|].
  destruct (onExit_called_once reap_ready
              (state_after (tail (echo_reaped 1 0 0)) reap_ready)
              (tail (echo_reaped 1 0 0)) 1 0 0%Z checkExitCode)
    as [_ Hret]; [vm_compute; reflexivity|vm_compute; reflexivity|].
  destruct (Hret VVoid) as [_ Hone]; [vm_compute; reflexivity|].
  exact Hone.
Defined.

(** ** The targets of [terminateAll] *)

(** [terminateAll] calls [terminate] only on handles of its copy, that
    is, on children that were registered when the copy was made; a call
    that has returned has called it on the handles of the copy in the
    order in which the copy is gone through, once each, and these are the
    children that were registered when the copy was made. *)
Theorem terminateAll_only_snapshot (s s' : State) (cs : list Choice) (t : Tid) :
  threads s !! t = Some (spawned OpTerminateAll) ->
  run cs s = Some s' ->
  (forall copy s1 s2 pChild error,
     step_in s cs s1 (Exec t (LChildrenCopy copy)) s2 ->
     LTerminate pChild error ∈ thread_trace t cs ->
     pChild ∈ children_ s1)
  /\ (forall v, returned s' t = Some v ->
        exists copy s1 s2,
          step_in s cs s1 (Exec t (LChildrenCopy copy)) s2
          /\ omap terminated (thread_trace t cs) = copy
          /\ NoDup (omap terminated (thread_trace t cs))
          /\ forall pChild,
               pChild ∈ omap terminated (thread_trace t cs)
               <-> pChild ∈ children_ s1).
Proof.
  intros Hth Hrun.
  destruct (run_thread _ _ _ _ _ Hrun Hth) as (th' & Hth' & _ & Hf).
  simpl in Hf.
  destruct (terminateAll_paths _ _ Hf) as (copy & errors & Hlen & Hpre & Hret).
  split.
  - intros copy' s1 s2 pChild error Hin Hterm.
    destruct (step_in_trace _ _ _ _ _ _ Hin) as (tr1 & tr2 & Htr).
    assert (LChildrenCopy copy' ∈ terminateAll_steps copy errors) as Hc.
    { apply (elem_of_prefix _ _ _ Hpre). rewrite Htr.
      apply elem_of_app. right. by left. }
    apply terminateAll_steps_elem in Hc
      as [?|[?|[?|[(h & e & ?)|(e & ?)]]]]; simplify_eq.
    destruct Hin as (_ & _ & _ & _ & Hstep).
    destruct (exec_copy _ _ _ _ Hstep) as [_ <-].
    apply (elem_of_prefix _ _ _ Hpre) in Hterm. unfold terminateAll_steps in Hterm.
    apply elem_of_app in Hterm as [Hterm|Hterm]; [elem_cases Hterm|].
    destruct (terminate_steps_logged _ _ _ Hterm) as [Hzip _].
    apply elem_of_zip_l in Hzip. by apply elem_of_list_to_set.
  - intros v Hv. apply (returned_code _ _ _ _ Hth') in Hv.
    destruct (Hret v Hv) as [Htr _].
    destruct (trace_step_in _ _ _ t (LChildrenCopy copy) Hrun)
      as (s1 & s2 & Hin).
    { rewrite Htr. unfold terminateAll_steps. elem_solve. }
    exists copy, s1, s2. split; [done|].
    destruct Hin as (_ & _ & _ & _ & Hstep).
    destruct (exec_copy _ _ _ _ Hstep) as [Hnd Hset].
    rewrite Htr. unfold terminateAll_steps.
    rewrite omap_app, (terminate_steps_handles _ _ Hlen). simpl.
    split; [done|]. split; [done|].
    intros pChild. by rewrite <- Hset, elem_of_list_to_set.
Qed.

Lemma terminateAll_only_snapshot_witness :
  threads two_children !! 2 = Some (spawned OpTerminateAll)
  /\ run terminate_two two_children = Some (state_after terminate_two two_children)
  /\ returned (state_after terminate_two two_children) 2 = Some VVoid
  /\ exists copy s1 s2,
       step_in two_children terminate_two s1 (Exec 2 (LChildrenCopy copy)) s2
       /\ omap terminated (thread_trace 2 terminate_two) = copy
       /\ NoDup (omap terminated (thread_trace 2 terminate_two))
       /\ forall pChild,
            pChild ∈ omap terminated (thread_trace 2 terminate_two)
            <-> pChild ∈ children_ s1.
Proof.
  split; [vm_compute; reflexivity|]. split; [vm_compute; reflexivity|].
  split; [vm_compute; reflexivity|].
  destruct (terminateAll_only_snapshot two_children
              (state_after terminate_two two_children) terminate_two 2)
    as [_ Hret]; [vm_compute; reflexivity|vm_compute; reflexivity|].
  apply (Hret VVoid). vm_compute. reflexivity.
Defined.

(** ** Launching *)

(** The steps of a launch by [runProgram] or [runCommand]: it creates one
    new child from exactly what it was given, starts that child with the
    callbacks whose [onExit] is the wrapper bound to that child, registers
    that same child if the start succeeded, and returns what the start
    returned. *)
Theorem launch_follows_steps (s s' : State) (cs : list Choice) (t : Tid)
    (o : Op) (spec : ChildSpec) (callbacks : ProcessCallbacks) :
  threads s !! t = Some (spawned o) ->
  launch_spec o = Some spec ->
  launch_callbacks o = Some callbacks ->
  run cs s = Some s' ->
  (exists pChild error,
     thread_trace t cs `prefix_of` launch_steps spec callbacks pChild error
     /\ forall v, returned s' t = Some v ->
          thread_trace t cs = launch_steps spec callbacks pChild error
          /\ v = VError error)
  /\ (forall spec' pChild s1 s2,
        step_in s cs s1 (Exec t (LNewChild spec' pChild)) s2 ->
        spec' = spec /\ pChild = next_child s1 /\ next_child s2 = S pChild).
Proof.
  intros Hth Hspec Hcb Hrun.
  destruct (run_thread _ _ _ _ _ Hrun Hth) as (th' & Hth' & _ & Hf).
  simpl in Hf.
  destruct (launch_paths _ _ _ _ _ Hspec Hcb Hf) as (h & e & Hpre & Hret).
  split.
  - exists h, e. split; [done|]. intros v Hv.
    apply (returned_code _ _ _ _ Hth') in Hv. by apply Hret.
  - intros spec' pChild s1 s2 Hin.
    destruct (step_in_trace _ _ _ _ _ _ Hin) as (tr1 & tr2 & Htr).
    assert (LNewChild spec' pChild ∈ launch_steps spec callbacks h e) as Hl.
    { apply (elem_of_prefix _ _ _ Hpre). rewrite Htr.
      apply elem_of_app. right. by left. }
    unfold launch_steps in Hl.
    assert (spec' = spec) as ->.
    { destruct (isError e); simpl in Hl; elem_cases Hl; done. }
    split; [done|]. destruct Hin as (_ & _ & _ & _ & Hstep).
    apply exec_inv in Hstep as (th1 & p' & _ & _ & Hen & ->).
    simpl in Hen. apply andb_prop in Hen as [_ Hen].
    apply bool_decide_eq_true in Hen. done.
Qed.

Lemma launch_follows_steps_witness :
  threads (set_threads init [spawned run_echo]) !! 0 = Some (spawned run_echo)
  /\ launch_spec run_echo = Some (Program "/bin/echo" echo_args test_options)
  /\ launch_callbacks run_echo = Some test_callbacks
  /\ run (tail (echo_launched 0 0)) (set_threads init [spawned run_echo])
     = Some (state_after (tail (echo_launched 0 0))
               (set_threads init [spawned run_echo]))
  /\ exists pChild error,
       thread_trace 0 (tail (echo_launched 0 0))
       `prefix_of` launch_steps (Program "/bin/echo" echo_args test_options)
                     test_callbacks pChild error
       /\ forall v,
            returned (state_after (tail (echo_launched 0 0))
                        (set_threads init [spawned run_echo])) 0 = Some v ->
            thread_trace 0 (tail (echo_launched 0 0))
            = launch_steps (Program "/bin/echo" echo_args test_options)
                test_callbacks pChild error
            /\ v = VError error.
Proof.
  split; [reflexivity|]. split; [reflexivity|]. split; [reflexivity|].
  split; [vm_compute; reflexivity|].
  destruct (launch_follows_steps (set_threads init [spawned run_echo])
              (state_after (tail (echo_launched 0 0))
                 (set_threads init [spawned run_echo]))
              (tail (echo_launched 0 0)) 0 run_echo
              (Program "/bin/echo" echo_args test_options) test_callbacks)
    as [Hsteps _];
    [reflexivity|reflexivity|reflexivity|vm_compute; reflexivity|].
  exact Hsteps.
Defined.

(** A launch that has returned success has registered its child, and the
    child is registered at the moment the launch releases the lock. *)
Theorem launch_success_registered (cs0 cs : list Choice) (s s' : State) (t : Tid)
    (o : Op) (spec : ChildSpec) (callbacks : ProcessCallbacks) :
  run cs0 init = Some s ->
  threads s !! t = Some (spawned o) ->
  launch_spec o = Some spec ->
  launch_callbacks o = Some callbacks ->
  run cs s = Some s' ->
  returned s' t = Some (VError Success) ->
  exists pChild s3 s4,
    LChildrenInsert pChild ∈ thread_trace t cs
    /\ step_in s cs s3 (Exec t LUnlock) s4
    /\ pChild ∈ children_ s3 /\ pChild ∈ children_ s4.
Proof.
  intros Hreach Hth Hspec Hcb Hrun Hv.
  assert (inv s) as Hinv by (eapply inv_run; [apply inv_init|done]).
  destruct (run_thread _ _ _ _ _ Hrun Hth) as (th' & Hth' & _ & Hf).
  simpl in Hf.
  destruct (launch_paths _ _ _ _ _ Hspec Hcb Hf) as (h & e & _ & Hret).
  apply (returned_code _ _ _ _ Hth') in Hv.
  destruct (Hret _ Hv) as [Htr [= <-]].
  unfold launch_steps in Htr. simpl in Htr.
  assert (LChildrenInsert h ∈ thread_trace t cs) as Hins
    by (rewrite Htr; elem_solve).
  exists h.
  destruct (trace_step_in _ _ _ _ _ Hrun Hins) as (s1 & s2 & Hin).
  pose proof (step_in_inv _ _ _ _ _ Hinv Hin) as Hinv1.
  destruct Hin as (pre & post & -> & Hpre & Hstep).
  destruct (exec_lock_state _ _ _ _ Hinv1 Hstep) as [Hunder _].
  specialize (Hunder eq_refl).
  pose proof (exec_mutex _ _ _ _ Hstep) as Hm2. simpl in Hm2.
  pose proof (exec_children _ _ _ _ Hstep) as Hch2. simpl in Hch2.
  pose proof Hrun as Hrun0.
  apply run_split in Hrun0 as (s1' & s2' & Hpre' & Hstep' & Hpost).
  assert (s1' = s1) by congruence. subst s1'.
  assert (s2' = s2) by congruence. subst s2'. clear Hpre' Hstep'.
  pose proof Htr as Htr0.
  rewrite thread_trace_app in Htr0. simpl in Htr0.
  rewrite decide_True in Htr0 by done.
  assert (thread_trace t post = [LUnlock]) as Hpost1.
  { destruct (thread_trace t pre) as [|a [|b [|c [|d [|e' rest]]]]];
      simpl in Htr0; simplify_eq; [done|].
    match goal with H : _ ++ _ :: _ = [] |- _ => by destruct rest end. }
  destruct (critical_section_step pre post s s1 s2 s' t
              (LChildrenInsert h) LUnlock [] Hinv Hpre Hstep Hpost)
    as (s3 & s4 & Hin3 & Hch3 & _ & _); [congruence|done|done|].
  exists s3, s4. split; [done|]. split; [done|].
  assert (h ∈ children_ s3) as Hreg.
  { rewrite Hch3, Hch2. apply elem_of_union. left. by apply elem_of_singleton. }
  split; [done|].
  destruct Hin3 as (_ & _ & _ & _ & Hstep3).
  by rewrite (exec_children _ _ _ _ Hstep3).
Qed.

Lemma launch_success_registered_witness :
  run [Spawn run_echo] init = Some (set_threads init [spawned run_echo])
  /\ threads (set_threads init [spawned run_echo]) !! 0 = Some (spawned run_echo)
  /\ run (tail (echo_launched 0 0)) (set_threads init [spawned run_echo])
     = Some (state_after (tail (echo_launched 0 0))
               (set_threads init [spawned run_echo]))
  /\ returned (state_after (tail (echo_launched 0 0))
                 (set_threads init [spawned run_echo])) 0
     = Some (VError Success)
  /\ exists pChild s3 s4,
       LChildrenInsert pChild ∈ thread_trace 0 (tail (echo_launched 0 0))
       /\ step_in (set_threads init [spawned run_echo])
            (tail (echo_launched 0 0)) s3 (Exec 0 LUnlock) s4
       /\ pChild ∈ children_ s3 /\ pChild ∈ children_ s4.
Proof.
  split; [reflexivity|]. split; [reflexivity|].
  split; [vm_compute; reflexivity|]. split; [vm_compute; reflexivity|].
  apply (launch_success_registered [Spawn run_echo] (tail (echo_launched 0 0))
           (set_threads init [spawned run_echo])
           (state_after (tail (echo_launched 0 0))
              (set_threads init [spawned run_echo]))
           0 run_echo (Program "/bin/echo" echo_args test_options)
           test_callbacks);
    first [reflexivity | vm_compute; reflexivity].
Defined.

(** ** Registration and reaping *)

(** A registered child stays registered until a reaping wrapper bound to
    that very child erases it: nothing else removes a handle from
    [children_]. *)
Theorem registered_until_reaped (cs0 cs : list Choice) (s s' : State)
    (pChild : Handle) :
  run cs0 init = Some s ->
  run cs s = Some s' ->
  pChild ∈ children_ s ->
  pChild ∈ children_ s'
  \/ exists t th exitCode onExit s1 s2,
       step_in s cs s1 (Exec t (LChildrenErase pChild)) s2
       /\ threads s1 !! t = Some th
       /\ op th = OpWrapExitCallback pChild exitCode onExit.
Proof.
  intros Hreach Hrun Hin.
  destruct (run_children_erased _ _ _ _ Hrun Hin) as [?|(t & s1 & s2 & Hs)];
    [by left|right].
  pose proof Hs as (pre & post & -> & Hpre & Hstep).
  assert (run (cs0 ++ pre) init = Some s1) as Hreach1.
  { rewrite run_app, Hreach. done. }
  destruct (erase_own_child _ _ _ _ _ Hreach1 Hstep) as (th & c & f & Hth & Hop).
  by exists t, th, c, f, s1, s2.
Qed.

Lemma registered_until_reaped_witness :
  run (echo_launched 0 0) init = Some (state_after (echo_launched 0 0) init)
  /\ run (echo_reaped 1 0 0) (state_after (echo_launched 0 0) init)
     = Some (state_after (echo_reaped 1 0 0)
               (state_after (echo_launched 0 0) init))
  /\ 0 ∈ children_ (state_after (echo_launched 0 0) init)
  /\ (0 ∈ children_ (state_after (echo_reaped 1 0 0)
                       (state_after (echo_launched 0 0) init))
      \/ exists t th exitCode onExit s1 s2,
           step_in (state_after (echo_launched 0 0) init) (echo_reaped 1 0 0)
             s1 (Exec t (LChildrenErase 0)) s2
           /\ threads s1 !! t = Some th
           /\ op th = OpWrapExitCallback 0 exitCode onExit).
Proof.
  assert (0 ∈ children_ (state_after (echo_launched 0 0) init)) as Hin.
  { vm_compute. reflexivity. }
  split; [vm_compute; reflexivity|]. split; [vm_compute; reflexivity|].
  split; [exact Hin|].
  apply (registered_until_reaped (echo_launched 0 0) (echo_reaped 1 0 0)
           (state_after (echo_launched 0 0) init)
           (state_after (echo_reaped 1 0 0)
              (state_after (echo_launched 0 0) init)) 0);
    [vm_compute; reflexivity|vm_compute; reflexivity|exact Hin].
Defined.

(** A child whose exit is processed before its launch has registered it
    stays registered: when no reaping wrapper bound to the child erases
    after the insert of the launch, the handle is in [children_] at the
    end of the run. *)
Theorem registered_after_early_exit (pre post : list Choice) (s' : State)
    (t : Tid) (pChild : Handle) :
  run (pre ++ Exec t (LChildrenInsert pChild) :: post) init = Some s' ->
  (forall t' th exitCode onExit,
     threads s' !! t' = Some th ->
     op th = OpWrapExitCallback pChild exitCode onExit ->
     LChildrenErase pChild ∉ thread_trace t' post) ->
  pChild ∈ children_ s'.
Proof.
  intros Hrun Hnone.
  apply run_split in Hrun as (s1 & s2 & Hpre & Hstep & Hpost).
  assert (pChild ∈ children_ s2) as Hin.
  { rewrite (exec_children _ _ _ _ Hstep). apply elem_of_union. left.
    by apply elem_of_singleton. }
  destruct (run_children_erased _ _ _ _ Hpost Hin) as [?|(t' & s3 & s4 & Hs)];
    [done|exfalso].
  destruct (step_in_trace _ _ _ _ _ _ Hs) as (tr1 & tr2 & Htr).
  destruct Hs as (q & post' & -> & Hq & Hstep3).
  assert (run (pre ++ Exec t (LChildrenInsert pChild) :: q) init = Some s3)
    as Hreach3 by (by eapply run_join).
  destruct (erase_own_child _ _ _ _ _ Hreach3 Hstep3) as (th & c & f & Hth & Hop).
  apply run_split in Hpost as (s3' & s4' & Hq' & Hstep3' & Hpost').
  assert (s3' = s3) by congruence. subst s3'.
  destruct (step_thread _ _ _ _ _ Hstep3' Hth) as (th4 & Hth4 & Hop4 & _).
  destruct (run_thread _ _ _ _ _ Hpost' Hth4) as (th' & Hth' & Hop' & _).
  eapply (Hnone t' th' c f); [done|congruence|].
  rewrite Htr. apply elem_of_app. right. by left.
Qed.

Lemma registered_after_early_exit_witness :
  run (early_exit_before_insert ++ Exec 0 (LChildrenInsert 0) :: [Exec 0 LUnlock])
    init
  = Some (state_after early_exit init)
  /\ returned (state_after early_exit init) 0 = Some (VError Success)
  /\ returned (state_after early_exit init) 1 = Some VVoid
  /\ 0 ∈ children_ (state_after early_exit init).
Proof.
  split; [vm_compute; reflexivity|]. split; [vm_compute; reflexivity|].
  split; [vm_compute; reflexivity|].
  apply (registered_after_early_exit early_exit_before_insert [Exec 0 LUnlock]
           (state_after early_exit init) 0 0); [vm_compute; reflexivity|].
  intros t' th exitCode onExit Hth Hop Hin.
  destruct t' as [|[|t']]; simpl in Hin.
  - apply elem_of_cons in Hin as [Hin|Hin]; [discriminate Hin|].
    by apply elem_of_nil in Hin.
  - by apply elem_of_nil in Hin.
  - by apply elem_of_nil in Hin.
Defined.

(** ** A supervisor that has launched nothing *)

(** As long as no child has been registered, [children_] is empty, no
    thread ever blocks on [noChildrenSignal_], every call of [wait] that
    has returned has returned true, with or without a maximum duration,
    and every call of [hasRunningChildren] that has returned has returned
    false. *)
Theorem idle_supervisor (cs : list Choice) (s : State) :
  run cs init = Some s ->
  no_insert cs ->
  children_ s = ∅
  /\ (forall t, Block t ∉ cs)
  /\ (forall t th v,
        threads s !! t = Some th -> returned s t = Some v ->
        (forall maxWait, op th = OpWait maxWait -> v = VBool true)
        /\ (op th = OpHasRunningChildren -> v = VBool false)).
Proof.
  intros Hrun Hni. split; [|split].
  - by eapply idle_children.
  - intros t Hin.
    apply list_elem_of_split in Hin as (pa & pb & ->).
    apply run_split in Hrun as (sa & sb & Hpa & Hstep & _).
    apply no_insert_app in Hni as [Hnia _].
    simpl in Hstep.
    destruct (threads sa !! t) as [tha|] eqn:Htha; simpl in Hstep; [|done].
    destruct (is_wait (code tha)) eqn:Hw;
      [|by rewrite andb_false_r in Hstep].
    destruct (idle_trace _ _ _ _ Hpa Hnia Htha) as (tr & Hf & Hnf).
    destruct (wait_code_accepts _ Hw) as (lw & p' & Hafter & Hlw).
    assert (follows (op_prog (op tha)) (tr ++ [lw]) = Some p') as Hf'.
    { rewrite follows_app, Hf. simpl. by rewrite Hafter. }
    destruct (op tha) as [| | | |maxWait|] eqn:Ho;
      try (assert (is_wait_label lw = false) as Hno;
           [eapply (only_wait_waits _ _ _ Hf'); [done|];
            apply elem_of_app; right; by left
           |congruence]).
    destruct (wait_paths _ _ _ Hf') as (entry & signalled & empty' & [k Hk] & _).
    rewrite <- app_assoc in Hk. simpl in Hk.
    assert (wait_steps maxWait entry signalled empty' !! length tr = Some lw)
      as Hn by (rewrite Hk; by apply list_lookup_middle).
    assert (tr = take (length tr) (wait_steps maxWait entry signalled empty'))
      as Htake by (rewrite Hk; by rewrite take_app_length).
    apply Hnf. revert Hn Htake. generalize (length tr). intros n Hn Htake.
    unfold wait_steps in *.
    subst tr.
    destruct entry, (is_not_a_date_time maxWait), signalled; simpl in *;
      index_cases n Hn; simplify_eq; simpl; elem_solve.
  - intros t th v Hth Hv.
    destruct (idle_trace _ _ _ _ Hrun Hni Hth) as (tr & Hf & Hnf).
    apply (returned_code _ _ _ _ Hth) in Hv. rewrite Hv in Hf.
    split.
    + intros maxWait Ho. rewrite Ho in Hf.
      destruct (wait_paths _ _ _ Hf) as (entry & signalled & empty' & _ & Hret).
      destruct (Hret v eq_refl) as [Htr ->].
      destruct entry; [done|]. destruct Hnf. rewrite Htr.
      unfold wait_steps. simpl. elem_solve.
    + intros Ho. rewrite Ho in Hf. cbn in Hf.
      path_cases Hf; simplify_eq.
      destruct empty; [done|]. destruct Hnf. elem_solve.
Qed.

Lemma idle_supervisor_witness :
  run idle_queries init = Some (state_after idle_queries init)
  /\ returned (state_after idle_queries init) 0 = Some (VBool true)
  /\ returned (state_after idle_queries init) 1 = Some (VBool true)
  /\ returned (state_after idle_queries init) 2 = Some (VBool false)
  /\ children_ (state_after idle_queries init) = ∅
  /\ forall t, Block t ∉ idle_queries.
Proof.
  split; [vm_compute; reflexivity|]. split; [vm_compute; reflexivity|].
  split; [vm_compute; reflexivity|]. split; [vm_compute; reflexivity|].
  destruct (idle_supervisor idle_queries (state_after idle_queries init))
    as (Hempty & Hnb & _); [vm_compute; reflexivity| |].
  - intros t h Hin. unfold idle_queries in Hin.
    repeat (apply elem_of_cons in Hin as [Hin|Hin]; [discriminate Hin|]).
    by apply elem_of_nil in Hin.
  - split; [exact Hempty|exact Hnb].
Defined.
